(** * Correlation engine of the Kalshi correlation analyser

    A shallow embedding of [CorrelationAnalyzer] (correlation-analyzer.ts),
    of the windowing part of [main] (index.ts) and of
    [transformCandlestickData] (candlestick-plotter.ts), together with the
    properties the design document states about them.

    JavaScript numbers are IEEE 754 binary64 values; they are modelled by
    Rocq's primitive floats, which are the same values with the same
    correctly rounded operations. Arrays are lists, array lengths and loop
    counters are natural numbers, timestamps are integers. *)

From Stdlib Require Import Floats ZArith Lia.
From Stdlib Require Uint63.
From stdpp Require Import gmap strings list pretty sorting.

(** ** JavaScript values and array primitives *)

Module Js.

Abbreviation number := float (only parsing).

(** [arr.length] used as a number. *)
Definition of_length (n : nat) : number :=
  PrimFloat.of_uint63 (Uint63.of_Z (Z.of_nat n)).

(** [a === b] and [a !== b] on numbers: IEEE equality, so that
    [0 === -0] and [NaN !== NaN]. *)
Definition strict_eq (a b : number) : bool := PrimFloat.eqb a b.
Definition strict_ne (a b : number) : bool := negb (PrimFloat.eqb a b).

(** [a > b] on numbers. *)
Definition gt (a b : number) : bool := PrimFloat.ltb b a.

(** Truthiness of a number: everything but [0], [-0] and [NaN]. *)
Definition truthy (a : number) : bool :=
  negb (PrimFloat.eqb a 0) && PrimFloat.eqb a a.

(** [arr[i]] read as a number. Reading past the end gives [undefined],
    which every arithmetic operator turns into [NaN]. *)
Definition index (arr : list number) (i : nat) : number :=
  default nan (arr !! i).

(** [arr.reduce((acc, v, i) => f(acc, v, i), init)]. *)
Fixpoint reduce_from {A B : Type} (f : B → A → nat → B)
    (i : nat) (arr : list A) (acc : B) : B :=
  match arr with
  | [] => acc
  | v :: rest => reduce_from f (S i) rest (f acc v i)
  end.

Definition reduce {A B : Type} (f : B → A → nat → B)
    (arr : list A) (init : B) : B :=
  reduce_from f 0 arr init.

(** [arr.slice(start, end)] for non-negative integer bounds: both bounds
    are clamped to the length, and the result is empty when
    [end <= start]. *)
Definition slice {A : Type} (arr : list A) (start end_ : nat) : list A :=
  take (end_ - start) (drop start arr).

(** [arr.push(v)]. *)
Definition push {A : Type} (arr : list A) (v : A) : list A := arr ++ [v].

(** [for (let i = from; i < to; i++) body], threading the variables the
    body assigns to; a loop that runs while [i <= n] is [for_upto from
    (S n)]. *)
Definition for_upto {S : Type} (from to : nat) (body : nat → S → S)
    (s : S) : S :=
  fold_left (λ st i, body i st) (seq from (to - from)) s.

End Js.

Import Js.

(** ** Correlation calculator *)

Section Calculator.
Local Open Scope float_scope.

(** [calculateCorrelation(x, y)]: Pearson correlation coefficient. *)
Definition calculateCorrelation (x y : list number) : number :=
  if negb (length x =? length y)%nat || (length x =? 0)%nat then 0
  else
    let n := of_length (length x) in
    let sumX := reduce (λ a b _, a + b) x 0 in
    let sumY := reduce (λ a b _, a + b) y 0 in
    let sumXY := reduce (λ sum xi i, sum + xi * index y i) x 0 in
    let sumX2 := reduce (λ sum xi _, sum + xi * xi) x 0 in
    let sumY2 := reduce (λ sum yi _, sum + yi * yi) y 0 in
    let numerator := n * sumXY - sumX * sumY in
    let denominator :=
      PrimFloat.sqrt ((n * sumX2 - sumX * sumX) * (n * sumY2 - sumY * sumY)) in
    if strict_eq denominator 0 then 0
    else numerator / denominator.

(** [calculateReturns(prices)]: the loop runs [i] from [1] while
    [i < prices.length]. *)
Definition calculateReturns (prices : list number) : list number :=
  for_upto 1 (length prices)
    (λ i returns,
       if strict_ne (index prices (i - 1)) 0
       then push returns
              ((index prices i - index prices (i - 1)) / index prices (i - 1))
       else push returns 0)
    [].

(** [calculateRollingCorrelation(x, y, window)]: the loop runs [i] from
    [window] while [i <= x.length]. *)
Definition calculateRollingCorrelation (x y : list number) (window : nat)
    : list number :=
  for_upto window (S (length x))
    (λ i correlations,
       let xWindow := slice x (i - window) i in
       let yWindow := slice y (i - window) i in
       push correlations (calculateCorrelation xWindow yWindow))
    [].

End Calculator.

(** ** Data model *)

Record OHLCData := {
  open : number;
  high : number;
  low : number;
  close : number
}.

Record CandlestickData := {
  end_period_ts : Z;
  open_interest : number;
  price : option OHLCData;
  volume : number;
  yes_ask : option OHLCData;
  yes_bid : option OHLCData
}.

Record TimeSeriesData := {
  marketTicker : string;
  eventTicker : string;
  eventTitle : option string;
  title : option string;
  timestamps : list Z;
  closePrices : list number;
  volumes : list number
}.

Record CorrelationResult := {
  market1 : string;
  market2 : string;
  event1Title : option string;
  event2Title : option string;
  correlation : number;
  pValue : option number;
  dataPoints : nat
}.

(** The value [alignTimeSeries] returns when it does not return [null]. *)
Record Aligned := {
  prices1 : list number;
  prices2 : list number;
  aligned_timestamps : list Z
}.

(** ** Time-series aligner *)

(** [alignTimeSeries(series1, series2)]. The lookup table, which the source
    calls [series2Map], is filled from [series1]; the three result arrays
    grow together while [series2.timestamps] is scanned. *)
Definition alignTimeSeries (series1 series2 : TimeSeriesData)
    : option Aligned :=
  let series2Map : gmap Z number :=
    reduce (λ m ts i, <[ts := index (closePrices series1) i]> m)
           (timestamps series1) ∅ in
  let '(timestamps, prices1, prices2) :=
    reduce (λ '(timestamps, prices1, prices2) ts i,
              match series2Map !! ts with
              | Some p =>
                  (push timestamps ts,
                   push prices1 p,
                   push prices2 (index (closePrices series2) i))
              | None => (timestamps, prices1, prices2)
              end)
           (timestamps series2) ([], [], []) in
  if (length timestamps <? 3)%nat then None
  else Some {| prices1 := prices1; prices2 := prices2;
               aligned_timestamps := timestamps |}.

(** ** Exceptions *)

(** A call either returns a value or throws. *)
Inductive outcome (A : Type) : Type :=
  | Returned (a : A)
  | Thrown (error : string).
Arguments Returned {A} a.
Arguments Thrown {A} error.

#[global] Instance outcome_ret : MRet outcome := λ A a, Returned a.

#[global] Instance outcome_bind : MBind outcome := λ A B k c,
  match c with
  | Returned a => k a
  | Thrown e => Thrown e
  end.

(** [try { c } catch (error) { handler(error) }]. *)
Definition try_catch {A : Type} (c : outcome A) (handler : string → outcome A)
    : outcome A :=
  match c with
  | Returned a => Returned a
  | Thrown e => handler e
  end.

(** [for (const v of arr) body], where the body may throw. *)
Fixpoint for_of {A S : Type} (body : A → S → outcome S) (arr : list A) (s : S)
    : outcome S :=
  match arr with
  | [] => Returned s
  | v :: rest => s' ← body v s; for_of body rest s'
  end.

(** ** Fetch collaborator and conversion to a time series *)

(** The argument of [KalshiCorrelator.getMarketCandlesticks]. *)
Record MarketsCandlesticksConfig := {
  cfg_ticker : string;
  cfg_marketTicker : string;
  cfg_startTs : Z;
  cfg_endTs : Z;
  cfg_periodInterval : string
}.

(** What the API answers; the field may be missing. *)
Record CandlesticksResponse := {
  candlesticks : option (list CandlestickData)
}.

(** The client: a request returns a response (possibly [undefined]) or
    throws on a transport failure. *)
Definition KalshiClient : Type :=
  MarketsCandlesticksConfig → outcome (option CandlesticksResponse).

Definition with_price (candle : CandlestickData) (p : OHLCData)
    : CandlestickData :=
  {| end_period_ts := end_period_ts candle;
     open_interest := open_interest candle;
     price := Some p;
     volume := volume candle;
     yes_ask := yes_ask candle;
     yes_bid := yes_bid candle |}.

(** [transformCandlestickData(candlesticks)] *)
Definition transformCandlestickData (candlesticks : list CandlestickData)
    : list CandlestickData :=
  map (λ candle,
         if match price candle with
            | Some p => truthy (close p)
            | None => false
            end
         then candle
         else
           match yes_ask candle, yes_bid candle with
           | Some ask, Some bid =>
               with_price candle
                 {| open := (open ask + open bid) / 2;
                    high := (high ask + high bid) / 2;
                    low := (low ask + low bid) / 2;
                    close := (close ask + close bid) / 2 |}%float
           | Some ask, None => with_price candle ask
           | None, Some bid => with_price candle bid
           | None, None =>
               with_price candle
                 {| open := 0; high := 0; low := 0; close := 0 |}%float
           end)
      candlesticks.

(** [fetchMarketTimeSeries(...)]: the whole body is inside [try], and the
    [catch] branch returns [null]. *)
Definition fetchMarketTimeSeries (kalshi : KalshiClient)
    (eventTicker marketTicker title : string) (startTs endTs : Z)
    (periodInterval : string) (eventTitle : option string)
    : outcome (option TimeSeriesData) :=
  try_catch
    (response ← kalshi {| cfg_ticker := eventTicker;
                          cfg_marketTicker := marketTicker;
                          cfg_startTs := startTs;
                          cfg_endTs := endTs;
                          cfg_periodInterval := periodInterval |};
     match response with
     | None => mret None
     | Some r =>
         match candlesticks r with
         | None => mret None
         | Some raw =>
             if (length raw =? 0)%nat then mret None else
             let candlesticks := transformCandlestickData raw in
             let '(timestamps, closePrices, volumes) :=
               fold_left
                 (λ '(timestamps, closePrices, volumes) candle,
                    match price candle with
                    | Some p =>
                        if gt (close p) 0%float
                        then (push timestamps (end_period_ts candle),
                              push closePrices (close p / 100)%float,
                              push volumes (volume candle))
                        else (timestamps, closePrices, volumes)
                    | None => (timestamps, closePrices, volumes)
                    end)
                 candlesticks ([], [], []) in
             if (length closePrices =? 0)%nat then mret None
             else mret (Some {| marketTicker := marketTicker;
                                eventTicker := eventTicker;
                                eventTitle := eventTitle;
                                title := Some title;
                                timestamps := timestamps;
                                closePrices := closePrices;
                                volumes := volumes |})
         end
     end)
    (λ error, mret None).

(** ** Pairwise correlation engine *)

(** An element of the [markets] argument of [analyzeMultipleMarkets]. *)
Record MarketRef := {
  m_eventTicker : string;
  m_marketTicker : string;
  m_title : string;
  m_eventTitle : option string
}.

(** The body of the inner loop of [analyzeMultipleMarkets], on the two
    variables it assigns to: [correlations] and [skippedSameEvent]. *)
Definition pairBody (series1 series2 : TimeSeriesData)
    (st : list CorrelationResult * nat) : list CorrelationResult * nat :=
  let '(correlations, skippedSameEvent) := st in
  if String.eqb (eventTicker series1) (eventTicker series2)
  then (correlations, S skippedSameEvent)
  else
    match alignTimeSeries series1 series2 with
    | None => st
    | Some aligned =>
        if (length (aligned_timestamps aligned) <? 10)%nat then st
        else
          let returns1 := calculateReturns (prices1 aligned) in
          let returns2 := calculateReturns (prices2 aligned) in
          if (0 <? length returns1)%nat && (0 <? length returns2)%nat
          then
            let correlation := calculateCorrelation returns1 returns2 in
            (push correlations
               {| market1 := marketTicker series1;
                  market2 := marketTicker series2;
                  event1Title := eventTitle series1;
                  event2Title := eventTitle series2;
                  correlation := correlation;
                  pValue := None;
                  dataPoints := length (aligned_timestamps aligned) |},
             skippedSameEvent)
          else st
    end.

(** The two nested loops over [timeSeriesData]: [i] from [0], [j] from
    [i + 1], both while below the length. *)
Definition pairwiseCorrelations (timeSeriesData : list TimeSeriesData)
    : list CorrelationResult * nat :=
  for_upto 0 (length timeSeriesData)
    (λ i st,
       for_upto (i + 1) (length timeSeriesData)
         (λ j st,
            match timeSeriesData !! i, timeSeriesData !! j with
            | Some series1, Some series2 => pairBody series1 series2 st
            | _, _ => st
            end)
         st)
    ([], 0).

(** [analyzeMultipleMarkets(markets, startTs, endTs, periodInterval)] *)
Definition analyzeMultipleMarkets (kalshi : KalshiClient)
    (markets : list MarketRef) (startTs endTs : Z) (periodInterval : string)
    : outcome (list CorrelationResult) :=
  timeSeriesData ←
    for_of (λ market timeSeriesData,
              series ← fetchMarketTimeSeries kalshi
                         (m_eventTicker market) (m_marketTicker market)
                         (m_title market) startTs endTs periodInterval
                         (m_eventTitle market);
              match series with
              | Some series => mret (push timeSeriesData series)
              | None => mret timeSeriesData
              end)
           markets [];
  mret (fst (pairwiseCorrelations timeSeriesData)).

(** ** Deduplicator *)

(** A JavaScript [Map]: an association list in insertion order. [set] on a
    key already present replaces the value where it stands; [values]
    lists the values in insertion order of their keys. *)
Module JsMap.
Section Ops.
Context {K V : Type} `{EqDecision K}.

Fixpoint get (m : list (K * V)) (k : K) : option V :=
  match m with
  | [] => None
  | (k', v) :: rest => if decide (k' = k) then Some v else get rest k
  end.

Fixpoint set (m : list (K * V)) (k : K) (v : V) : list (K * V) :=
  match m with
  | [] => [(k, v)]
  | (k', v') :: rest =>
      if decide (k' = k) then (k', v) :: rest
      else (k', v') :: set rest k v
  end.

Definition values (m : list (K * V)) : list V := m.*2.
End Ops.
End JsMap.

(** The order-independent [key] of a record: the two tickers, smaller
    first, joined by a bar. *)
Definition pairKey (corr : CorrelationResult) : string :=
  if String.ltb (market1 corr) (market2 corr)
  then market1 corr +:+ "|" +:+ market2 corr
  else market2 corr +:+ "|" +:+ market1 corr.

(** The test that lets [corr] take the place of [existing]:
    [corr.dataPoints > existing.dataPoints ||
     (corr.dataPoints === existing.dataPoints &&
      Math.abs(corr.correlation) > Math.abs(existing.correlation))]. *)
Definition replaces (corr existing : CorrelationResult) : bool :=
  (dataPoints existing <? dataPoints corr)%nat
  || ((dataPoints corr =? dataPoints existing)%nat
      && gt (PrimFloat.abs (correlation corr))
            (PrimFloat.abs (correlation existing))).

(** One iteration of the loop of [deduplicateCorrelations]. *)
Definition dedupStep (correlationMap : list (string * CorrelationResult))
    (corr : CorrelationResult) : list (string * CorrelationResult) :=
  let key := pairKey corr in
  let existing := JsMap.get correlationMap key in
  if match existing with
     | None => true
     | Some existing => replaces corr existing
     end
  then JsMap.set correlationMap key corr
  else correlationMap.

(** [deduplicateCorrelations(correlations)] *)
Definition deduplicateCorrelations (correlations : list CorrelationResult)
    : list CorrelationResult :=
  let correlationMap := fold_left dedupStep correlations [] in
  JsMap.values correlationMap.

(** ** Windowed batch run (index.ts) *)

Definition VOLUME_THRESHOLD : Z := 10000.
Definition MAX_MARKETS : nat := 100.
Definition WINDOW_SIZE : nat := 50.

(** Events and markets as the API lists them; every field may be missing. *)
Record ApiMarket := {
  api_ticker : option string;
  api_title : option string;
  api_volume : option Z
}.

Record ApiEvent := {
  api_event_ticker : option string;
  api_event_title : option string;
  api_markets : option (list ApiMarket)
}.

(** [a || b] on strings that may be missing: the empty string is falsy. *)
Definition or_string (a : option string) (b : string) : string :=
  match a with
  | Some s => if String.eqb s "" then b else s
  | None => b
  end.

(** The loop of [main] that collects one market per event: it stops as
    soon as [MAX_MARKETS] markets are collected, and passes over an event
    with no market above [VOLUME_THRESHOLD]. *)
Fixpoint collectMarkets (eventsWithMarkets : list ApiEvent)
    (allMarkets : list MarketRef) : list MarketRef :=
  match eventsWithMarkets with
  | [] => allMarkets
  | event :: rest =>
      if (MAX_MARKETS <=? length allMarkets)%nat then allMarkets
      else
        match api_markets event with
        | Some (m :: ms) =>
            match
              List.find (λ market,
                           (VOLUME_THRESHOLD <? default 0 (api_volume market))%Z)
                        (m :: ms)
            with
            | None => collectMarkets rest allMarkets
            | Some selectedMarket =>
                collectMarkets rest
                  (push allMarkets
                     {| m_eventTicker := or_string (api_event_ticker event) "";
                        m_marketTicker :=
                          or_string (api_ticker selectedMarket) "";
                        m_title :=
                          or_string (api_title selectedMarket)
                            (or_string (api_ticker selectedMarket) "Unknown");
                        m_eventTitle := api_event_title event |})
            end
        | _ => collectMarkets rest allMarkets
        end
  end.

Section Windows.
(** The engine the windows are submitted to; [allCorrelations] is an
    [any[]] in the source. *)
Context {R : Type} (analyze : list MarketRef → outcome (list R)).

(** The "rolling window analysis" of [main]: the two variables are
    [allCorrelations] and [windowCount]. *)
Definition windowedAnalysis (allMarkets : list MarketRef)
    : outcome (list R * nat) :=
  let allCorrelations : list R := [] in
  let windowCount := 0 in
  '(allCorrelations, windowCount) ←
    (if (WINDOW_SIZE <=? length allMarkets)%nat
     then
       let windowCount := S windowCount in
       let marketsWindow := slice allMarkets 0 WINDOW_SIZE in
       correlations ← analyze marketsWindow;
       mret (allCorrelations ++ correlations, windowCount)
     else
       let windowCount := S windowCount in
       correlations ← analyze allMarkets;
       mret (allCorrelations ++ correlations, windowCount));
  if (WINDOW_SIZE <? length allMarkets)%nat
  then
    let windowCount := S windowCount in
    let endIdx := Nat.min (WINDOW_SIZE * 2) (length allMarkets) in
    let marketsWindow := slice allMarkets WINDOW_SIZE endIdx in
    if (2 <=? length marketsWindow)%nat
    then
      correlations ← analyze marketsWindow;
      mret (allCorrelations ++ correlations, windowCount)
    else mret (allCorrelations, windowCount)
  else mret (allCorrelations, windowCount).
End Windows.

(** [main] from the collection of the markets to the deduplicated result;
    [None] stands for the early return when fewer than two markets were
    collected. The events arrive sorted by volume. *)
Definition mainAnalysis (kalshi : KalshiClient)
    (eventsWithMarkets : list ApiEvent) (startTs endTs : Z)
    : outcome (option (list CorrelationResult)) :=
  let allMarkets := collectMarkets eventsWithMarkets [] in
  if (length allMarkets <? 2)%nat then mret None
  else
    '(allCorrelations, windowCount) ←
      windowedAnalysis
        (λ w, analyzeMultipleMarkets kalshi w startTs endTs "60")
        allMarkets;
    mret (Some (deduplicateCorrelations allCorrelations)).

(** The windows a run submits to the engine, in order: the run is made
    with an engine that answers with the window it was given. *)
Definition submittedWindows (allMarkets : list MarketRef)
    : list (list MarketRef) :=
  match windowedAnalysis (λ w, Returned [w]) allMarkets with
  | Returned (windows, _) => windows
  | Thrown _ => []
  end.

(** ** The Pearson formula as the design document writes it

    [r = (n·Σxy − Σx·Σy) / sqrt((n·Σx² − (Σx)²)·(n·Σy² − (Σy)²))], every sum
    taken from left to right starting at [0], the products [xy], [x²] and
    [y²] formed elementwise. *)

Section Formula.
Local Open Scope float_scope.

Definition spec_sum (l : list number) : number := fold_left PrimFloat.add l 0.

Definition spec_numerator (x y : list number) : number :=
  of_length (length x) * spec_sum (zip_with PrimFloat.mul x y)
  - spec_sum x * spec_sum y.

Definition spec_denominator (x y : list number) : number :=
  PrimFloat.sqrt
    ((of_length (length x) * spec_sum (zip_with PrimFloat.mul x x)
      - spec_sum x * spec_sum x)
     * (of_length (length x) * spec_sum (zip_with PrimFloat.mul y y)
        - spec_sum y * spec_sum y)).
End Formula.

(** The value pushed at index [i] of the loop of [calculateReturns]. *)
Definition returnAt (prices : list number) (i : nat) : number :=
  if strict_ne (index prices (i - 1)) 0
  then ((index prices i - index prices (i - 1)) / index prices (i - 1))%float
  else 0%float.

(** The lookup table [alignTimeSeries] builds from its first argument. *)
Definition lookupTable (series1 : TimeSeriesData) : gmap Z number :=
  reduce (λ m ts i, <[ts := index (closePrices series1) i]> m)
         (timestamps series1) ∅.

(** The rows the scan of [alignTimeSeries] appends, for the timestamps
    [tss] read from index [i] on. *)
Fixpoint alignedRows (table : gmap Z number) (closePrices2 : list number)
    (i : nat) (tss : list Z) : list (Z * number * number) :=
  match tss with
  | [] => []
  | ts :: rest =>
      match table !! ts with
      | Some p =>
          (ts, p, index closePrices2 i)
          :: alignedRows table closePrices2 (S i) rest
      | None => alignedRows table closePrices2 (S i) rest
      end
  end.

(** The timestamps of the second series that the first series has too. *)
Definition overlap (series1 series2 : TimeSeriesData) : list Z :=
  filter (λ ts, ts ∈ timestamps series1) (timestamps series2).


(** ** Sample series *)

Definition sampleSeries (market event : string) (tss : list Z)
    (prices : list number) : TimeSeriesData :=
  {| marketTicker := market; eventTicker := event;
     eventTitle := None; title := None;
     timestamps := tss; closePrices := prices;
     volumes := map (λ _, 1%float) tss |}.

Definition series_123 : TimeSeriesData :=
  sampleSeries "MKT-A" "EVT-A" [1; 2; 3]%Z [0.5; 0.25; 0.75]%float.

Definition series_234 : TimeSeriesData :=
  sampleSeries "MKT-B" "EVT-B" [2; 3; 4]%Z [0.125; 0.375; 0.625]%float.

Definition series_1234 : TimeSeriesData :=
  sampleSeries "MKT-A" "EVT-A" [1; 2; 3; 4]%Z [0.5; 0.25; 0.75; 1]%float.

Definition series_2345 : TimeSeriesData :=
  sampleSeries "MKT-B" "EVT-B" [2; 3; 4; 5]%Z
               [0.125; 0.375; 0.625; 0.875]%float.


(** ** Pairs of the engine *)

(** The index pairs in the order the two nested loops of
    [analyzeMultipleMarkets] reach them. *)
Definition indexPairs (n : nat) : list (nat * nat) :=
  seq 0 (n - 0) ≫= λ i, pair i <$> seq (i + 1) (n - (i + 1)).

(** The records one pass through the loop body adds, and the number of
    same-event pairs it counts. *)
Definition emitted (series1 series2 : TimeSeriesData)
    : list CorrelationResult :=
  fst (pairBody series1 series2 ([], 0)).

Definition skipped (series1 series2 : TimeSeriesData) : nat :=
  snd (pairBody series1 series2 ([], 0)).

(** The loop body at a pair of indices. *)
Definition pairAt (timeSeriesData : list TimeSeriesData) (ij : nat * nat)
    (st : list CorrelationResult * nat) : list CorrelationResult * nat :=
  match timeSeriesData !! ij.1, timeSeriesData !! ij.2 with
  | Some series1, Some series2 => pairBody series1 series2 st
  | _, _ => st
  end.

Definition emittedAt (timeSeriesData : list TimeSeriesData) (ij : nat * nat)
    : list CorrelationResult :=
  match timeSeriesData !! ij.1, timeSeriesData !! ij.2 with
  | Some series1, Some series2 => emitted series1 series2
  | _, _ => []
  end.

Definition skippedAt (timeSeriesData : list TimeSeriesData) (ij : nat * nat)
    : nat :=
  match timeSeriesData !! ij.1, timeSeriesData !! ij.2 with
  | Some series1, Some series2 => skipped series1 series2
  | _, _ => 0
  end.

(** Ten hourly prices, and two series on the same ten hours. *)
Definition series_ten_a : TimeSeriesData :=
  sampleSeries "MKT-A" "EVT-A" [1; 2; 3; 4; 5; 6; 7; 8; 9; 10]%Z
    [0.5; 0.25; 0.75; 1; 0.5; 0.125; 0.25; 0.5; 0.75; 0.5]%float.

Definition series_ten_b : TimeSeriesData :=
  sampleSeries "MKT-B" "EVT-B" [1; 2; 3; 4; 5; 6; 7; 8; 9; 10]%Z
    [0.125; 0.375; 0.625; 0.875; 0.5; 0.25; 0.5; 0.25; 0.5; 0.75]%float.


(** The series the engine obtains for one market: [None] when
    [fetchMarketTimeSeries] answers [null]. *)
Definition fetchedSeries (kalshi : KalshiClient) (startTs endTs : Z)
    (periodInterval : string) (market : MarketRef) : option TimeSeriesData :=
  match fetchMarketTimeSeries kalshi (m_eventTicker market)
          (m_marketTicker market) (m_title market) startTs endTs
          periodInterval (m_eventTitle market)
  with
  | Returned series => series
  | Thrown _ => None
  end.

(** The request [fetchMarketTimeSeries] sends for a market. *)
Definition requestFor (market : MarketRef) (startTs endTs : Z)
    (periodInterval : string) : MarketsCandlesticksConfig :=
  {| cfg_ticker := m_eventTicker market;
     cfg_marketTicker := m_marketTicker market;
     cfg_startTs := startTs;
     cfg_endTs := endTs;
     cfg_periodInterval := periodInterval |}.


(** ** Sample client, markets and events *)

Definition sampleCandle (ts : Z) (cents : number) : CandlestickData :=
  {| end_period_ts := ts; open_interest := 0%float;
     price := Some {| open := cents; high := cents; low := cents;
                      close := cents |};
     volume := 1%float; yes_ask := None; yes_bid := None |}.

Definition sampleCandles (cents : list number) : list CandlestickData :=
  zip_with sampleCandle (seqZ 1 (Z.of_nat (length cents))) cents.

(** A client whose transport fails for the market [MKT-X] and which serves
    ten hourly candles for [MKT-A] and for any other market. *)
Definition flakyClient : KalshiClient :=
  λ config,
    if String.eqb (cfg_marketTicker config) "MKT-X"
    then Thrown "socket hang up"
    else if String.eqb (cfg_marketTicker config) "MKT-A"
    then Returned (Some {| candlesticks := Some (sampleCandles
           [50; 25; 75; 100; 50; 12; 25; 50; 75; 50]%float) |})
    else Returned (Some {| candlesticks := Some (sampleCandles
           [12; 37; 62; 87; 50; 25; 50; 25; 50; 75]%float) |}).

Definition sampleMarket (event market : string) : MarketRef :=
  {| m_eventTicker := event; m_marketTicker := market;
     m_title := market; m_eventTitle := None |}.

Definition numberedMarket (i : nat) : MarketRef :=
  sampleMarket ("EVT-" +:+ pretty i) ("MKT-" +:+ pretty i).

Definition numberedEvent (i : nat) : ApiEvent :=
  {| api_event_ticker := Some ("EVT-" +:+ pretty i);
     api_event_title := None;
     api_markets := Some [ {| api_ticker := Some ("MKT-" +:+ pretty i);
                              api_title := None;
                              api_volume := Some 20000%Z |} ] |}.


(** ** Ranking of duplicate records *)

(** Two records tie when they have the same sample count and the same
    absolute correlation. *)
Definition ties (a b : CorrelationResult) : bool :=
  (dataPoints a =? dataPoints b)%nat
  && strict_eq (PrimFloat.abs (correlation a)) (PrimFloat.abs (correlation b)).

Definition sampleResult (m1 m2 : string) (note : option string)
    (c : number) (n : nat) : CorrelationResult :=
  {| market1 := m1; market2 := m2; event1Title := note; event2Title := None;
     correlation := c; pValue := None; dataPoints := n |}.


(** What holds of the map after the records [l] have been processed. *)
Record dedupInv (l : list CorrelationResult)
    (m : list (string * CorrelationResult)) : Prop := {
  inv_nodup : NoDup m.*1;
  inv_keys : ∀ k, k ∈ m.*1 ↔ k ∈ pairKey <$> l;
  inv_winner : ∀ k w, JsMap.get m k = Some w →
    pairKey w = k
    ∧ (∀ r, r ∈ l → pairKey r = k → replaces r w = false)
    ∧ ∃ l1 l2, l = l1 ++ w :: l2
               ∧ ∀ r, r ∈ l1 → pairKey r = k → ties r w = false
}.

Definition result_12 : CorrelationResult :=
  sampleResult "MKT-A" "MKT-B" None 0.5%float 12.

Definition result_20 : CorrelationResult :=
  sampleResult "MKT-B" "MKT-A" None 0.25%float 20.

Definition result_weak : CorrelationResult :=
  sampleResult "MKT-A" "MKT-B" None 0.25%float 12.

Definition result_strong : CorrelationResult :=
  sampleResult "MKT-B" "MKT-A" None (-0.75)%float 12.



(** The separator of [pairKey], the character [|] (code 124). *)
Definition bar : Ascii.ascii :=
  Ascii.Ascii false false true true true true true false.

(** A ticker in which the separator does not occur. *)
Fixpoint bar_free (s : string) : bool :=
  match s with
  | EmptyString => true
  | String c rest => negb (Ascii.eqb c bar) && bar_free rest
  end.


(** ** Further vocabulary for the properties *)

(** A record read with its two markets exchanged. *)
Definition swapMarkets (r : CorrelationResult) : CorrelationResult :=
  {| market1 := market2 r; market2 := market1 r;
     event1Title := event2Title r; event2Title := event1Title r;
     correlation := correlation r; pValue := pValue r;
     dataPoints := dataPoints r |}.

(** Timestamps in strictly increasing order. *)
Definition increasing (tss : list Z) : Prop := Sorted Z.lt tss.


(** An alignment read with its two price sequences exchanged. *)
Definition swapAligned (a : Aligned) : Aligned :=
  {| prices1 := prices2 a; prices2 := prices1 a;
     aligned_timestamps := aligned_timestamps a |}.


(** A series that records the timestamp [2] twice. *)
Definition series_1223 : TimeSeriesData :=
  sampleSeries "MKT-A" "EVT-A" [1; 2; 2; 3]%Z [0.5; 0.25; 0.75; 1]%float.


(** [analyzeMarketPair(...)]: the two fetches of [Promise.all] cannot
    reject, and their results are consumed together. The level
    correlation [priceCorrelation] is computed and not used. *)
Definition analyzeMarketPair (kalshi : KalshiClient)
    (event1Ticker market1Ticker market1Title : string)
    (event2Ticker market2Ticker market2Title : string)
    (startTs endTs : Z) (periodInterval : string)
    : outcome (option CorrelationResult) :=
  series1 ← fetchMarketTimeSeries kalshi event1Ticker market1Ticker
              market1Title startTs endTs periodInterval None;
  series2 ← fetchMarketTimeSeries kalshi event2Ticker market2Ticker
              market2Title startTs endTs periodInterval None;
  match series1, series2 with
  | Some series1, Some series2 =>
      match alignTimeSeries series1 series2 with
      | None => mret None
      | Some aligned =>
          let priceCorrelation :=
            calculateCorrelation (prices1 aligned) (prices2 aligned) in
          let returns1 := calculateReturns (prices1 aligned) in
          let returns2 := calculateReturns (prices2 aligned) in
          let returnsCorrelation :=
            if (0 <? length returns1)%nat
            then calculateCorrelation returns1 returns2
            else 0%float in
          mret (Some {| market1 := market1Ticker;
                        market2 := market2Ticker;
                        event1Title := None;
                        event2Title := None;
                        correlation := returnsCorrelation;
                        pValue := None;
                        dataPoints := length (aligned_timestamps aligned) |})
      end
  | _, _ => mret None
  end.

(** The candles [fetchMarketTimeSeries] keeps: those with a price whose
    close is above [0]. *)
Definition keptCandle (candle : CandlestickData) : bool :=
  match price candle with
  | Some p => gt (close p) 0%float
  | None => false
  end.

(** What [analyzeMarketPair] asks of the client for one market. *)
Definition pairSeries (kalshi : KalshiClient) (eventTicker marketTicker
    title : string) (startTs endTs : Z) (periodInterval : string)
    : option TimeSeriesData :=
  fetchedSeries kalshi startTs endTs periodInterval
    {| m_eventTicker := eventTicker; m_marketTicker := marketTicker;
       m_title := title; m_eventTitle := None |}.


(** A series with another event title. *)
Definition withEventTitle (eTitle : option string) (series : TimeSeriesData)
    : TimeSeriesData :=
  {| marketTicker := marketTicker series;
     eventTicker := eventTicker series;
     eventTitle := eTitle;
     title := title series;
     timestamps := timestamps series;
     closePrices := closePrices series;
     volumes := volumes series |}.


(** What one pass of the collection loop of [main] adds for an event: the
    first market above the volume threshold, if there is one. *)
Definition selectMarket (event : ApiEvent) : option MarketRef :=
  match api_markets event with
  | Some (m :: ms) =>
      match
        List.find (λ market,
                     (VOLUME_THRESHOLD <? default 0 (api_volume market))%Z)
                  (m :: ms)
      with
      | None => None
      | Some selectedMarket =>
          Some {| m_eventTicker := or_string (api_event_ticker event) "";
                  m_marketTicker := or_string (api_ticker selectedMarket) "";
                  m_title :=
                    or_string (api_title selectedMarket)
                      (or_string (api_ticker selectedMarket) "Unknown");
                  m_eventTitle := api_event_title event |}
      end
  | _ => None
  end.


(** ** Reporting helpers of the analyser *)

#[local] Set Warnings "-inexact-float".

(** [a >= b] on numbers. *)
Definition ge (a b : number) : bool := PrimFloat.leb b a.

(** [getCorrelationStrength(correlation)] *)
Definition getCorrelationStrength (correlation : number) : string :=
  let abs := PrimFloat.abs correlation in
  if ge abs 0.9 then "Very Strong"
  else if ge abs 0.7 then "Strong"
  else if ge abs 0.5 then "Moderate"
  else if ge abs 0.3 then "Weak"
  else "Very Weak".

(** The chalk styles [getCorrelationColor] chooses from. *)
Inductive ChalkStyle : Type :=
  | green_bold | green | greenBright | red_bold | red | redBright.

(** [getCorrelationColor(correlation)] *)
Definition getCorrelationColor (correlation : number) : ChalkStyle :=
  let abs := PrimFloat.abs correlation in
  if gt correlation 0 then
    if ge abs 0.7 then green_bold
    else if ge abs 0.5 then green
    else greenBright
  else
    if ge abs 0.7 then red_bold
    else if ge abs 0.5 then red
    else redBright.

(** The comparator [(a, b) => Math.abs(b.correlation) -
    Math.abs(a.correlation)] of the three sorting calls. *)
Definition byAbsCorrelation (a b : CorrelationResult) : number :=
  (PrimFloat.abs (correlation b) - PrimFloat.abs (correlation a))%float.

(** [Array.prototype.sort(compare)], a collaborator of the language: it
    reorders the array it is called on and returns it. *)
Definition SortFn : Type := ∀ A : Type, (A → A → number) → list A → list A.

(** [findTopCorrelations(correlations, top)]: the value returned, and the
    contents the argument array has afterwards (it is sorted in place). *)
Definition findTopCorrelations (sort : SortFn)
    (correlations : list CorrelationResult) (top : nat)
    : list CorrelationResult * list CorrelationResult :=
  let sorted := sort _ byAbsCorrelation correlations in
  (slice sorted 0 top, sorted).

(** [findCorrelatedWith(targetMarket, correlations, threshold)]: the
    filter makes a new array, so the argument is left as it was. *)
Definition findCorrelatedWith (sort : SortFn) (targetMarket : string)
    (correlations : list CorrelationResult) (threshold : number)
    : list CorrelationResult :=
  sort _ byAbsCorrelation
    (filter (λ c, (String.eqb (market1 c) targetMarket
                   || String.eqb (market2 c) targetMarket)
                  && ge (PrimFloat.abs (correlation c)) threshold)
            correlations).

(** What [displayCorrelationMatrix] computes for its table and its
    summary. *)
Record MatrixReport := {
  shown : list (CorrelationResult * string * ChalkStyle);
  totalPairs : nat;
  significantCount : nat;
  positiveCorrelations : nat;
  negativeCorrelations : nat;
  avgCorrelation : number
}.

(** [displayCorrelationMatrix(correlations, threshold)]: the report
    ([None] when nothing reaches the threshold and the function returns
    early), and the contents of the argument array afterwards. *)
Definition displayCorrelationMatrix (sort : SortFn)
    (correlations : list CorrelationResult) (threshold : number)
    : option MatrixReport * list CorrelationResult :=
  let sortedCorrelations := sort _ byAbsCorrelation correlations in
  let significantCorrelations :=
    filter (λ c, ge (PrimFloat.abs (correlation c)) threshold)
           sortedCorrelations in
  if (length significantCorrelations =? 0)%nat
  then (None, sortedCorrelations)
  else
    (Some {| shown :=
               map (λ result,
                      (result,
                       getCorrelationStrength (correlation result),
                       getCorrelationColor (correlation result)))
                   significantCorrelations;
             totalPairs := length sortedCorrelations;
             significantCount := length significantCorrelations;
             positiveCorrelations :=
               length (filter (λ c, gt (correlation c) 0%float)
                              significantCorrelations);
             negativeCorrelations :=
               length (filter (λ c, PrimFloat.ltb (correlation c) 0%float)
                              significantCorrelations);
             avgCorrelation :=
               (reduce (λ sum c _, sum + PrimFloat.abs (correlation c))
                       significantCorrelations 0
                / of_length (length significantCorrelations))%float |},
     sortedCorrelations).

(** The rank of a strength label, from ["Very Weak"] (0) upwards. *)
Definition strengthRank (label : string) : nat :=
  if String.eqb label "Very Strong" then 4
  else if String.eqb label "Strong" then 3
  else if String.eqb label "Moderate" then 2
  else if String.eqb label "Weak" then 1
  else 0.

Definition isBold (style : ChalkStyle) : bool :=
  match style with
  | green_bold | red_bold => true
  | _ => false
  end.

Definition isGreen (style : ChalkStyle) : bool :=
  match style with
  | green_bold | green | greenBright => true
  | _ => false
  end.

(** A stable insertion sort, one sorting procedure among others. *)
Fixpoint insertBy {A : Type} (compare : A → A → number) (x : A)
    (l : list A) : list A :=
  match l with
  | [] => [x]
  | y :: rest =>
      if gt (compare x y) 0%float then y :: insertBy compare x rest
      else x :: y :: rest
  end.

Definition insertionSort : SortFn :=
  λ A compare l, foldr (insertBy compare) [] l.


(** ** Configuration (config.ts) *)

(** The environment variables [createKalshiConfig] reads. *)
Record Env := {
  KALSHI_API_KEY : option string;
  KALSHI_PRIVATE_KEY_PATH : option string;
  KALSHI_PRIVATE_KEY_PEM : option string;
  KALSHI_BASE_PATH : option string
}.

(** The object handed to the SDK's [Configuration]. *)
Record Configuration := {
  conf_apiKey : option string;
  conf_basePath : string;
  conf_privateKeyPath : option string;
  conf_privateKeyPem : option string
}.

(** Truthiness of a string that may be missing: [undefined] and the empty
    string are falsy. *)
Definition truthy_string (s : option string) : bool :=
  match s with
  | Some s => negb (String.eqb s "")
  | None => false
  end.

(** [createKalshiConfig()] *)
Definition createKalshiConfig (env : Env) : outcome Configuration :=
  let apiKey := KALSHI_API_KEY env in
  let privateKeyPath := KALSHI_PRIVATE_KEY_PATH env in
  let privateKeyPem := KALSHI_PRIVATE_KEY_PEM env in
  let basePath :=
    or_string (KALSHI_BASE_PATH env)
              "https://api.elections.kalshi.com/trade-api/v2" in
  if negb (truthy_string apiKey)
  then Thrown "KALSHI_API_KEY environment variable is required"
  else if negb (truthy_string privateKeyPath)
          && negb (truthy_string privateKeyPem)
  then Thrown ("Either KALSHI_PRIVATE_KEY_PATH or KALSHI_PRIVATE_KEY_PEM "
               +:+ "environment variable is required")
  else
    let config := {| conf_apiKey := apiKey; conf_basePath := basePath;
                     conf_privateKeyPath := None;
                     conf_privateKeyPem := None |} in
    if truthy_string privateKeyPath
    then Returned {| conf_apiKey := conf_apiKey config;
                     conf_basePath := conf_basePath config;
                     conf_privateKeyPath := privateKeyPath;
                     conf_privateKeyPem := conf_privateKeyPem config |}
    else if truthy_string privateKeyPem
    then Returned {| conf_apiKey := conf_apiKey config;
                     conf_basePath := conf_basePath config;
                     conf_privateKeyPath := conf_privateKeyPath config;
                     conf_privateKeyPem := privateKeyPem |}
    else Returned config.

(** ** Paging through the events (quickstart.ts) *)

(** One page of the events endpoint. *)
Record EventsPage := {
  page_events : option (list ApiEvent);
  page_cursor : option string
}.

(** The events endpoint, asked with a cursor: it answers with a page
    (possibly [undefined]) or throws. *)
Definition EventsApi : Type := option string → outcome (option EventsPage).

(** The [while] loop of [getEvents]. Nothing bounds the number of its
    iterations, so the model counts them down from [fuel]; [None] means
    that the loop is still running when the fuel is used up. *)
Fixpoint getEventsLoop (fuel : nat) (eventsApi : EventsApi) (limit : nat)
    (allEvents : list ApiEvent) (cursor : option string)
    : option (outcome (list ApiEvent)) :=
  if negb (length allEvents <? limit)%nat then Some (Returned allEvents)
  else
    match fuel with
    | 0 => None
    | S fuel =>
        match eventsApi cursor with
        | Thrown error => Some (Thrown error)
        | Returned data =>
            let allEvents :=
              match data ≫= page_events with
              | Some (e :: es) => allEvents ++ e :: es
              | _ => allEvents
              end in
            let cursor := data ≫= page_cursor in
            if negb (truthy_string cursor) || (limit <=? length allEvents)%nat
            then Some (Returned allEvents)
            else getEventsLoop fuel eventsApi limit allEvents cursor
        end
    end.

(** [getEvents(limit)] *)
Definition getEvents (fuel : nat) (eventsApi : EventsApi) (limit : nat)
    : option (outcome (list ApiEvent)) :=
  match getEventsLoop fuel eventsApi limit [] None with
  | Some (Returned allEvents) => Some (Returned (slice allEvents 0 limit))
  | Some (Thrown error) => Some (Thrown error)
  | None => None
  end.

(** An endpoint that serves the same page of three events for ever, and
    one that serves empty pages for ever. *)
Definition endlessApi : EventsApi :=
  λ cursor, Returned (Some {| page_events :=
                                Some (numberedEvent <$> seq 0 3);
                              page_cursor := Some "next" |}).

Definition emptyPagesApi : EventsApi :=
  λ cursor, Returned (Some {| page_events := Some [];
                              page_cursor := Some "next" |}).


(** Two records for two different pairs of markets whose tickers contain
    the bar that [deduplicateCorrelations] uses as separator. *)
Definition result_ab_c : CorrelationResult :=
  sampleResult "A|B" "C" None 0.5%float 12.

Definition result_a_bc : CorrelationResult :=
  sampleResult "A" "B|C" None 0.25%float 20.


(** * Properties *)

(** ** Loops and reductions *)

Lemma for_upto_push {A : Type} (f : nat → A) (from to : nat) (init : list A) :
  for_upto from to (λ i acc, push acc (f i)) init
  = init ++ map f (seq from (to - from)).
Proof.
  unfold for_upto. generalize (to - from) as k. intros k.
  revert from init. induction k as [|k IH]; intros from init; simpl.
  - by rewrite app_nil_r.
  - rewrite IH. unfold push. by rewrite <- app_assoc.
Qed.

Lemma for_upto_ext {S : Type} (f g : nat → S → S) (from to : nat) (s : S) :
  (∀ i st, f i st = g i st) → for_upto from to f s = for_upto from to g s.
Proof.
  intros Hfg. unfold for_upto. generalize (seq from (to - from)) as l.
  intros l. revert s. induction l as [|i l IH]; intros s; simpl; [done|].
  by rewrite Hfg, IH.
Qed.

Lemma reduce_from_noindex {A B : Type} (f : B → A → B) (i : nat)
    (arr : list A) (acc : B) :
  reduce_from (λ b a _, f b a) i arr acc = fold_left f arr acc.
Proof.
  revert i acc. induction arr as [|v rest IH]; intros i acc; simpl; [done|].
  apply IH.
Qed.

Lemma index_app_length (pre rest : list number) (b : number) :
  index (pre ++ b :: rest) (length pre) = b.
Proof.
  unfold index. rewrite lookup_app_r by lia.
  by rewrite Nat.sub_diag.
Qed.

Lemma reduce_from_products (x y pre : list number) (acc : number) :
  length x ≤ length y →
  reduce_from (λ sum xi i, sum + xi * index (pre ++ y) i)%float
              (length pre) x acc
  = fold_left PrimFloat.add (zip_with PrimFloat.mul x y) acc.
Proof.
  revert y pre acc. induction x as [|a x IH]; intros y pre acc Hlen; [done|].
  destruct y as [|b y]; simpl in Hlen; [lia|].
  simpl. rewrite index_app_length.
  specialize (IH y (pre ++ [b]) (acc + a * b)%float ltac:(lia)).
  rewrite length_app in IH. simpl in IH.
  rewrite Nat.add_1_r, <- app_assoc in IH. exact IH.
Qed.

Lemma reduce_squares (x : list number) :
  reduce (λ sum xi _, sum + xi * xi)%float x 0%float
  = spec_sum (zip_with PrimFloat.mul x x).
Proof.
  unfold reduce, spec_sum. rewrite reduce_from_noindex.
  generalize 0%float as acc. induction x as [|a x IH]; intros acc; [done|].
  simpl. apply IH.
Qed.

Lemma reduce_sum (x : list number) :
  reduce (λ a b _, a + b)%float x 0%float = spec_sum x.
Proof. unfold reduce. by rewrite reduce_from_noindex. Qed.

Lemma reduce_products (x y : list number) :
  length x = length y →
  reduce (λ sum xi i, sum + xi * index y i)%float x 0%float
  = spec_sum (zip_with PrimFloat.mul x y).
Proof.
  intros Hlen. unfold reduce, spec_sum.
  apply (reduce_from_products x y [] 0%float). lia.
Qed.

(** What [calculateCorrelation] computes, in one equation. *)
Lemma calculateCorrelation_unfold (x y : list number) :
  calculateCorrelation x y
  = if negb (length x =? length y)%nat || (length x =? 0)%nat then 0%float
    else if strict_eq (spec_denominator x y) 0 then 0%float
    else (spec_numerator x y / spec_denominator x y)%float.
Proof.
  unfold calculateCorrelation.
  destruct (length x =? length y)%nat eqn:Hlen; simpl; [|done].
  destruct (length x =? 0)%nat eqn:H0; simpl; [done|].
  apply Nat.eqb_eq in Hlen.
  unfold spec_denominator, spec_numerator.
  by rewrite !reduce_sum, !reduce_squares, (reduce_products x y Hlen).
Qed.

(** C1. [calculateCorrelation] returns
    [(n·Σxy − Σx·Σy) / sqrt((n·Σx² − (Σx)²)·(n·Σy² − (Σy)²))] when the two
    arrays have the same non-zero length [n] and that denominator is not
    [0], and returns [0] when the lengths differ, when the length is [0],
    or when the denominator is [0]. *)
Theorem calculateCorrelation_pearson (x y : list number) :
  (length x = length y → 0 < length x →
   strict_eq (spec_denominator x y) 0 = false →
   calculateCorrelation x y
   = (spec_numerator x y / spec_denominator x y)%float)
  ∧ (length x ≠ length y ∨ length x = 0
     ∨ strict_eq (spec_denominator x y) 0 = true →
     calculateCorrelation x y = 0%float).
Proof.
  rewrite calculateCorrelation_unfold. split.
  - intros Hlen Hpos Hden.
    apply Nat.eqb_eq in Hlen. rewrite Hlen. simpl.
    destruct (length x =? 0)%nat eqn:H0; [apply Nat.eqb_eq in H0; lia|].
    by rewrite Hden.
  - intros [Hne | [H0 | Hden]].
    + apply Nat.eqb_neq in Hne. by rewrite Hne.
    + apply Nat.eqb_eq in H0. rewrite H0. by rewrite orb_true_r.
    + rewrite Hden. by destruct (negb _ || _).
Qed.

Lemma calculateCorrelation_pearson_witness :
  calculateCorrelation [1; 2; 3]%float [2; 4; 7]%float
  = (spec_numerator [1; 2; 3] [2; 4; 7]
     / spec_denominator [1; 2; 3] [2; 4; 7])%float
  ∧ calculateCorrelation [1; 2]%float [1]%float = 0%float
  ∧ calculateCorrelation [3; 3; 3]%float [1; 2; 4]%float = 0%float.
Proof.
  split; [|split].
  - apply (proj1 (calculateCorrelation_pearson [1; 2; 3] [2; 4; 7])%float).
    + reflexivity.
    + simpl. lia.
    + vm_compute. reflexivity.
  - apply (proj2 (calculateCorrelation_pearson [1; 2] [1])%float).
    left. simpl. lia.
  - apply (proj2 (calculateCorrelation_pearson [3; 3; 3] [1; 2; 4])%float).
    right. right. vm_compute. reflexivity.
Defined.

(** ** Returns *)

Lemma calculateReturns_map (prices : list number) :
  calculateReturns prices
  = map (returnAt prices) (seq 1 (length prices - 1)).
Proof.
  unfold calculateReturns.
  rewrite (for_upto_ext _ (λ i acc, push acc (returnAt prices i))).
  - by rewrite for_upto_push.
  - intros i st. unfold returnAt. by destruct (strict_ne _ _).
Qed.

Lemma calculateReturns_length (prices : list number) :
  length (calculateReturns prices) = length prices - 1.
Proof. by rewrite calculateReturns_map, length_map, length_seq. Qed.

Lemma calculateReturns_lookup (prices : list number) (i : nat) (a b : number) :
  prices !! i = Some a → prices !! S i = Some b →
  calculateReturns prices !! i
  = Some (if strict_ne a 0 then ((b - a) / a)%float else 0%float).
Proof.
  intros Ha Hb. rewrite calculateReturns_map.
  apply lookup_lt_Some in Hb as Hlt.
  rewrite list_lookup_fmap, lookup_seq_lt by lia. simpl.
  unfold returnAt, index.
  replace (S i - 1) with i by lia. by rewrite Ha, Hb.
Qed.

#[local] Set Warnings "-inexact-float".

(** C6. [calculateReturns] on [n] prices gives [max(n − 1, 0)] values; the
    value for two consecutive prices [a = p[i−1]] and [b = p[i]] is
    [(b − a) / a] when [a] is not [0] and [0] when it is; and
    [returns([100, 110, 99]) = [0.1, −0.1]], [returns([0, 5]) = [0]]. *)
Theorem calculateReturns_spec (prices : list number) :
  length (calculateReturns prices) = Nat.max (length prices - 1) 0
  ∧ (∀ i a b, prices !! i = Some a → prices !! S i = Some b →
       (strict_eq a 0 = false →
        calculateReturns prices !! i = Some ((b - a) / a)%float)
       ∧ (strict_eq a 0 = true →
          calculateReturns prices !! i = Some 0%float))
  ∧ calculateReturns [100; 110; 99]%float = [0.1; -0.1]%float
  ∧ calculateReturns [0; 5]%float = [0]%float.
Proof.
  split; [|split; [|split]].
  - rewrite calculateReturns_length. lia.
  - intros i a b Ha Hb.
    rewrite (calculateReturns_lookup prices i a b Ha Hb).
    unfold strict_ne, strict_eq.
    split; intros ->; reflexivity.
  - vm_compute. reflexivity.
  - vm_compute. reflexivity.
Qed.

Lemma calculateReturns_spec_witness :
  calculateReturns [4; 5; 0; 7]%float !! 0 = Some ((5 - 4) / 4)%float
  ∧ calculateReturns [4; 5; 0; 7]%float !! 2 = Some 0%float.
Proof.
  split.
  - apply (proj1 (proj2 (calculateReturns_spec [4; 5; 0; 7]%float))
             0 4%float 5%float); reflexivity.
  - apply (proj1 (proj2 (calculateReturns_spec [4; 5; 0; 7]%float))
             2 0%float 7%float); reflexivity.
Defined.

(** ** Rolling correlation *)

Lemma calculateRollingCorrelation_map (x y : list number) (window : nat) :
  calculateRollingCorrelation x y window
  = map (λ i, calculateCorrelation (slice x (i - window) i)
                                   (slice y (i - window) i))
        (seq window (S (length x) - window)).
Proof.
  unfold calculateRollingCorrelation. by rewrite for_upto_push.
Qed.

Lemma slice_length {A : Type} (arr : list A) (start end_ : nat) :
  end_ ≤ length arr → length (slice arr start end_) = end_ - start.
Proof.
  intros Hle. unfold slice. rewrite length_take, length_drop. lia.
Qed.

(** C8. [calculateRollingCorrelation] gives [len(x) − w + 1] values when
    [len(x) ≥ w] and none otherwise; its [k]-th value is
    [calculateCorrelation] applied to the slices of [x] and of [y] that
    start at [k] and end before [k + w], which have exactly [w] elements
    when [x] and [y] have the same length. *)
Theorem calculateRollingCorrelation_spec (x y : list number) (window : nat) :
  length (calculateRollingCorrelation x y window)
  = (if (window <=? length x)%nat then length x - window + 1 else 0)
  ∧ (∀ k, k + window ≤ length x →
       calculateRollingCorrelation x y window !! k
       = Some (calculateCorrelation (slice x k (k + window))
                                    (slice y k (k + window))))
  ∧ (length x = length y → ∀ k, k + window ≤ length x →
       length (slice x k (k + window)) = window
       ∧ length (slice y k (k + window)) = window).
Proof.
  rewrite calculateRollingCorrelation_map. split; [|split].
  - rewrite length_map, length_seq.
    destruct (window <=? length x)%nat eqn:Hw.
    + apply Nat.leb_le in Hw. lia.
    + apply Nat.leb_gt in Hw. lia.
  - intros k Hk.
    rewrite list_lookup_fmap, lookup_seq_lt by lia. simpl.
    replace (window + k - window) with k by lia.
    by replace (window + k) with (k + window) by lia.
  - intros Hlen k Hk.
    rewrite !slice_length by lia. lia.
Qed.

Lemma calculateRollingCorrelation_spec_witness :
  calculateRollingCorrelation [1; 2; 4; 3]%float [2; 1; 5; 9]%float 3 !! 1
  = Some (calculateCorrelation [2; 4; 3]%float [1; 5; 9]%float)
  ∧ length (slice [1; 2; 4; 3]%float 1 (1 + 3)) = 3.
Proof.
  split.
  - apply (proj1 (proj2 (calculateRollingCorrelation_spec
                           [1; 2; 4; 3]%float [2; 1; 5; 9]%float 3)) 1).
    simpl. lia.
  - apply (proj2 (proj2 (calculateRollingCorrelation_spec
                           [1; 2; 4; 3]%float [2; 1; 5; 9]%float 3))
             eq_refl 1).
    simpl. lia.
Defined.

(** ** Alignment *)

Lemma lookupTable_from (closePrices1 : list number) (tss : list Z) (i : nat)
    (m0 : gmap Z number) (ts : Z) (p : number) :
  reduce_from (λ m ts i, <[ts := index closePrices1 i]> m) i tss m0 !! ts
  = Some p →
  m0 !! ts = Some p
  ∨ ∃ j, tss !! j = Some ts ∧ p = index closePrices1 (i + j).
Proof.
  revert i m0. induction tss as [|t tss IH]; intros i m0 H; simpl in H.
  - by left.
  - apply IH in H as [H | (j & Hj & ->)].
    + destruct (decide (t = ts)) as [->|Hne].
      * rewrite lookup_insert_eq in H. injection H as <-.
        right. exists 0. by rewrite Nat.add_0_r.
      * rewrite lookup_insert_ne in H by done. by left.
    + right. exists (S j). split; [done|]. f_equal. lia.
Qed.

Lemma lookupTable_from_is_Some (closePrices1 : list number) (tss : list Z)
    (i : nat) (m0 : gmap Z number) (ts : Z) :
  is_Some (reduce_from (λ m ts i, <[ts := index closePrices1 i]> m)
                       i tss m0 !! ts)
  ↔ is_Some (m0 !! ts) ∨ ts ∈ tss.
Proof.
  revert i m0. induction tss as [|t tss IH]; intros i m0; simpl.
  - rewrite elem_of_nil. tauto.
  - rewrite IH, elem_of_cons, lookup_insert_is_Some.
    destruct (decide (t = ts)); intuition (auto; congruence).
Qed.

Lemma lookupTable_Some (series1 : TimeSeriesData) (ts : Z) (p : number) :
  lookupTable series1 !! ts = Some p →
  ∃ i, timestamps series1 !! i = Some ts ∧ p = index (closePrices series1) i.
Proof.
  intros H. apply lookupTable_from in H as [H | H]; [|done].
  by rewrite lookup_empty in H.
Qed.

Lemma lookupTable_is_Some (series1 : TimeSeriesData) (ts : Z) :
  is_Some (lookupTable series1 !! ts) ↔ ts ∈ timestamps series1.
Proof.
  unfold lookupTable, reduce. rewrite lookupTable_from_is_Some.
  rewrite lookup_empty. split; [intros [[? [=]]|]; done | by right].
Qed.

Lemma scan_rows (table : gmap Z number) (closePrices2 : list number)
    (tss : list Z) (i : nat) (ts0 : list Z) (p1 p2 : list number) :
  reduce_from
    (λ '(timestamps, prices1, prices2) ts i,
       match table !! ts with
       | Some p =>
           (push timestamps ts, push prices1 p,
            push prices2 (index closePrices2 i))
       | None => (timestamps, prices1, prices2)
       end)
    i tss (ts0, p1, p2)
  = (ts0 ++ (alignedRows table closePrices2 i tss).*1.*1,
     p1 ++ (alignedRows table closePrices2 i tss).*1.*2,
     p2 ++ (alignedRows table closePrices2 i tss).*2).
Proof.
  revert i ts0 p1 p2.
  induction tss as [|ts tss IH]; intros i ts0 p1 p2; simpl.
  - by rewrite !app_nil_r.
  - destruct (table !! ts) as [p|]; rewrite IH; [|done].
    unfold push. simpl. by rewrite <- !app_assoc.
Qed.

Lemma alignedRows_timestamps (table : gmap Z number)
    (closePrices2 : list number) (i : nat) (tss : list Z) :
  (alignedRows table closePrices2 i tss).*1.*1
  = filter (λ ts, is_Some (table !! ts)) tss.
Proof.
  revert i. induction tss as [|ts tss IH]; intros i; simpl; [done|].
  rewrite filter_cons. destruct (table !! ts) as [p|] eqn:Hts.
  - rewrite decide_True by eauto. simpl. by rewrite IH.
  - rewrite decide_False by (by intros [? [=]]). apply IH.
Qed.

Lemma alignedRows_lookup (table : gmap Z number) (closePrices2 : list number)
    (i : nat) (tss : list Z) (k : nat) (ts : Z) (a b : number) :
  alignedRows table closePrices2 i tss !! k = Some (ts, a, b) →
  table !! ts = Some a
  ∧ ∃ j, tss !! j = Some ts ∧ b = index closePrices2 (i + j).
Proof.
  revert i k. induction tss as [|t tss IH]; intros i k H; simpl in H; [done|].
  destruct (table !! t) as [p|] eqn:Ht.
  - destruct k as [|k]; simpl in H.
    + injection H as -> -> <-. split; [done|].
      exists 0. by rewrite Nat.add_0_r.
    + apply IH in H as (Ha & j & Hj & ->). split; [done|].
      exists (S j). split; [done|]. f_equal. lia.
  - apply IH in H as (Ha & j & Hj & ->). split; [done|].
    exists (S j). split; [done|]. f_equal. lia.
Qed.

(** What [alignTimeSeries] computes, in terms of the rows of the scan. *)
Lemma alignTimeSeries_rows (series1 series2 : TimeSeriesData) :
  let rows := alignedRows (lookupTable series1) (closePrices series2) 0
                          (timestamps series2) in
  alignTimeSeries series1 series2
  = if (length rows <? 3)%nat then None
    else Some {| prices1 := rows.*1.*2; prices2 := rows.*2;
                 aligned_timestamps := rows.*1.*1 |}.
Proof.
  unfold alignTimeSeries. fold (lookupTable series1).
  unfold reduce at 1. rewrite scan_rows. simpl.
  by rewrite !length_fmap.
Qed.

Lemma overlap_rows (series1 series2 : TimeSeriesData) :
  (alignedRows (lookupTable series1) (closePrices series2) 0
               (timestamps series2)).*1.*1
  = overlap series1 series2.
Proof.
  rewrite alignedRows_timestamps. unfold overlap.
  apply list_filter_iff. intros ts. apply lookupTable_is_Some.
Qed.

Lemma alignedRows_length (series1 series2 : TimeSeriesData) :
  length (alignedRows (lookupTable series1) (closePrices series2) 0
                      (timestamps series2))
  = length (overlap series1 series2).
Proof. by rewrite <- overlap_rows, !length_fmap. Qed.

(** C3, as the source has it: on the timestamps [1,2,3] and [2,3,4] only
    two timestamps are shared, which is below the minimum of three, and
    [alignTimeSeries] returns [null] instead of the timestamps [2,3]. *)
Lemma alignTimeSeries_two_shared_is_null :
  timestamps series_123 = [1; 2; 3]%Z
  ∧ timestamps series_234 = [2; 3; 4]%Z
  ∧ alignTimeSeries series_123 series_234 = None
  ∧ ¬ ∃ a, alignTimeSeries series_123 series_234 = Some a
           ∧ aligned_timestamps a = [2; 3]%Z.
Proof.
  split; [reflexivity|]. split; [reflexivity|].
  assert (alignTimeSeries series_123 series_234 = None) as H
    by (vm_compute; reflexivity).
  split; [exact H|]. intros (a & Ha & _). congruence.
Qed.

(** C3, amended. [alignTimeSeries] returns [null] when fewer than three
    timestamps of the second series occur in the first. Otherwise its
    timestamps are exactly the timestamps of the second series that occur
    in the first, in the second series' order, the three arrays have the
    same length, and position [k] holds a price of the first series and a
    price of the second series recorded at the timestamp of position [k].
    On [1,2,3] and [2,3,4] it returns [null]; on [1,2,3,4] and [2,3,4,5]
    it returns the timestamps [2,3,4] with the prices paired. *)
Theorem alignTimeSeries_spec (series1 series2 : TimeSeriesData) :
  (length (filter (λ ts, ts ∈ timestamps series1) (timestamps series2)) < 3 →
   alignTimeSeries series1 series2 = None)
  ∧ (3 ≤ length (filter (λ ts, ts ∈ timestamps series1)
                        (timestamps series2)) →
     ∃ a, alignTimeSeries series1 series2 = Some a
          ∧ aligned_timestamps a
            = filter (λ ts, ts ∈ timestamps series1) (timestamps series2)
          ∧ length (prices1 a) = length (aligned_timestamps a)
          ∧ length (prices2 a) = length (aligned_timestamps a)
          ∧ ∀ k ts, aligned_timestamps a !! k = Some ts →
              ∃ i j, timestamps series1 !! i = Some ts
                     ∧ timestamps series2 !! j = Some ts
                     ∧ prices1 a !! k = Some (index (closePrices series1) i)
                     ∧ prices2 a !! k = Some (index (closePrices series2) j))
  ∧ alignTimeSeries series_123 series_234 = None
  ∧ alignTimeSeries series_1234 series_2345
    = Some {| prices1 := [0.25; 0.75; 1]%float;
              prices2 := [0.125; 0.375; 0.625]%float;
              aligned_timestamps := [2; 3; 4]%Z |}.
Proof.
  fold (overlap series1 series2).
  pose proof (alignTimeSeries_rows series1 series2) as Hrows.
  pose proof (alignedRows_length series1 series2) as Hlen.
  pose proof (overlap_rows series1 series2) as Hov.
  simpl in Hrows.
  set (rows := alignedRows (lookupTable series1) (closePrices series2) 0
                           (timestamps series2)) in *.
  split; [|split; [|split]].
  - intros Hlt. rewrite Hrows.
    destruct (length rows <? 3)%nat eqn:E; [done|].
    apply Nat.ltb_ge in E. lia.
  - intros Hge. rewrite Hrows.
    destruct (length rows <? 3)%nat eqn:E; [apply Nat.ltb_lt in E; lia|].
    eexists. split; [reflexivity|]. simpl.
    split; [done|]. rewrite !length_fmap. split; [done|]. split; [done|].
    intros k ts Hk.
    rewrite !list_lookup_fmap in Hk.
    destruct (rows !! k) as [[[ts' a] b]|] eqn:Hrow; simpl in Hk; [|done].
    injection Hk as ->.
    apply alignedRows_lookup in Hrow as Hrow'.
    destruct Hrow' as (Ha & j & Hj & ->).
    apply lookupTable_Some in Ha as (i & Hi & ->).
    exists i, j. rewrite !list_lookup_fmap, Hrow. done.
  - vm_compute. reflexivity.
  - vm_compute. reflexivity.
Qed.

Lemma alignTimeSeries_spec_witness :
  alignTimeSeries series_123 series_234 = None
  ∧ ∃ a, alignTimeSeries series_1234 series_2345 = Some a
         ∧ aligned_timestamps a = [2; 3; 4]%Z.
Proof.
  split.
  - apply (proj1 (alignTimeSeries_spec series_123 series_234)).
    vm_compute. lia.
  - destruct (proj1 (proj2 (alignTimeSeries_spec series_1234 series_2345)))
      as (a & Ha & Hts & _).
    + vm_compute. lia.
    + exists a. split; [exact Ha|]. rewrite Hts. vm_compute. reflexivity.
Defined.

(** ** The pair loops *)

Lemma fold_left_bind {A B S : Type} (f : S → B → S) (g : A → list B)
    (l : list A) (s : S) :
  fold_left f (l ≫= g) s = fold_left (λ s x, fold_left f (g x) s) l s.
Proof.
  revert s. induction l as [|x l IH]; intros s; [done|].
  change ((x :: l) ≫= g) with (g x ++ (l ≫= g)).
  rewrite fold_left_app. apply IH.
Qed.

Lemma fold_left_fmap {A B S : Type} (f : S → B → S) (g : A → B)
    (l : list A) (s : S) :
  fold_left f (g <$> l) s = fold_left (λ s x, f s (g x)) l s.
Proof. revert s. induction l as [|x l IH]; intros s; [done|]. apply IH. Qed.

Lemma fold_left_pointwise {A S : Type} (f g : S → A → S) (l : list A) (s : S) :
  (∀ s x, f s x = g s x) → fold_left f l s = fold_left g l s.
Proof.
  intros Hfg. revert s. induction l as [|x l IH]; intros s; [done|].
  simpl. by rewrite Hfg, IH.
Qed.

Lemma pairwiseCorrelations_pairs (tsd : list TimeSeriesData) :
  pairwiseCorrelations tsd
  = fold_left (λ st ij, pairAt tsd ij st) (indexPairs (length tsd)) ([], 0).
Proof.
  unfold pairwiseCorrelations, indexPairs, for_upto.
  rewrite fold_left_bind.
  apply fold_left_pointwise. intros st i.
  by rewrite fold_left_fmap.
Qed.

Lemma elem_of_indexPairs (n i j : nat) :
  (i, j) ∈ indexPairs n ↔ i < j < n.
Proof.
  unfold indexPairs. rewrite list_elem_of_bind. split.
  - intros (i' & Hij & Hi').
    apply list_elem_of_fmap in Hij as (j' & [= -> ->] & Hj').
    apply elem_of_seq in Hi'. apply elem_of_seq in Hj'. lia.
  - intros Hij. exists i. split.
    + apply list_elem_of_fmap. exists j. split; [done|].
      apply elem_of_seq. lia.
    + apply elem_of_seq. lia.
Qed.

Lemma NoDup_indexPairs (n : nat) : NoDup (indexPairs n).
Proof.
  unfold indexPairs. apply NoDup_bind.
  - intros i1 i2 [i j] _ _ H1 H2.
    apply list_elem_of_fmap in H1 as (? & [= -> ->] & _).
    by apply list_elem_of_fmap in H2 as (? & [= -> ->] & _).
  - intros i _. apply NoDup_fmap; [|apply NoDup_seq].
    by intros ?? [=].
  - apply NoDup_seq.
Qed.

Lemma pairBody_acc (series1 series2 : TimeSeriesData)
    (cs : list CorrelationResult) (k : nat) :
  pairBody series1 series2 (cs, k)
  = (cs ++ emitted series1 series2, k + skipped series1 series2).
Proof.
  unfold emitted, skipped, pairBody, push.
  destruct (String.eqb _ _).
  { simpl. by rewrite app_nil_r, Nat.add_1_r. }
  destruct (alignTimeSeries series1 series2) as [a|];
    [|by simpl; rewrite app_nil_r, Nat.add_0_r].
  destruct (length (aligned_timestamps a) <? 10)%nat;
    [by simpl; rewrite app_nil_r, Nat.add_0_r|].
  destruct (_ && _); simpl.
  - by rewrite Nat.add_0_r.
  - by rewrite app_nil_r, Nat.add_0_r.
Qed.

Lemma fold_pairAt (tsd : list TimeSeriesData) (pairs : list (nat * nat))
    (cs : list CorrelationResult) (k : nat) :
  fold_left (λ st ij, pairAt tsd ij st) pairs (cs, k)
  = (cs ++ (pairs ≫= emittedAt tsd), k + sum_list (skippedAt tsd <$> pairs)).
Proof.
  revert cs k. induction pairs as [|ij pairs IH]; intros cs k.
  - simpl. by rewrite app_nil_r, Nat.add_0_r.
  - simpl fold_left. rewrite bind_cons, fmap_cons. simpl sum_list.
    unfold pairAt at 2, emittedAt at 1, skippedAt at 1.
    destruct (tsd !! ij.1) as [series1|], (tsd !! ij.2) as [series2|];
      rewrite ?pairBody_acc, IH; simpl;
      rewrite ?app_assoc, ?Nat.add_assoc, ?app_nil_r, ?Nat.add_0_r; done.
Qed.

Lemma alignTimeSeries_lengths (series1 series2 : TimeSeriesData)
    (a : Aligned) :
  alignTimeSeries series1 series2 = Some a →
  length (prices1 a) = length (aligned_timestamps a)
  ∧ length (prices2 a) = length (aligned_timestamps a)
  ∧ 3 ≤ length (aligned_timestamps a).
Proof.
  rewrite alignTimeSeries_rows. simpl.
  destruct (_ <? 3)%nat eqn:E; [done|]. intros [= <-]. simpl.
  apply Nat.ltb_ge in E. rewrite !length_fmap. done.
Qed.

(** The record the loop body builds from an alignment. *)
Lemma emitted_unfold (series1 series2 : TimeSeriesData) :
  emitted series1 series2
  = if String.eqb (eventTicker series1) (eventTicker series2) then []
    else
      match alignTimeSeries series1 series2 with
      | None => []
      | Some a =>
          if (length (aligned_timestamps a) <? 10)%nat then []
          else if (0 <? length (calculateReturns (prices1 a)))%nat
                  && (0 <? length (calculateReturns (prices2 a)))%nat
          then [ {| market1 := marketTicker series1;
                    market2 := marketTicker series2;
                    event1Title := eventTitle series1;
                    event2Title := eventTitle series2;
                    correlation :=
                      calculateCorrelation (calculateReturns (prices1 a))
                                           (calculateReturns (prices2 a));
                    pValue := None;
                    dataPoints := length (aligned_timestamps a) |} ]
          else []
      end.
Proof.
  unfold emitted, pairBody.
  destruct (String.eqb _ _); [done|].
  destruct (alignTimeSeries series1 series2) as [a|]; [|done].
  destruct (_ <? 10)%nat; [done|].
  by destruct (_ && _).
Qed.

Lemma skipped_unfold (series1 series2 : TimeSeriesData) :
  skipped series1 series2
  = if String.eqb (eventTicker series1) (eventTicker series2) then 1 else 0.
Proof.
  unfold skipped, pairBody.
  destruct (String.eqb _ _); [done|].
  destruct (alignTimeSeries series1 series2) as [a|]; [|done].
  destruct (_ <? 10)%nat; [done|].
  by destruct (_ && _).
Qed.

Lemma returns_nonempty (series1 series2 : TimeSeriesData) (a : Aligned) :
  alignTimeSeries series1 series2 = Some a →
  10 ≤ length (aligned_timestamps a) →
  (0 <? length (calculateReturns (prices1 a)))%nat
  && (0 <? length (calculateReturns (prices2 a)))%nat = true.
Proof.
  intros Ha Hten.
  apply alignTimeSeries_lengths in Ha as (H1 & H2 & _).
  rewrite !calculateReturns_length, H1, H2.
  apply andb_true_iff. split; apply Nat.ltb_lt; lia.
Qed.

(** C10. For a pair whose alignment has at least ten samples, both returns
    sequences have [aligned_count − 1 ≥ 9] elements, so the test that both
    are non-empty succeeds, and a pair of different events that reaches
    the returns computation adds one record. *)
Theorem returns_guard_never_fires (series1 series2 : TimeSeriesData)
    (a : Aligned) :
  alignTimeSeries series1 series2 = Some a →
  10 ≤ length (aligned_timestamps a) →
  length (calculateReturns (prices1 a)) = length (aligned_timestamps a) - 1
  ∧ length (calculateReturns (prices2 a)) = length (aligned_timestamps a) - 1
  ∧ 9 ≤ length (aligned_timestamps a) - 1
  ∧ (0 <? length (calculateReturns (prices1 a)))%nat
    && (0 <? length (calculateReturns (prices2 a)))%nat = true
  ∧ (eventTicker series1 ≠ eventTicker series2 →
     ∃ r, ∀ cs k, pairBody series1 series2 (cs, k) = (push cs r, k)).
Proof.
  intros Ha Hten.
  pose proof (returns_nonempty _ _ _ Ha Hten) as Hguard.
  pose proof (alignTimeSeries_lengths _ _ _ Ha) as (H1 & H2 & _).
  rewrite !calculateReturns_length, H1, H2.
  split; [done|]. split; [done|]. split; [lia|].
  rewrite !calculateReturns_length, H1, H2 in Hguard.
  split; [done|].
  intros Hne. apply String.eqb_neq in Hne.
  eexists. intros cs k. rewrite pairBody_acc, emitted_unfold, skipped_unfold.
  rewrite Hne, Ha.
  destruct (_ <? 10)%nat eqn:E; [apply Nat.ltb_lt in E; lia|].
  rewrite !calculateReturns_length, H1, H2, Hguard.
  rewrite Nat.add_0_r. reflexivity.
Qed.

Lemma returns_guard_never_fires_witness :
  ∃ a, alignTimeSeries series_ten_a series_ten_b = Some a
       ∧ length (calculateReturns (prices1 a)) = 9
       ∧ ∃ r, pairBody series_ten_a series_ten_b ([], 0) = ([r], 0).
Proof.
  destruct (alignTimeSeries series_ten_a series_ten_b) as [a|] eqn:Ha;
    [|vm_compute in Ha; discriminate Ha].
  assert (length (aligned_timestamps a) = 10) as Hlen.
  { vm_compute in Ha. injection Ha as <-. reflexivity. }
  destruct (returns_guard_never_fires series_ten_a series_ten_b a Ha)
    as (H1 & _ & _ & _ & Hr).
  - lia.
  - exists a. split; [reflexivity|]. split; [lia|].
    destruct Hr as [r Hr]; [vm_compute; congruence|].
    exists r. apply (Hr [] 0).
Defined.

(** ** The fetch loop *)

Lemma fetchMarketTimeSeries_returns (kalshi : KalshiClient)
    (eventTicker marketTicker title : string) (startTs endTs : Z)
    (periodInterval : string) (eventTitle : option string) :
  ∃ series,
    fetchMarketTimeSeries kalshi eventTicker marketTicker title startTs endTs
                          periodInterval eventTitle
    = Returned series.
Proof.
  unfold fetchMarketTimeSeries.
  destruct (kalshi _) as [[r|]|e]; simpl; [|by eexists..].
  destruct (candlesticks r) as [raw|]; simpl; [|by eexists].
  destruct (length raw =? 0)%nat; simpl; [by eexists|].
  destruct (fold_left _ _ _) as [[tss cps] vols].
  destruct (length cps =? 0)%nat; by eexists.
Qed.

Lemma fetchMarketTimeSeries_fetched (kalshi : KalshiClient)
    (startTs endTs : Z) (periodInterval : string) (market : MarketRef) :
  fetchMarketTimeSeries kalshi (m_eventTicker market) (m_marketTicker market)
    (m_title market) startTs endTs periodInterval (m_eventTitle market)
  = Returned (fetchedSeries kalshi startTs endTs periodInterval market).
Proof.
  unfold fetchedSeries.
  destruct (fetchMarketTimeSeries_returns kalshi (m_eventTicker market)
              (m_marketTicker market) (m_title market) startTs endTs
              periodInterval (m_eventTitle market)) as [series ->].
  done.
Qed.

Lemma fetch_loop (kalshi : KalshiClient) (startTs endTs : Z)
    (periodInterval : string) (markets : list MarketRef)
    (acc : list TimeSeriesData) :
  for_of (λ market timeSeriesData,
            series ← fetchMarketTimeSeries kalshi
                       (m_eventTicker market) (m_marketTicker market)
                       (m_title market) startTs endTs periodInterval
                       (m_eventTitle market);
            match series with
            | Some series => mret (push timeSeriesData series)
            | None => mret timeSeriesData
            end)
         markets acc
  = Returned
      (acc ++ omap (fetchedSeries kalshi startTs endTs periodInterval) markets).
Proof.
  revert acc. induction markets as [|market markets IH]; intros acc; simpl.
  - by rewrite app_nil_r.
  - rewrite fetchMarketTimeSeries_fetched. simpl.
    destruct (fetchedSeries _ _ _ _ market) as [series|]; simpl.
    + rewrite IH. unfold push. by rewrite <- app_assoc.
    + apply IH.
Qed.

Lemma analyzeMultipleMarkets_returns (kalshi : KalshiClient)
    (markets : list MarketRef) (startTs endTs : Z) (periodInterval : string) :
  analyzeMultipleMarkets kalshi markets startTs endTs periodInterval
  = Returned
      (fst (pairwiseCorrelations
              (omap (fetchedSeries kalshi startTs endTs periodInterval)
                    markets))).
Proof. unfold analyzeMultipleMarkets. by rewrite fetch_loop. Qed.

(** C2. On the fetched series, the loops of [analyzeMultipleMarkets] reach
    every pair [(i, j)] with [i < j] once, and the result is what the
    pairs add in that order. A pair adds at most one record, and adds one
    exactly when the two event tickers differ, the alignment succeeds
    with at least ten samples, and both returns sequences are non-empty;
    pairs of the same event are counted. The record carries the aligned
    sample count [n] and the Pearson correlation of the two returns
    sequences, not of the prices: with [returns1] and [returns2] the
    [n − 1] relative changes [(p[k] − p[k−1]) / p[k−1]] of the aligned
    prices ([0] where [p[k−1]] is [0]), which is what the returns of any
    aligned pair are, the correlation is
    [(m·Σxy − Σx·Σy) / sqrt((m·Σx² − (Σx)²)·(m·Σy² − (Σy)²))] over
    [x = returns1], [y = returns2], [m = n − 1], and [0] when that
    denominator is [0]. [analyzeMultipleMarkets] returns the records of
    these loops on the series it fetched. *)
Theorem pairwiseCorrelations_spec (tsd : list TimeSeriesData) :
  NoDup (indexPairs (length tsd))
  ∧ (∀ i j, (i, j) ∈ indexPairs (length tsd) ↔ i < j < length tsd)
  ∧ fst (pairwiseCorrelations tsd) = indexPairs (length tsd) ≫= emittedAt tsd
  ∧ snd (pairwiseCorrelations tsd)
    = sum_list (skippedAt tsd <$> indexPairs (length tsd))
  ∧ (∀ i j series1 series2,
      tsd !! i = Some series1 → tsd !! j = Some series2 →
      emittedAt tsd (i, j) = emitted series1 series2
      ∧ (∀ a, alignTimeSeries series1 series2 = Some a →
           calculateReturns (prices1 a)
           = map (returnAt (prices1 a))
                 (seq 1 (length (aligned_timestamps a) - 1))
           ∧ calculateReturns (prices2 a)
             = map (returnAt (prices2 a))
                   (seq 1 (length (aligned_timestamps a) - 1)))
      ∧ skippedAt tsd (i, j)
        = (if decide (eventTicker series1 = eventTicker series2)
           then 1 else 0)
      ∧ length (emitted series1 series2) ≤ 1
      ∧ ((∃ r, emitted series1 series2 = [r])
         ↔ eventTicker series1 ≠ eventTicker series2
           ∧ ∃ a, alignTimeSeries series1 series2 = Some a
                  ∧ 10 ≤ length (aligned_timestamps a)
                  ∧ calculateReturns (prices1 a) ≠ []
                  ∧ calculateReturns (prices2 a) ≠ [])
      ∧ ∀ r, r ∈ emitted series1 series2 →
          ∃ a, alignTimeSeries series1 series2 = Some a
               ∧ correlation r
                 = calculateCorrelation (calculateReturns (prices1 a))
                                        (calculateReturns (prices2 a))
               ∧ dataPoints r = length (aligned_timestamps a)
               ∧ market1 r = marketTicker series1
               ∧ market2 r = marketTicker series2
               ∧ ∃ returns1 returns2,
                   returns1 = map (returnAt (prices1 a))
                                  (seq 1 (length (prices1 a) - 1))
                   ∧ returns2 = map (returnAt (prices2 a))
                                    (seq 1 (length (prices2 a) - 1))
                   ∧ calculateReturns (prices1 a) = returns1
                   ∧ calculateReturns (prices2 a) = returns2
                   ∧ length returns1 = dataPoints r - 1
                   ∧ length returns2 = dataPoints r - 1
                   ∧ correlation r
                     = if strict_eq (spec_denominator returns1 returns2) 0
                       then 0%float
                       else (spec_numerator returns1 returns2
                             / spec_denominator returns1 returns2)%float)
  ∧ ∀ kalshi markets startTs endTs periodInterval,
      omap (fetchedSeries kalshi startTs endTs periodInterval) markets = tsd →
      analyzeMultipleMarkets kalshi markets startTs endTs periodInterval
      = Returned (fst (pairwiseCorrelations tsd)).
Proof.
  split; [apply NoDup_indexPairs|].
  split; [intros i j; apply elem_of_indexPairs|].
  split; [by rewrite pairwiseCorrelations_pairs, fold_pairAt|].
  split; [by rewrite pairwiseCorrelations_pairs, fold_pairAt|].
  split;
    [|intros kalshi markets startTs endTs periodInterval <-;
      apply analyzeMultipleMarkets_returns].
  intros i j series1 series2 Hi Hj.
  unfold emittedAt, skippedAt. simpl. rewrite Hi, Hj.
  split; [done|].
  split.
  { intros a Ha. apply alignTimeSeries_lengths in Ha as (H1 & H2 & _).
    by rewrite !calculateReturns_map, H1, H2. }
  rewrite skipped_unfold, emitted_unfold.
  split.
  { destruct (String.eqb_spec (eventTicker series1) (eventTicker series2));
      [rewrite decide_True | rewrite decide_False]; done. }
  destruct (String.eqb_spec (eventTicker series1) (eventTicker series2))
    as [Heq|Hne].
  { split; [simpl; lia|]. split.
    - split; [intros [r [=]] | intros [? _]; done].
    - intros r Hr. by apply elem_of_nil in Hr. }
  destruct (alignTimeSeries series1 series2) as [a|] eqn:Ha.
  2:{ split; [simpl; lia|]. split.
      - split; [intros [r [=]] | intros (_ & a & [=] & _)].
      - intros r Hr. by apply elem_of_nil in Hr. }
  destruct (length (aligned_timestamps a) <? 10)%nat eqn:Hten.
  { apply Nat.ltb_lt in Hten. split; [simpl; lia|]. split.
    - split; [intros [r [=]] | intros (_ & a' & [= <-] & ? & _); lia].
    - intros r Hr. by apply elem_of_nil in Hr. }
  apply Nat.ltb_ge in Hten.
  rewrite (returns_nonempty _ _ _ Ha Hten).
  pose proof (alignTimeSeries_lengths _ _ _ Ha) as (H1 & H2 & _).
  split; [simpl; lia|]. split.
  - split; [|eauto]. intros _. split; [done|].
    exists a. split; [done|]. split; [done|].
    split; intros Hnil; apply (f_equal length) in Hnil;
      rewrite calculateReturns_length in Hnil; simpl in Hnil; lia.
  - intros r Hr. apply list_elem_of_singleton in Hr as ->.
    exists a. cbn [correlation dataPoints market1 market2].
    do 5 (split; [done|]).
    eexists _, _. split; [reflexivity|]. split; [reflexivity|].
    rewrite <- !calculateReturns_map.
    do 2 (split; [done|]).
    rewrite calculateCorrelation_unfold, !calculateReturns_length, H1, H2.
    do 2 (split; [done|]).
    rewrite Nat.eqb_refl.
    by rewrite (proj2 (Nat.eqb_neq _ 0)) by lia.
Qed.

Lemma pairwiseCorrelations_spec_witness :
  ∃ r, fst (pairwiseCorrelations [series_ten_a; series_ten_b]) = [r]
       ∧ dataPoints r = 10
       ∧ market1 r = "MKT-A" ∧ market2 r = "MKT-B"
       ∧ correlation r
         = (spec_numerator
              (map (returnAt (closePrices series_ten_a)) (seq 1 9))
              (map (returnAt (closePrices series_ten_b)) (seq 1 9))
            / spec_denominator
                (map (returnAt (closePrices series_ten_a)) (seq 1 9))
                (map (returnAt (closePrices series_ten_b)) (seq 1 9)))%float
       ∧ strict_eq (correlation r)
           (calculateCorrelation (closePrices series_ten_a)
                                 (closePrices series_ten_b))
         = false.
Proof.
  destruct (pairwiseCorrelations_spec [series_ten_a; series_ten_b])
    as (_ & _ & Hout & _ & Hpair & _).
  destruct (Hpair 0 1 series_ten_a series_ten_b eq_refl eq_refl)
    as (_ & _ & _ & _ & Hiff & Hrec).
  destruct (proj2 Hiff) as [r Hr].
  - split; [vm_compute; congruence|].
    eexists. split; [vm_compute; reflexivity|].
    split; [simpl; lia|].
    split; vm_compute; congruence.
  - exists r. split.
    + rewrite Hout. change (emitted series_ten_a series_ten_b ++ [] = [r]).
      by rewrite app_nil_r.
    + destruct (Hrec r)
        as (a & Ha & _ & Hdp & Hm1 & Hm2 & returns1 & returns2
            & -> & -> & _ & _ & _ & _ & Hcorr).
      * rewrite Hr. apply list_elem_of_singleton. reflexivity.
      * rewrite Hdp, Hm1, Hm2, Hcorr. vm_compute in Ha. injection Ha as <-.
        repeat split; vm_compute; reflexivity.
Defined.

(** ** Failing fetches *)

(** C7. When the client throws on the request for one market, that
    market's fetch returns [null], the batch call returns (it does not
    throw), and its result is the result of the same call without that
    market: the pairs of the remaining markets, and no other. *)
Theorem fetch_failure_drops_one_market (kalshi : KalshiClient)
    (before after : list MarketRef) (market : MarketRef)
    (startTs endTs : Z) (periodInterval error : string) :
  kalshi (requestFor market startTs endTs periodInterval) = Thrown error →
  fetchMarketTimeSeries kalshi (m_eventTicker market) (m_marketTicker market)
    (m_title market) startTs endTs periodInterval (m_eventTitle market)
  = Returned None
  ∧ analyzeMultipleMarkets kalshi (before ++ market :: after)
      startTs endTs periodInterval
    = Returned
        (fst (pairwiseCorrelations
                (omap (fetchedSeries kalshi startTs endTs periodInterval)
                      (before ++ after))))
  ∧ analyzeMultipleMarkets kalshi (before ++ market :: after)
      startTs endTs periodInterval
    = analyzeMultipleMarkets kalshi (before ++ after)
        startTs endTs periodInterval.
Proof.
  intros Hthrow.
  assert (fetchMarketTimeSeries kalshi (m_eventTicker market)
            (m_marketTicker market) (m_title market) startTs endTs
            periodInterval (m_eventTitle market) = Returned None) as Hnull.
  { unfold fetchMarketTimeSeries. unfold requestFor in Hthrow.
    by rewrite Hthrow. }
  assert (fetchedSeries kalshi startTs endTs periodInterval market = None)
    as Hnone by (unfold fetchedSeries; by rewrite Hnull).
  split; [done|].
  rewrite !analyzeMultipleMarkets_returns, !omap_app. simpl.
  by rewrite Hnone.
Qed.

Lemma fetch_failure_drops_one_market_witness :
  analyzeMultipleMarkets flakyClient
    [sampleMarket "EVT-A" "MKT-A"; sampleMarket "EVT-X" "MKT-X";
     sampleMarket "EVT-B" "MKT-B"] 0 100 "60"
  = analyzeMultipleMarkets flakyClient
      [sampleMarket "EVT-A" "MKT-A"; sampleMarket "EVT-B" "MKT-B"] 0 100 "60"
  ∧ ∃ r, analyzeMultipleMarkets flakyClient
           [sampleMarket "EVT-A" "MKT-A"; sampleMarket "EVT-X" "MKT-X";
            sampleMarket "EVT-B" "MKT-B"] 0 100 "60"
         = Returned [r]
         ∧ market1 r = "MKT-A" ∧ market2 r = "MKT-B" ∧ dataPoints r = 10.
Proof.
  destruct (fetch_failure_drops_one_market flakyClient
              [sampleMarket "EVT-A" "MKT-A"] [sampleMarket "EVT-B" "MKT-B"]
              (sampleMarket "EVT-X" "MKT-X") 0 100 "60" "socket hang up")
    as (_ & Hres & Hsame).
  - reflexivity.
  - split; [exact Hsame|].
    simpl app in Hres. rewrite Hres.
    eexists. split; [vm_compute; reflexivity|].
    repeat split.
Defined.

(** ** Windows *)

Lemma first_window (allMarkets : list MarketRef) :
  (if (WINDOW_SIZE <=? length allMarkets)%nat
   then slice allMarkets 0 WINDOW_SIZE else allMarkets)
  = take WINDOW_SIZE allMarkets.
Proof.
  unfold slice. rewrite Nat.sub_0_r, drop_0.
  destruct (Nat.leb_spec WINDOW_SIZE (length allMarkets)); [done|].
  rewrite take_ge; [done|lia].
Qed.

Lemma second_window (allMarkets : list MarketRef) :
  WINDOW_SIZE + 2 ≤ length allMarkets →
  slice allMarkets WINDOW_SIZE
        (Nat.min (WINDOW_SIZE * 2) (length allMarkets))
  = take WINDOW_SIZE (drop WINDOW_SIZE allMarkets).
Proof.
  intros Hlen. unfold slice.
  destruct (Nat.le_ge_cases (length allMarkets) (WINDOW_SIZE * 2)).
  - rewrite !take_ge; [done|rewrite length_drop; lia..].
  - f_equal. lia.
Qed.

Lemma second_window_test (allMarkets : list MarketRef) :
  (WINDOW_SIZE <? length allMarkets)%nat
  && (2 <=? length (slice allMarkets WINDOW_SIZE
                      (Nat.min (WINDOW_SIZE * 2) (length allMarkets))))%nat
  = (WINDOW_SIZE + 2 <=? length allMarkets)%nat.
Proof.
  unfold slice. rewrite length_take, length_drop.
  pose proof (eq_refl : WINDOW_SIZE = 50) as HW.
  destruct (Nat.ltb_spec WINDOW_SIZE (length allMarkets));
    destruct (Nat.leb_spec (WINDOW_SIZE + 2) (length allMarkets));
    try lia; rewrite ?andb_true_l, ?andb_false_l.
  - apply Nat.leb_le. lia.
  - apply Nat.leb_gt. lia.
Qed.

Lemma windowedAnalysis_returns {R : Type}
    (analyze : list MarketRef → outcome (list R))
    (f : list MarketRef → list R) (allMarkets : list MarketRef) :
  (∀ w, analyze w = Returned (f w)) →
  windowedAnalysis analyze allMarkets
  = Returned
      (f (take WINDOW_SIZE allMarkets)
       ++ (if (WINDOW_SIZE + 2 <=? length allMarkets)%nat
           then f (take WINDOW_SIZE (drop WINDOW_SIZE allMarkets)) else []),
       if (WINDOW_SIZE <? length allMarkets)%nat then 2 else 1).
Proof.
  intros Hf. unfold windowedAnalysis.
  pose proof (second_window_test allMarkets) as Htest.
  rewrite <- (first_window allMarkets).
  destruct (WINDOW_SIZE + 2 <=? length allMarkets)%nat eqn:H52;
    [apply Nat.leb_le in H52; rewrite <- (second_window allMarkets H52)|];
    revert Htest;
    generalize (slice allMarkets WINDOW_SIZE
                  (Nat.min (WINDOW_SIZE * 2) (length allMarkets))) as w2;
    generalize (slice allMarkets 0 WINDOW_SIZE) as w1;
    intros w1 w2;
    destruct (WINDOW_SIZE <=? length allMarkets)%nat,
             (WINDOW_SIZE <? length allMarkets)%nat,
             (2 <=? length w2)%nat;
    intros Htest; try discriminate Htest;
    rewrite ?Hf; cbn; rewrite ?Hf; cbn; by rewrite ?app_nil_r.
Qed.

Lemma submittedWindows_unfold (allMarkets : list MarketRef) :
  submittedWindows allMarkets
  = [take WINDOW_SIZE allMarkets]
    ++ (if (WINDOW_SIZE + 2 <=? length allMarkets)%nat
        then [take WINDOW_SIZE (drop WINDOW_SIZE allMarkets)] else []).
Proof.
  unfold submittedWindows.
  by rewrite (windowedAnalysis_returns _ (λ w, [w])).
Qed.

Lemma collectMarkets_length (events : list ApiEvent) (acc : list MarketRef) :
  length acc ≤ MAX_MARKETS →
  length (collectMarkets events acc) ≤ MAX_MARKETS.
Proof.
  revert acc. induction events as [|event events IH]; intros acc Hacc.
  - done.
  - cbn [collectMarkets].
    destruct (Nat.leb_spec MAX_MARKETS (length acc)) as [Hfull|Hroom]; [done|].
    destruct (api_markets event) as [[|m ms]|]; try by apply IH.
    destruct (List.find _ _); [|by apply IH].
    apply IH. unfold push. rewrite length_app. cbn [length]. lia.
Qed.

Lemma bind_Returned {A B : Type} (a : A) (k : A → outcome B) :
  Returned a ≫= k = k a.
Proof. reflexivity. Qed.

Lemma mainAnalysis_returns (kalshi : KalshiClient) (events : list ApiEvent)
    (startTs endTs : Z) :
  mainAnalysis kalshi events startTs endTs
  = Returned
      (if (length (collectMarkets events []) <? 2)%nat then None
       else Some (deduplicateCorrelations
                    (submittedWindows (collectMarkets events [])
                     ≫= λ w, fst (pairwiseCorrelations
                                    (omap (fetchedSeries kalshi startTs endTs
                                                         "60") w))))).
Proof.
  unfold mainAnalysis.
  destruct (length (collectMarkets events []) <? 2)%nat; [done|].
  rewrite (windowedAnalysis_returns _
             (λ w, fst (pairwiseCorrelations
                          (omap (fetchedSeries kalshi startTs endTs "60") w))))
    by (intros w; apply analyzeMultipleMarkets_returns).
  rewrite bind_Returned, submittedWindows_unfold.
  destruct (_ <=? _)%nat.
  - by rewrite bind_app, !bind_singleton.
  - by rewrite !app_nil_r, bind_singleton.
Qed.

(** C5, as the source has it: a run over 120 markets submits two windows,
    of 50 and 50 markets, and the last 20 markets are in no window; the
    collection loop before it keeps 100 of 120 eligible events. *)
Lemma windows_of_120_markets :
  length (numberedMarket <$> seq 0 120) = 120
  ∧ length <$> submittedWindows (numberedMarket <$> seq 0 120) = [50; 50]
  ∧ ¬ (length <$> submittedWindows (numberedMarket <$> seq 0 120)
       = [50; 50; 20])
  ∧ "MKT-110" ∈ (m_marketTicker <$> (numberedMarket <$> seq 0 120))
  ∧ ¬ ("MKT-110" ∈ m_marketTicker
         <$> concat (submittedWindows (numberedMarket <$> seq 0 120)))
  ∧ length (collectMarkets (numberedEvent <$> seq 0 120) []) = 100.
Proof.
  assert (length <$> submittedWindows (numberedMarket <$> seq 0 120)
          = [50; 50]) as Hsizes by (vm_compute; reflexivity).
  split; [vm_compute; reflexivity|]. split; [exact Hsizes|].
  split; [rewrite Hsizes; discriminate|].
  split; [apply (bool_decide_unpack _); vm_compute; exact I|].
  split; [|vm_compute; reflexivity].
  apply (bool_decide_unpack _). vm_compute. exact I.
Qed.

(** C5, amended. With the window size fixed at 50, a run submits the first
    50 markets (all of them when there are fewer) and, when at least 52
    markets were collected, the next 50 as a second window; nothing beyond
    the first 100 is submitted, and a second window of one market is not
    submitted. The engine is invoked once per submitted window, in order,
    and the records are concatenated. The windows are consecutive and
    disjoint, each of at most 50 markets, and together they are the whole
    list when it has at most 100 markets and not exactly 51. The
    collection loop never yields more than 100 markets, and the run
    returns the deduplicated records of the submitted windows (nothing
    when fewer than two markets were collected). *)
Theorem windowedAnalysis_spec (allMarkets : list MarketRef) :
  submittedWindows allMarkets
  = [take WINDOW_SIZE allMarkets]
    ++ (if (WINDOW_SIZE + 2 <=? length allMarkets)%nat
        then [take WINDOW_SIZE (drop WINDOW_SIZE allMarkets)] else [])
  ∧ Forall (λ w, length w ≤ WINDOW_SIZE) (submittedWindows allMarkets)
  ∧ concat (submittedWindows allMarkets)
    = take (if (WINDOW_SIZE + 2 <=? length allMarkets)%nat
            then 2 * WINDOW_SIZE else WINDOW_SIZE) allMarkets
  ∧ (length allMarkets ≤ 2 * WINDOW_SIZE →
     length allMarkets ≠ WINDOW_SIZE + 1 →
     concat (submittedWindows allMarkets) = allMarkets)
  ∧ (∀ (R : Type) (analyze : list MarketRef → outcome (list R))
       (f : list MarketRef → list R),
       (∀ w, analyze w = Returned (f w)) →
       ∃ windowCount,
         windowedAnalysis analyze allMarkets
         = Returned (submittedWindows allMarkets ≫= f, windowCount))
  ∧ (∀ events, length (collectMarkets events []) ≤ 2 * WINDOW_SIZE)
  ∧ (∀ kalshi events startTs endTs,
       collectMarkets events [] = allMarkets →
       mainAnalysis kalshi events startTs endTs
       = Returned
           (if (length allMarkets <? 2)%nat then None
            else Some (deduplicateCorrelations
                         (submittedWindows allMarkets
                          ≫= λ w, fst (pairwiseCorrelations
                                         (omap (fetchedSeries kalshi startTs
                                                  endTs "60") w))))))
  ∧ length <$> submittedWindows (numberedMarket <$> seq 0 120) = [50; 50]
  ∧ length <$> submittedWindows (numberedMarket <$> seq 0 100) = [50; 50].
Proof.
  assert (concat (submittedWindows allMarkets)
          = take (if (WINDOW_SIZE + 2 <=? length allMarkets)%nat
                  then 2 * WINDOW_SIZE else WINDOW_SIZE) allMarkets)
    as Hconcat.
  { rewrite submittedWindows_unfold.
    destruct (_ <=? _)%nat; simpl; rewrite app_nil_r; [|done].
    rewrite <- (take_drop 50 (take 100 allMarkets)).
    rewrite take_take, skipn_firstn_comm. done. }
  split; [apply submittedWindows_unfold|].
  split.
  { rewrite submittedWindows_unfold.
    apply Forall_app. split.
    - apply Forall_singleton. rewrite length_take. lia.
    - destruct (_ <=? _)%nat; [|constructor].
      apply Forall_singleton. rewrite length_take. lia. }
  split; [exact Hconcat|].
  split.
  { intros Hle Hne. rewrite Hconcat. unfold WINDOW_SIZE in *.
    destruct (Nat.leb_spec (50 + 2) (length allMarkets));
      apply take_ge; lia. }
  split.
  { intros R analyze f Hf. eexists.
    rewrite (windowedAnalysis_returns analyze f allMarkets Hf).
    rewrite submittedWindows_unfold.
    destruct (_ <=? _)%nat; cbn; by rewrite ?app_nil_r. }
  split; [intros events; apply collectMarkets_length; simpl; lia|].
  split; [intros kalshi events startTs endTs <-; apply mainAnalysis_returns|].
  split; vm_compute; reflexivity.
Qed.

Lemma windowedAnalysis_spec_witness :
  concat (submittedWindows (numberedMarket <$> seq 0 60))
  = numberedMarket <$> seq 0 60
  ∧ ∃ windowCount,
      windowedAnalysis (λ w, Returned (m_marketTicker <$> w))
                       (numberedMarket <$> seq 0 60)
      = Returned (submittedWindows (numberedMarket <$> seq 0 60)
                    ≫= fmap m_marketTicker, windowCount).
Proof.
  split.
  - apply (proj1 (proj2 (proj2 (proj2
             (windowedAnalysis_spec (numberedMarket <$> seq 0 60)))))).
    + vm_compute. lia.
    + vm_compute. lia.
  - apply (proj1 (proj2 (proj2 (proj2 (proj2
             (windowedAnalysis_spec (numberedMarket <$> seq 0 60))))))
             string (λ w, Returned (m_marketTicker <$> w))
             (fmap m_marketTicker)).
    reflexivity.
Defined.

(** ** Order on numbers *)

Ltac sf_compare :=
  repeat match goal with
  | H : context [(?a ?= ?b)%Z] |- _ => destruct (Z.compare_spec a b)
  | H : context [PosDef.Pos.compare_cont Eq ?a ?b] |- _ =>
      change (PosDef.Pos.compare_cont Eq a b) with (Pos.compare a b) in *;
      destruct (Pos.compare_spec a b)
  | |- context [(?a ?= ?b)%Z] => destruct (Z.compare_spec a b)
  | |- context [PosDef.Pos.compare_cont Eq ?a ?b] =>
      change (PosDef.Pos.compare_cont Eq a b) with (Pos.compare a b) in *;
      destruct (Pos.compare_spec a b)
  end;
  simpl in *; subst; try congruence; try lia.

Lemma SFltb_irrefl (a : spec_float) : SFltb a a = false.
Proof.
  unfold SFltb, SFcompare.
  destruct a as [s|s| |s m e]; try destruct s; try reflexivity; sf_compare.
Qed.

Lemma SFltb_trans (a b c : spec_float) :
  SFltb a b = true → SFltb b c = true → SFltb a c = true.
Proof.
  unfold SFltb, SFcompare.
  destruct a as [sa|sa| |sa ma ea], b as [sb|sb| |sb mb eb],
           c as [sc|sc| |sc mc ec];
    try destruct sa; try destruct sb; try destruct sc;
    simpl; try congruence; intros H1 H2; sf_compare.
Qed.

Lemma SFltb_eqb_r (a b c : spec_float) :
  SFeqb a b = true → SFltb c a = SFltb c b.
Proof.
  unfold SFltb, SFeqb, SFcompare.
  destruct a as [sa|sa| |sa ma ea], b as [sb|sb| |sb mb eb],
           c as [sc|sc| |sc mc ec];
    try destruct sa; try destruct sb; try destruct sc;
    simpl; try congruence; intros H1; sf_compare.
Qed.



Lemma gt_irrefl (a : number) : gt a a = false.
Proof. unfold gt. rewrite ltb_spec. apply SFltb_irrefl. Qed.

Lemma gt_trans (a b c : number) :
  gt a b = true → gt b c = true → gt a c = true.
Proof.
  unfold gt. rewrite !ltb_spec. intros Hab Hbc.
  by apply (SFltb_trans _ (Prim2SF b)).
Qed.

Lemma gt_strict_eq_l (a b c : number) :
  strict_eq a b = true → gt a c = gt b c.
Proof.
  unfold gt, strict_eq. rewrite !ltb_spec, FloatAxioms.eqb_spec.
  apply SFltb_eqb_r.
Qed.

(** ** Order on records *)

Lemma replaces_irrefl (x : CorrelationResult) : replaces x x = false.
Proof.
  unfold replaces. rewrite Nat.ltb_irrefl, gt_irrefl.
  by rewrite andb_false_r.
Qed.

Lemma replaces_spec (a b : CorrelationResult) :
  replaces a b = true
  ↔ dataPoints b < dataPoints a
    ∨ (dataPoints a = dataPoints b
       ∧ gt (PrimFloat.abs (correlation a)) (PrimFloat.abs (correlation b))
         = true).
Proof.
  unfold replaces.
  rewrite orb_true_iff, andb_true_iff, Nat.ltb_lt, Nat.eqb_eq. done.
Qed.

Lemma replaces_trans (a b c : CorrelationResult) :
  replaces a b = true → replaces b c = true → replaces a c = true.
Proof.
  rewrite !replaces_spec.
  intros [Hab | [Hab Gab]] [Hbc | [Hbc Gbc]]; try (left; lia).
  right. split; [lia|]. by eapply gt_trans.
Qed.

Lemma ties_spec (a b : CorrelationResult) :
  ties a b = true
  ↔ dataPoints a = dataPoints b
    ∧ strict_eq (PrimFloat.abs (correlation a)) (PrimFloat.abs (correlation b))
      = true.
Proof. unfold ties. by rewrite andb_true_iff, Nat.eqb_eq. Qed.

Lemma ties_replaces (r x e : CorrelationResult) :
  ties r x = true → replaces x e = true → replaces r e = true.
Proof.
  rewrite ties_spec, !replaces_spec. intros [Hdp Heq] [Hlt | [Hdp' Hgt]].
  - left. lia.
  - right. split; [lia|]. by rewrite (gt_strict_eq_l _ _ _ Heq).
Qed.



(** ** The insertion-ordered map *)

Section JsMapFacts.
Context {K V : Type} `{EqDecision K}.
Implicit Types (m : list (K * V)) (k : K) (v : V).

Lemma get_None m k : JsMap.get m k = None ↔ k ∉ m.*1.
Proof.
  induction m as [|[k' v'] m IH]; simpl.
  - split; [intros _; apply not_elem_of_nil | done].
  - rewrite not_elem_of_cons. destruct (decide (k' = k)) as [->|Hne].
    + split; [done | intros [? _]; done].
    + rewrite IH. split; [intros ?; split; [done|done] | intros [_ ?]; done].
Qed.

Lemma get_elem_of m k v : JsMap.get m k = Some v → (k, v) ∈ m.
Proof.
  induction m as [|[k' v'] m IH]; simpl; [done|].
  destruct (decide (k' = k)) as [->|Hne].
  - intros [= ->]. apply elem_of_cons. by left.
  - intros Hget. apply elem_of_cons. right. by apply IH.
Qed.

Lemma elem_of_get m k v : NoDup m.*1 → (k, v) ∈ m → JsMap.get m k = Some v.
Proof.
  induction m as [|[k' v'] m IH]; simpl; intros Hnd Hin.
  - by apply elem_of_nil in Hin.
  - apply NoDup_cons in Hnd as [Hk' Hnd].
    apply elem_of_cons in Hin as [[= -> ->] | Hin].
    + by rewrite decide_True.
    + rewrite decide_False; [by apply IH|].
      intros ->. apply Hk'. apply list_elem_of_fmap. by exists (k, v).
Qed.

Lemma get_set m k v k' :
  JsMap.get (JsMap.set m k v) k'
  = if decide (k = k') then Some v else JsMap.get m k'.
Proof.
  induction m as [|[k0 v0] m IH]; simpl.
  - done.
  - destruct (decide (k0 = k)) as [->|Hne]; simpl.
    + destruct (decide (k = k')); done.
    + rewrite IH. destruct (decide (k0 = k')) as [->|]; [|done].
      by rewrite decide_False by done.
Qed.

Lemma keys_set m k v :
  (JsMap.set m k v).*1 = if decide (k ∈ m.*1) then m.*1 else m.*1 ++ [k].
Proof.
  induction m as [|[k0 v0] m IH].
  - by destruct (decide (k ∈ ([] : list (K * V)).*1))
      as [Hin%elem_of_nil|].
  - cbn [JsMap.set fmap list_fmap fst].
    destruct (decide (k0 = k)) as [->|Hne]; cbn [fmap list_fmap fst].
    + rewrite decide_True; [done | apply elem_of_cons; by left].
    + rewrite IH. destruct (decide (k ∈ m.*1)) as [Hin|Hnin].
      * rewrite decide_True; [done | apply elem_of_cons; by right].
      * rewrite decide_False; [done|].
        rewrite elem_of_cons. intros [->|?]; done.
Qed.
End JsMapFacts.

(** ** The deduplication loop *)

Lemma dedupInv_nil : dedupInv [] [].
Proof. split; [constructor | done | done]. Qed.

Lemma dedupInv_other (l : list CorrelationResult) (x w : CorrelationResult)
    (k : string) :
  pairKey x ≠ k →
  (pairKey w = k
   ∧ (∀ r, r ∈ l → pairKey r = k → replaces r w = false)
   ∧ ∃ l1 l2, l = l1 ++ w :: l2
              ∧ ∀ r, r ∈ l1 → pairKey r = k → ties r w = false) →
  pairKey w = k
  ∧ (∀ r, r ∈ l ++ [x] → pairKey r = k → replaces r w = false)
  ∧ ∃ l1 l2, l ++ [x] = l1 ++ w :: l2
             ∧ ∀ r, r ∈ l1 → pairKey r = k → ties r w = false.
Proof.
  intros Hne (Hkey & Hmax & l1 & l2 & -> & Hfirst).
  split; [done|]. split.
  - intros r Hr Hk. apply elem_of_app in Hr as [Hr | Hr]; [by apply Hmax|].
    apply list_elem_of_singleton in Hr as ->. done.
  - exists l1, (l2 ++ [x]). split; [by rewrite <- app_assoc|done].
Qed.

Lemma dedupInv_new (l : list CorrelationResult) (x : CorrelationResult) :
  (∀ r, r ∈ l → pairKey r = pairKey x → replaces r x = false) →
  (∀ r, r ∈ l → pairKey r = pairKey x → ties r x = false) →
  pairKey x = pairKey x
  ∧ (∀ r, r ∈ l ++ [x] → pairKey r = pairKey x → replaces r x = false)
  ∧ ∃ l1 l2, l ++ [x] = l1 ++ x :: l2
             ∧ ∀ r, r ∈ l1 → pairKey r = pairKey x → ties r x = false.
Proof.
  intros Hmax Hfirst. split; [done|]. split.
  - intros r Hr Hk. apply elem_of_app in Hr as [Hr | Hr]; [by apply Hmax|].
    apply list_elem_of_singleton in Hr as ->. apply replaces_irrefl.
  - by exists l, [].
Qed.

Lemma dedupInv_step (l : list CorrelationResult)
    (m : list (string * CorrelationResult)) (x : CorrelationResult) :
  dedupInv l m → dedupInv (l ++ [x]) (dedupStep m x).
Proof.
  intros [Hnd Hkeys Hwin]. unfold dedupStep.
  destruct (JsMap.get m (pairKey x)) as [e|] eqn:Hget.
  - (* the key is present *)
    assert (pairKey x ∈ m.*1) as Hin.
    { apply dec_stable. intros Hnin. apply get_None in Hnin. congruence. }
    destruct (Hwin _ _ Hget) as (Hkey & Hmax & l1 & l2 & Hl & Hfirst).
    destruct (replaces x e) eqn:Hrep.
    + split.
      * by rewrite keys_set, decide_True.
      * intros k. rewrite keys_set, decide_True by done.
        rewrite Hkeys, fmap_app, elem_of_app. simpl.
        rewrite list_elem_of_singleton. apply Hkeys in Hin.
        split; [tauto | intros [?| ->]; done].
      * intros k w. rewrite get_set.
        destruct (decide (pairKey x = k)) as [<-|Hne].
        -- intros [= <-]. apply dedupInv_new.
           ++ intros r Hr Hk. destruct (replaces r x) eqn:Hrx; [|done].
              rewrite <- (Hmax r Hr Hk). symmetry.
              by apply (replaces_trans r x e).
           ++ intros r Hr Hk. destruct (ties r x) eqn:Hrx; [|done].
              rewrite <- (Hmax r Hr Hk). symmetry.
              by apply (ties_replaces r x e).
        -- intros Hk. apply dedupInv_other; [done|]. by apply Hwin.
    + split; [done| |].
      * intros k. rewrite Hkeys, fmap_app, elem_of_app. simpl.
        rewrite list_elem_of_singleton. apply Hkeys in Hin.
        split; [tauto | intros [?| ->]; done].
      * intros k w Hk.
        destruct (decide (pairKey x = k)) as [<-|Hne];
          [|apply dedupInv_other; [done | by apply Hwin]].
        rewrite Hget in Hk. injection Hk as <-.
        split; [done|]. split.
        -- intros r Hr Hrk.
           apply elem_of_app in Hr as [Hr | Hr]; [by apply Hmax|].
           by apply list_elem_of_singleton in Hr as ->.
        -- exists l1, (l2 ++ [x]). split; [|done].
           by rewrite Hl, <- app_assoc.
  - (* a new key *)
    apply get_None in Hget as Hnin.
    assert (∀ r, r ∈ l → pairKey r ≠ pairKey x) as Hfresh.
    { intros r Hr Hk. apply Hnin, Hkeys. apply list_elem_of_fmap.
      by exists r. }
    split.
    + rewrite keys_set, decide_False by done.
      apply NoDup_app. split; [done|]. split; [|apply NoDup_singleton].
      intros k Hk Hk'. apply list_elem_of_singleton in Hk' as ->. done.
    + intros k. rewrite keys_set, decide_False by done.
      rewrite fmap_app, !elem_of_app, Hkeys. done.
    + intros k w. rewrite get_set.
      destruct (decide (pairKey x = k)) as [<-|Hne].
      * intros [= <-]. apply dedupInv_new.
        -- intros r Hr Hk. by destruct (Hfresh r Hr).
        -- intros r Hr Hk. by destruct (Hfresh r Hr).
      * intros Hk. apply dedupInv_other; [done|]. by apply Hwin.
Qed.

Lemma dedupInv_fold (l : list CorrelationResult) :
  dedupInv l (fold_left dedupStep l []).
Proof.
  induction l as [|x l IH] using rev_ind.
  - apply dedupInv_nil.
  - rewrite fold_left_app. simpl. by apply dedupInv_step.
Qed.

Lemma pairKey_unordered (a b : CorrelationResult) :
  market1 a = market2 b → market2 a = market1 b → pairKey a = pairKey b.
Proof.
  intros H1 H2. unfold pairKey. rewrite H1, H2. unfold String.ltb.
  rewrite (String.compare_antisym (market1 b) (market2 b)).
  destruct (String.compare (market2 b) (market1 b)) eqn:Hcmp; simpl; [|done..].
  apply String.compare_eq_iff in Hcmp. by rewrite Hcmp.
Qed.

Lemma keys_of_values (m : list (string * CorrelationResult)) :
  (∀ k w, (k, w) ∈ m → pairKey w = k) → pairKey <$> m.*2 = m.*1.
Proof.
  induction m as [|[k w] m IH]; intros Hkey; [done|].
  simpl. f_equal.
  - apply Hkey, elem_of_cons. by left.
  - apply IH. intros k' w' Hin. apply Hkey, elem_of_cons. by right.
Qed.

Lemma dedup_keys (correlations : list CorrelationResult) :
  pairKey <$> deduplicateCorrelations correlations
  = (fold_left dedupStep correlations []).*1.
Proof.
  destruct (dedupInv_fold correlations) as [Hnd _ Hwin].
  apply keys_of_values. intros k w Hin.
  by apply (Hwin k w), elem_of_get.
Qed.

Lemma dedup_winner (correlations : list CorrelationResult)
    (w : CorrelationResult) :
  w ∈ deduplicateCorrelations correlations →
  (∀ r, r ∈ correlations → pairKey r = pairKey w → replaces r w = false)
  ∧ ∃ before after,
      correlations = before ++ w :: after
      ∧ ∀ r, r ∈ before → pairKey r = pairKey w → ties r w = false.
Proof.
  destruct (dedupInv_fold correlations) as [Hnd _ Hwin].
  intros Hw. apply list_elem_of_fmap in Hw as ([k w'] & -> & Hin).
  apply (elem_of_get _ _ _ Hnd) in Hin.
  destruct (Hwin _ _ Hin) as (<- & Hmax & Hfirst). done.
Qed.

Lemma join_inj (s1 s2 t1 t2 : string) :
  bar_free s1 = true → bar_free t1 = true →
  s1 +:+ "|" +:+ s2 = t1 +:+ "|" +:+ t2 → s1 = t1 ∧ s2 = t2.
Proof.
  revert t1. induction s1 as [|c s1 IH]; intros [|d t1] Hs Ht Heq;
    unfold String.append in Heq; fold String.append in Heq; simpl in Hs, Ht.
  - by injection Heq as ->.
  - injection Heq as <- _. done.
  - injection Heq as -> _. done.
  - injection Heq as -> Heq.
    apply andb_true_iff in Hs as [_ Hs]. apply andb_true_iff in Ht as [_ Ht].
    destruct (IH t1 Hs Ht Heq) as [-> ->]. done.
Qed.

Lemma pairKey_inj (a b : CorrelationResult) :
  bar_free (market1 a) = true → bar_free (market2 a) = true →
  bar_free (market1 b) = true → bar_free (market2 b) = true →
  pairKey a = pairKey b →
  (market1 a = market1 b ∧ market2 a = market2 b)
  ∨ (market1 a = market2 b ∧ market2 a = market1 b).
Proof.
  unfold pairKey. intros Ha1 Ha2 Hb1 Hb2.
  destruct (String.ltb (market1 a) (market2 a)),
           (String.ltb (market1 b) (market2 b));
    intros Heq; apply join_inj in Heq as [? ?]; auto.
Qed.

(** C4, on the code. The key of a record is the smaller ticker, a bar and
    the larger ticker in one string. Tickers that contain a bar can
    therefore give two different pairs of markets the same key: the
    records for the pairs ("A|B", "C") and ("A", "B|C") both get the key
    "A|B|C", and [deduplicateCorrelations] returns one record for the two
    pairs, in whichever order they arrive, where the input has two
    distinct pairs and no pair twice. *)
Theorem deduplicateCorrelations_bar_collision :
  pairKey result_ab_c = "A|B|C"
  ∧ pairKey result_a_bc = "A|B|C"
  ∧ ¬ (market1 result_ab_c = market1 result_a_bc
       ∧ market2 result_ab_c = market2 result_a_bc)
  ∧ ¬ (market1 result_ab_c = market2 result_a_bc
       ∧ market2 result_ab_c = market1 result_a_bc)
  ∧ deduplicateCorrelations [result_ab_c; result_a_bc] = [result_a_bc]
  ∧ deduplicateCorrelations [result_a_bc; result_ab_c] = [result_a_bc]
  ∧ length (deduplicateCorrelations [result_ab_c; result_a_bc])
    < length [result_ab_c; result_a_bc].
Proof.
  split; [reflexivity|]. split; [reflexivity|].
  split; [intros [[=] _]|]. split; [intros [[=] _]|].
  split; [vm_compute; reflexivity|]. split; [vm_compute; reflexivity|].
  vm_compute. lia.
Qed.

(** X29. [deduplicateCorrelations] groups the records by [pairKey], which
    does not depend on the order of the two tickers and, for tickers
    without a bar, tells the unordered pairs apart. The output has
    exactly one record per key of the input; that record is a record of
    the input which no record of its group beats: none has more data
    points, and none with as many data points has a larger absolute
    correlation. So the output is no longer than the input, and as long
    exactly when no key repeats. Of two records for the pair (A, B) with
    12 and 20 data points the one with 20 is kept, and of two with equal
    data points the one with the larger absolute correlation. *)
Theorem deduplicateCorrelations_spec (correlations : list CorrelationResult) :
  (∀ a b, market1 a = market2 b → market2 a = market1 b →
          pairKey a = pairKey b)
  ∧ (∀ a b, bar_free (market1 a) = true → bar_free (market2 a) = true →
            bar_free (market1 b) = true → bar_free (market2 b) = true →
            pairKey a = pairKey b →
            (market1 a = market1 b ∧ market2 a = market2 b)
            ∨ (market1 a = market2 b ∧ market2 a = market1 b))
  ∧ NoDup (pairKey <$> deduplicateCorrelations correlations)
  ∧ (∀ k, k ∈ pairKey <$> deduplicateCorrelations correlations
          ↔ k ∈ pairKey <$> correlations)
  ∧ (∀ w, w ∈ deduplicateCorrelations correlations →
       w ∈ correlations
       ∧ ∀ r, r ∈ correlations → pairKey r = pairKey w →
           dataPoints r ≤ dataPoints w
           ∧ (dataPoints r = dataPoints w →
              gt (PrimFloat.abs (correlation r))
                 (PrimFloat.abs (correlation w)) = false))
  ∧ length (deduplicateCorrelations correlations) ≤ length correlations
  ∧ (length (deduplicateCorrelations correlations) = length correlations
     ↔ NoDup (pairKey <$> correlations))
  ∧ deduplicateCorrelations [result_12; result_20] = [result_20]
  ∧ deduplicateCorrelations [result_20; result_12] = [result_20]
  ∧ deduplicateCorrelations [result_weak; result_strong] = [result_strong]
  ∧ deduplicateCorrelations [result_strong; result_weak] = [result_strong].
Proof.
  destruct (dedupInv_fold correlations) as [Hnd Hkeys Hwin].
  pose proof (dedup_keys correlations) as Hk.
  assert (NoDup (pairKey <$> deduplicateCorrelations correlations)) as Hnd'
    by (by rewrite Hk).
  assert (∀ k, k ∈ pairKey <$> deduplicateCorrelations correlations
               ↔ k ∈ pairKey <$> correlations) as Hkeys'
    by (intros k; by rewrite Hk).
  assert (pairKey <$> deduplicateCorrelations correlations
          ⊆+ pairKey <$> correlations) as Hsub.
  { apply NoDup_submseteq; [done|]. intros k. apply Hkeys'. }
  split; [apply pairKey_unordered|].
  split; [apply pairKey_inj|].
  split; [done|]. split; [done|].
  split.
  { intros w Hw.
    destruct (dedup_winner _ _ Hw) as (Hmax & before & after & -> & _).
    split; [apply elem_of_app; right; apply elem_of_cons; by left|].
    intros r Hr Hrk. specialize (Hmax r Hr Hrk).
    unfold replaces in Hmax. apply orb_false_iff in Hmax as [Hlt Heq].
    apply Nat.ltb_ge in Hlt. split; [done|].
    intros Hdp. apply Nat.eqb_eq in Hdp. by rewrite Hdp in Heq. }
  split.
  { apply submseteq_length in Hsub. by rewrite !length_fmap in Hsub. }
  split.
  { split.
    - intros Hlen.
      eapply (NoDup_Permutation_proper _ _); [|exact Hnd'].
      symmetry. apply submseteq_length_Permutation; [done|].
      rewrite !length_fmap. lia.
    - intros Hnd0.
      assert (pairKey <$> correlations
              ⊆+ pairKey <$> deduplicateCorrelations correlations) as Hsup.
      { apply NoDup_submseteq; [done|]. intros k. apply Hkeys'. }
      apply submseteq_length in Hsub, Hsup.
      rewrite !length_fmap in Hsub, Hsup. lia. }
  repeat split; vm_compute; reflexivity.
Qed.

Lemma deduplicateCorrelations_spec_witness :
  pairKey result_12 = pairKey result_20
  ∧ dataPoints result_12 ≤ dataPoints result_20
  ∧ result_strong ∈ [result_weak; result_strong].
Proof.
  destruct (deduplicateCorrelations_spec [result_12; result_20])
    as (Hkey & _ & _ & _ & Hwin & _).
  destruct (deduplicateCorrelations_spec [result_weak; result_strong])
    as (_ & _ & _ & _ & Hwin' & _).
  assert (deduplicateCorrelations [result_12; result_20] = [result_20])
    as E20 by (vm_compute; reflexivity).
  assert (deduplicateCorrelations [result_weak; result_strong]
          = [result_strong]) as Estrong by (vm_compute; reflexivity).
  split; [apply Hkey; reflexivity|].
  split.
  - apply (Hwin result_20).
    + rewrite E20. apply elem_of_cons. by left.
    + apply elem_of_cons. by left.
    + reflexivity.
  - apply (Hwin' result_strong).
    rewrite Estrong. apply elem_of_cons. by left.
Defined.



(** * Further properties of the code *)

(** ** Symmetry of the correlation *)

Lemma SFmul_comm (prec emax : Z) (a b : spec_float) :
  SFmul prec emax a b = SFmul prec emax b a.
Proof.
  destruct a as [sa|sa| |sa ma ea], b as [sb|sb| |sb mb eb]; simpl;
    rewrite ?(xorb_comm sa sb); try reflexivity.
  rewrite (Pos.mul_comm ma mb), (Z.add_comm ea eb). reflexivity.
Qed.

Lemma number_mul_comm (a b : number) : (a * b = b * a)%float.
Proof. apply Prim2SF_inj. rewrite !mul_spec. apply SFmul_comm. Qed.

Lemma zip_with_mul_comm (x y : list number) :
  zip_with PrimFloat.mul x y = zip_with PrimFloat.mul y x.
Proof.
  revert y. induction x as [|a x IH]; intros [|b y]; simpl; [done..|].
  by rewrite number_mul_comm, IH.
Qed.

Lemma pearson_comm (x y : list number) :
  calculateCorrelation x y = calculateCorrelation y x.
Proof.
  rewrite !calculateCorrelation_unfold.
  destruct (Nat.eqb_spec (length x) (length y)) as [Hlen|Hne].
  - rewrite <- Hlen, Nat.eqb_refl. simpl.
    destruct (length x =? 0)%nat; [done|].
    assert (spec_denominator y x = spec_denominator x y) as ->.
    { unfold spec_denominator. rewrite <- Hlen. f_equal.
      apply number_mul_comm. }
    assert (spec_numerator y x = spec_numerator x y) as ->; [|done].
    unfold spec_numerator.
    by rewrite <- Hlen, zip_with_mul_comm, (number_mul_comm (spec_sum y)).
  - rewrite (proj2 (Nat.eqb_neq (length y) (length x))) by done. done.
Qed.

(** X1. The Pearson coefficient does not depend on the order of its two
    arguments: the same number is returned, bit for bit, whatever the
    inputs (also of different lengths, and also with [NaN]). The same
    holds of the rolling correlation of two sequences of equal length. *)
Theorem calculateCorrelation_symmetric (x y : list number) :
  calculateCorrelation x y = calculateCorrelation y x
  ∧ ∀ window, length x = length y →
      calculateRollingCorrelation x y window
      = calculateRollingCorrelation y x window.
Proof.
  split; [apply pearson_comm|].
  intros window Hlen. rewrite !calculateRollingCorrelation_map, <- Hlen.
  apply list_fmap_ext. intros _ i _. apply pearson_comm.
Qed.

Lemma calculateCorrelation_symmetric_witness :
  calculateRollingCorrelation [1; 2; 4; 3]%float [2; 1; 5; 9]%float 3
  = calculateRollingCorrelation [2; 1; 5; 9]%float [1; 2; 4; 3]%float 3.
Proof.
  apply (proj2 (calculateCorrelation_symmetric
                  [1; 2; 4; 3]%float [2; 1; 5; 9]%float) 3).
  reflexivity.
Defined.

(** ** More on the alignment *)

Lemma reduce_from_app {A B : Type} (f : B → A → nat → B) (i : nat)
    (l1 l2 : list A) (acc : B) :
  reduce_from f i (l1 ++ l2) acc
  = reduce_from f (i + length l1) l2 (reduce_from f i l1 acc).
Proof.
  revert i acc. induction l1 as [|a l1 IH]; intros i acc; simpl.
  - by rewrite Nat.add_0_r.
  - rewrite IH. f_equal. lia.
Qed.

Lemma lookupTable_from_absent (closePrices1 : list number) (tss : list Z)
    (i : nat) (m0 : gmap Z number) (ts : Z) :
  ts ∉ tss →
  reduce_from (λ m ts i, <[ts := index closePrices1 i]> m) i tss m0 !! ts
  = m0 !! ts.
Proof.
  revert i m0. induction tss as [|t tss IH]; intros i m0 Hnin; [done|].
  apply not_elem_of_cons in Hnin as [Hne Hnin]. simpl.
  rewrite IH by done. by rewrite lookup_insert_ne.
Qed.

Lemma lookupTable_last (series1 : TimeSeriesData) (l1 l2 : list Z) (ts : Z) :
  timestamps series1 = l1 ++ ts :: l2 → ts ∉ l2 →
  lookupTable series1 !! ts
  = Some (index (closePrices series1) (length l1)).
Proof.
  intros Hts Hnin. unfold lookupTable, reduce.
  rewrite Hts, reduce_from_app. simpl.
  rewrite lookupTable_from_absent by done.
  by rewrite lookup_insert_eq.
Qed.

Lemma aligned_row (series1 series2 : TimeSeriesData) (a : Aligned)
    (k : nat) (ts : Z) :
  alignTimeSeries series1 series2 = Some a →
  aligned_timestamps a !! k = Some ts →
  ∃ p j, lookupTable series1 !! ts = Some p
         ∧ timestamps series2 !! j = Some ts
         ∧ prices1 a !! k = Some p
         ∧ prices2 a !! k = Some (index (closePrices series2) j).
Proof.
  rewrite alignTimeSeries_rows. simpl.
  destruct (_ <? 3)%nat; [done|]. intros [= <-]. simpl.
  rewrite !list_lookup_fmap. intros Hk.
  destruct (alignedRows _ _ _ _ !! k) as [[[ts' p] q]|] eqn:Hrow;
    simpl in Hk; [|done].
  injection Hk as ->.
  apply alignedRows_lookup in Hrow as (Hp & j & Hj & ->).
  exists p, j. done.
Qed.

(** X2. When a timestamp occurs more than once in the first series, the
    lookup table keeps the price of its last occurrence, and that price is
    the one paired with the timestamp in the result. *)
Theorem alignTimeSeries_last_price_wins (series1 series2 : TimeSeriesData)
    (a : Aligned) (l1 l2 : list Z) (ts : Z) (k : nat) :
  timestamps series1 = l1 ++ ts :: l2 → ts ∉ l2 →
  alignTimeSeries series1 series2 = Some a →
  aligned_timestamps a !! k = Some ts →
  prices1 a !! k = Some (index (closePrices series1) (length l1)).
Proof.
  intros Hts Hnin Ha Hk.
  destruct (aligned_row _ _ _ _ _ Ha Hk) as (p & j & Hp & _ & H1 & _).
  rewrite (lookupTable_last _ _ _ _ Hts Hnin) in Hp. congruence.
Qed.

Lemma aligned_determined (series1 series2 : TimeSeriesData) (a : Aligned)
    (k i j : nat) (ts : Z) :
  NoDup (timestamps series1) → NoDup (timestamps series2) →
  alignTimeSeries series1 series2 = Some a →
  aligned_timestamps a !! k = Some ts →
  timestamps series1 !! i = Some ts →
  timestamps series2 !! j = Some ts →
  prices1 a !! k = Some (index (closePrices series1) i)
  ∧ prices2 a !! k = Some (index (closePrices series2) j).
Proof.
  intros Hnd1 Hnd2 Ha Hk Hi Hj.
  destruct (aligned_row _ _ _ _ _ Ha Hk) as (p & j' & Hp & Hj' & H1 & H2).
  apply lookupTable_Some in Hp as (i' & Hi' & ->).
  rewrite (NoDup_lookup _ _ _ _ Hnd1 Hi Hi').
  rewrite (NoDup_lookup _ _ _ _ Hnd2 Hj Hj'). done.
Qed.

Lemma alignTimeSeries_some (series1 series2 : TimeSeriesData) :
  3 ≤ length (overlap series1 series2) →
  ∃ a, alignTimeSeries series1 series2 = Some a
       ∧ aligned_timestamps a = overlap series1 series2
       ∧ length (prices1 a) = length (overlap series1 series2)
       ∧ length (prices2 a) = length (overlap series1 series2).
Proof.
  intros H3. rewrite alignTimeSeries_rows. simpl.
  rewrite alignedRows_length.
  destruct (_ <? 3)%nat eqn:E; [apply Nat.ltb_lt in E; lia|].
  eexists. split; [done|]. simpl.
  rewrite overlap_rows, !length_fmap, alignedRows_length. done.
Qed.

Lemma filter_all {A : Type} (P : A → Prop) `{∀ x, Decision (P x)}
    (l : list A) :
  (∀ x, x ∈ l → P x) → filter P l = l.
Proof.
  induction l as [|x l IH]; intros Hall; [done|].
  rewrite filter_cons, decide_True by (apply Hall, elem_of_cons; by left).
  f_equal. apply IH. intros y Hy. apply Hall, elem_of_cons. by right.
Qed.

(** X3. Aligning a series with itself gives the series back: when its
    timestamps are pairwise distinct, there are at least three of them and
    as many prices, the result holds its timestamps and, twice, its
    prices. *)
Theorem alignTimeSeries_self (series : TimeSeriesData) :
  NoDup (timestamps series) →
  length (closePrices series) = length (timestamps series) →
  3 ≤ length (timestamps series) →
  alignTimeSeries series series
  = Some {| prices1 := closePrices series; prices2 := closePrices series;
            aligned_timestamps := timestamps series |}.
Proof.
  intros Hnd Hlen H3.
  destruct (alignTimeSeries_some series series)
    as (a & Ha & Hts & Hl1 & Hl2).
  { unfold overlap. rewrite filter_all by done. done. }
  unfold overlap in Hts, Hl1, Hl2. rewrite filter_all in Hts, Hl1, Hl2 by done.
  rewrite Ha. f_equal. destruct a as [p1 p2 tss]. simpl in *. subst tss.
  assert (∀ k, p1 !! k = closePrices series !! k
               ∧ p2 !! k = closePrices series !! k) as Hk.
  { intros k. destruct (timestamps series !! k) as [ts|] eqn:Hts.
    - destruct (aligned_determined series series _ k k k ts Hnd Hnd Ha)
        as [H1 H2]; [done..|].
      simpl in H1, H2. rewrite H1, H2. unfold index.
      apply lookup_lt_Some in Hts.
      destruct (closePrices series !! k) eqn:Hcp; [done|].
      apply lookup_ge_None in Hcp. lia.
    - apply lookup_ge_None in Hts.
      rewrite !(proj2 (lookup_ge_None _ _)) by lia. done. }
  f_equal; apply list_eq; intros k; apply Hk.
Qed.

Lemma alignTimeSeries_self_witness :
  alignTimeSeries series_1234 series_1234
  = Some {| prices1 := [0.5; 0.25; 0.75; 1]%float;
            prices2 := [0.5; 0.25; 0.75; 1]%float;
            aligned_timestamps := [1; 2; 3; 4]%Z |}.
Proof.
  apply (alignTimeSeries_self series_1234).
  - apply (bool_decide_unpack _). vm_compute. exact I.
  - reflexivity.
  - simpl. lia.
Defined.

Lemma alignTimeSeries_last_price_wins_witness :
  ∃ a, alignTimeSeries series_1223 series_123 = Some a
       ∧ prices1 a !! 1 = Some 0.75%float.
Proof.
  destruct (alignTimeSeries series_1223 series_123) as [a|] eqn:Ha;
    [|vm_compute in Ha; discriminate Ha].
  exists a. split; [reflexivity|].
  apply (alignTimeSeries_last_price_wins series_1223 series_123 a
           [1; 2]%Z [3]%Z 2%Z 1).
  - reflexivity.
  - apply (bool_decide_unpack _). vm_compute. exact I.
  - exact Ha.
  - vm_compute in Ha. injection Ha as <-. reflexivity.
Defined.

Lemma increasing_StronglySorted (tss : list Z) :
  increasing tss → StronglySorted Z.lt tss.
Proof. apply Sorted_StronglySorted. intros x y z. apply Z.lt_trans. Qed.

Lemma increasing_NoDup (tss : list Z) : increasing tss → NoDup tss.
Proof.
  intros Hinc. apply increasing_StronglySorted in Hinc.
  induction Hinc as [|t tss Hs IH Hall]; [constructor|].
  apply NoDup_cons. split; [|done].
  intros Hin. rewrite Forall_forall in Hall. specialize (Hall t Hin). lia.
Qed.

Lemma StronglySorted_filter (P : Z → Prop) `{∀ x, Decision (P x)}
    (tss : list Z) :
  StronglySorted Z.lt tss → StronglySorted Z.lt (filter P tss).
Proof.
  induction 1 as [|t tss Hs IH Hall]; [constructor|].
  rewrite filter_cons. destruct (decide (P t)); [|done].
  constructor; [done|].
  rewrite Forall_forall in *. intros x Hx.
  apply list_elem_of_filter in Hx as [_ Hx]. by apply Hall.
Qed.

Lemma overlap_swap (series1 series2 : TimeSeriesData) :
  increasing (timestamps series1) → increasing (timestamps series2) →
  overlap series2 series1 = overlap series1 series2.
Proof.
  intros H1 H2. unfold overlap.
  apply (StronglySorted_unique_strong Z.lt).
  - intros x y _ _ Hxy Hyx. lia.
  - by apply StronglySorted_filter, increasing_StronglySorted.
  - by apply StronglySorted_filter, increasing_StronglySorted.
  - apply NoDup_Permutation.
    + by apply NoDup_filter, increasing_NoDup.
    + by apply NoDup_filter, increasing_NoDup.
    + intros ts. rewrite !list_elem_of_filter. tauto.
Qed.

Lemma alignTimeSeries_none (series1 series2 : TimeSeriesData) :
  length (overlap series1 series2) < 3 →
  alignTimeSeries series1 series2 = None.
Proof.
  intros H3. rewrite alignTimeSeries_rows. simpl.
  rewrite alignedRows_length.
  destruct (_ <? 3)%nat eqn:E; [done|]. apply Nat.ltb_ge in E. lia.
Qed.

Lemma align_swap (series1 series2 : TimeSeriesData) :
  increasing (timestamps series1) → increasing (timestamps series2) →
  alignTimeSeries series2 series1
  = swapAligned <$> alignTimeSeries series1 series2.
Proof.
  intros Hinc1 Hinc2.
  pose proof (overlap_swap _ _ Hinc1 Hinc2) as Hov.
  pose proof (increasing_NoDup _ Hinc1) as Hnd1.
  pose proof (increasing_NoDup _ Hinc2) as Hnd2.
  destruct (Nat.lt_ge_cases (length (overlap series1 series2)) 3) as [Hlt|Hge].
  { rewrite (alignTimeSeries_none series1 series2) by done.
    rewrite (alignTimeSeries_none series2 series1) by (by rewrite Hov).
    done. }
  destruct (alignTimeSeries_some series1 series2 Hge)
    as (a & Ha & Hts & Hl1 & Hl2).
  destruct (alignTimeSeries_some series2 series1)
    as (b & Hb & Hts' & Hl1' & Hl2'); [by rewrite Hov|].
  rewrite Ha, Hb. simpl. f_equal. rewrite Hov in Hts', Hl1', Hl2'.
  assert (∀ k, prices1 b !! k = prices2 a !! k
               ∧ prices2 b !! k = prices1 a !! k) as Hk.
  { intros k. destruct (overlap series1 series2 !! k) as [ts|] eqn:Hk.
    - assert (ts ∈ overlap series1 series2) as Hin
        by (apply list_elem_of_lookup; eauto).
      apply list_elem_of_filter in Hin as [Hin1 Hin2].
      apply list_elem_of_lookup in Hin1 as [i Hi].
      apply list_elem_of_lookup in Hin2 as [j Hj].
      destruct (aligned_determined series1 series2 a k i j ts Hnd1 Hnd2 Ha)
        as [-> ->]; [by rewrite Hts|done|done|].
      destruct (aligned_determined series2 series1 b k j i ts Hnd2 Hnd1 Hb)
        as [-> ->]; [by rewrite Hts'|done|done|].
      done.
    - apply lookup_ge_None in Hk.
      rewrite !(proj2 (lookup_ge_None _ _)) by lia. done. }
  destruct a as [a1 a2 ats], b as [b1 b2 bts]. unfold swapAligned.
  simpl in *. f_equal; [apply list_eq; intros k; apply Hk..|congruence].
Qed.

(** X4. For two series with strictly increasing timestamps, exchanging the
    arguments of [alignTimeSeries] exchanges the two price sequences and
    changes nothing else: the same timestamps, in the same order, or
    [null] in both cases. The timestamps of the result are strictly
    increasing too. *)
Theorem alignTimeSeries_swap (series1 series2 : TimeSeriesData) :
  increasing (timestamps series1) → increasing (timestamps series2) →
  alignTimeSeries series2 series1
  = swapAligned <$> alignTimeSeries series1 series2
  ∧ ∀ a, alignTimeSeries series1 series2 = Some a →
      increasing (aligned_timestamps a).
Proof.
  intros Hinc1 Hinc2. split; [by apply align_swap|].
  intros a. rewrite alignTimeSeries_rows. simpl.
  destruct (_ <? 3)%nat; [done|]. intros [= <-]. simpl.
  rewrite overlap_rows. unfold overlap.
  by apply StronglySorted_Sorted, StronglySorted_filter,
    increasing_StronglySorted.
Qed.

Lemma alignTimeSeries_swap_witness :
  alignTimeSeries series_2345 series_1234
  = swapAligned <$> alignTimeSeries series_1234 series_2345.
Proof.
  apply (alignTimeSeries_swap series_1234 series_2345);
    repeat constructor.
Defined.

(** X5. For two series with strictly increasing timestamps, the record the
    engine builds for the pair in the other order is the same record with
    the markets exchanged: the same correlation, bit for bit, and the
    same sample count; and no record one way means no record the other
    way. *)
Theorem emitted_swap (series1 series2 : TimeSeriesData) :
  increasing (timestamps series1) → increasing (timestamps series2) →
  emitted series2 series1 = swapMarkets <$> emitted series1 series2.
Proof.
  intros Hinc1 Hinc2. rewrite !emitted_unfold.
  rewrite (String.eqb_sym (eventTicker series2)).
  destruct (String.eqb _ _); [done|].
  rewrite (align_swap series1 series2) by done.
  destruct (alignTimeSeries series1 series2) as [a|]; [|done].
  simpl. destruct (_ <? 10)%nat; [done|].
  rewrite (andb_comm (0 <? length (calculateReturns (prices2 a)))%nat).
  destruct (_ && _); [|done].
  unfold swapMarkets. simpl. do 2 f_equal.
  apply pearson_comm.
Qed.

Lemma emitted_swap_witness :
  emitted series_ten_b series_ten_a
  = swapMarkets <$> emitted series_ten_a series_ten_b.
Proof.
  apply (emitted_swap series_ten_a series_ten_b); repeat constructor.
Defined.

(** ** The fetched series *)

Lemma fetch_fold (candles : list CandlestickData) (tss : list Z)
    (cps vols : list number) :
  fold_left
    (λ '(timestamps, closePrices, volumes) candle,
       match price candle with
       | Some p =>
           if gt (close p) 0%float
           then (push timestamps (end_period_ts candle),
                 push closePrices (close p / 100)%float,
                 push volumes (volume candle))
           else (timestamps, closePrices, volumes)
       | None => (timestamps, closePrices, volumes)
       end)
    candles (tss, cps, vols)
  = (tss ++ (end_period_ts <$> filter keptCandle candles),
     cps ++ omap (λ c, (λ p, close p / 100)%float <$> price c)
                 (filter keptCandle candles),
     vols ++ (volume <$> filter keptCandle candles)).
Proof.
  revert tss cps vols.
  induction candles as [|c candles IH]; intros tss cps vols; simpl.
  - by rewrite !app_nil_r.
  - rewrite filter_cons.
    destruct (decide (keptCandle c)) as [Hk|Hk]; unfold keptCandle in Hk.
    + destruct (price c) as [p|] eqn:Hp; [|done].
      destruct (gt (close p) 0); [|done].
      rewrite IH. unfold push. simpl. rewrite Hp. simpl.
      by rewrite <- !app_assoc.
    + destruct (price c) as [p|]; [|apply IH].
      destruct (gt (close p) 0); [|apply IH]. by destruct Hk.
Qed.

Lemma kept_prices_length (candles : list CandlestickData) :
  length (omap (λ c, (λ p, close p / 100)%float <$> price c)
               (filter keptCandle candles))
  = length (filter keptCandle candles).
Proof.
  induction candles as [|c candles IH]; [done|].
  rewrite filter_cons. destruct (decide (keptCandle c)) as [Hk|]; [|done].
  unfold keptCandle in Hk. cbn. destruct (price c); [|done].
  cbn. f_equal. exact IH.
Qed.

Lemma transform_end_period_ts (raw : list CandlestickData) :
  end_period_ts <$> transformCandlestickData raw = end_period_ts <$> raw.
Proof.
  unfold transformCandlestickData.
  induction raw as [|c raw IH]; [done|].
  cbn [map fmap list_fmap]. f_equal; [|exact IH].
  destruct (match price c with Some _ => _ | None => _ end);
    [done|]. by destruct (yes_ask c), (yes_bid c).
Qed.

Lemma StronglySorted_fmap_filter {A : Type} (f : A → Z) (P : A → Prop)
    `{∀ x, Decision (P x)} (l : list A) :
  StronglySorted Z.lt (f <$> l) → StronglySorted Z.lt (f <$> filter P l).
Proof.
  induction l as [|x l IH]; [done|].
  rewrite fmap_cons. intros Hs. apply StronglySorted_cons in Hs as [Hall Hs].
  rewrite filter_cons. destruct (decide (P x)); [|by apply IH].
  rewrite fmap_cons. constructor; [by apply IH|].
  rewrite Forall_forall in *. intros y Hy.
  apply list_elem_of_fmap in Hy as (z & -> & Hz).
  apply list_elem_of_filter in Hz as [_ Hz].
  apply Hall, list_elem_of_fmap. by exists z.
Qed.

(** X6. [fetchMarketTimeSeries] never throws. When it returns a series,
    the client had answered with a non-empty candle list; the series
    carries the two tickers it was asked for; its timestamps, prices and
    volumes have the same non-zero length; its timestamps are timestamps
    of the candles, in the candles' order; so they are strictly
    increasing when the candles' are. *)
Theorem fetchMarketTimeSeries_series (kalshi : KalshiClient)
    (eTicker mTicker ttl : string) (startTs endTs : Z)
    (periodInterval : string) (eTitle : option string) :
  ∃ result,
    fetchMarketTimeSeries kalshi eTicker mTicker ttl startTs endTs
                          periodInterval eTitle
    = Returned result
    ∧ ∀ series, result = Some series →
        marketTicker series = mTicker
        ∧ eventTicker series = eTicker
        ∧ eventTitle series = eTitle
        ∧ 0 < length (timestamps series)
        ∧ length (closePrices series) = length (timestamps series)
        ∧ length (volumes series) = length (timestamps series)
        ∧ ∃ response raw,
            kalshi {| cfg_ticker := eTicker; cfg_marketTicker := mTicker;
                      cfg_startTs := startTs; cfg_endTs := endTs;
                      cfg_periodInterval := periodInterval |}
            = Returned (Some response)
            ∧ candlesticks response = Some raw
            ∧ timestamps series `sublist_of` (end_period_ts <$> raw)
            ∧ (increasing (end_period_ts <$> raw) →
               increasing (timestamps series)).
Proof.
  unfold fetchMarketTimeSeries.
  destruct (kalshi _) as [[response|]|e] eqn:Hk; simpl;
    [|by eexists..].
  destruct (candlesticks response) as [raw|] eqn:Hraw; simpl;
    [|by eexists].
  destruct (length raw =? 0)%nat; simpl; [by eexists|].
  rewrite fetch_fold. simpl.
  destruct (length _ =? 0)%nat eqn:Hlen; simpl; [by eexists|].
  eexists. split; [reflexivity|]. intros series [= <-]. simpl.
  apply Nat.eqb_neq in Hlen. rewrite kept_prices_length in Hlen.
  rewrite kept_prices_length, !length_fmap.
  split; [done|]. split; [done|]. split; [done|].
  split; [lia|]. split; [done|]. split; [done|].
  exists response, raw. split; [done|]. split; [done|].
  rewrite <- (transform_end_period_ts raw). split.
  - apply fmap_sublist, sublist_filter.
  - intros Hinc. apply StronglySorted_Sorted, StronglySorted_fmap_filter.
    by apply increasing_StronglySorted.
Qed.

Lemma fetchMarketTimeSeries_series_witness :
  ∃ series,
    fetchMarketTimeSeries flakyClient "EVT-A" "MKT-A" "MKT-A" 0 100 "60" None
    = Returned (Some series)
    ∧ increasing (timestamps series).
Proof.
  destruct (fetchMarketTimeSeries_series flakyClient "EVT-A" "MKT-A" "MKT-A"
              0 100 "60" None) as (result & Hres & Hprops).
  destruct result as [series|]; [|vm_compute in Hres; discriminate Hres].
  exists series. split; [exact Hres|].
  destruct (Hprops series eq_refl)
    as (_ & _ & _ & _ & _ & _ & response & raw & Hk & Hraw & _ & Hinc).
  apply Hinc.
  vm_compute in Hk. injection Hk as <-. injection Hraw as <-.
  repeat constructor.
Defined.

(** ** The candle transformation *)

(** X7. [transformCandlestickData] keeps the number and the order of the
    candles, leaves a candle whose close price is neither [0] nor [NaN]
    as it is, gives every candle a price, and does nothing when applied a
    second time. *)
Theorem transformCandlestickData_idempotent (raw : list CandlestickData) :
  length (transformCandlestickData raw) = length raw
  ∧ Forall (λ c, is_Some (price c)) (transformCandlestickData raw)
  ∧ (∀ i c p, raw !! i = Some c → price c = Some p →
       truthy (close p) = true →
       transformCandlestickData raw !! i = Some c)
  ∧ transformCandlestickData (transformCandlestickData raw)
    = transformCandlestickData raw.
Proof.
  unfold transformCandlestickData. split; [apply length_map|].
  split; [|split].
  - apply Forall_forall. intros c Hc.
    apply list_elem_of_In, in_map_iff in Hc as (c0 & <- & _).
    destruct (price c0) as [p|] eqn:Hp.
    + destruct (truthy (close p)); [by rewrite Hp|].
      by destruct (yes_ask c0), (yes_bid c0).
    + by destruct (yes_ask c0), (yes_bid c0).
  - intros i c p Hi Hp Ht.
    change (map ?f raw) with (f <$> raw).
    rewrite list_lookup_fmap, Hi. simpl. by rewrite Hp, Ht.
  - rewrite map_map. apply map_ext. intros c.
    destruct (price c) as [p|] eqn:Hp.
    + destruct (truthy (close p)) eqn:Ht; [by rewrite Hp, Ht|].
      destruct (yes_ask c) as [ask|] eqn:Hask,
               (yes_bid c) as [bid|] eqn:Hbid;
        simpl; rewrite ?Hask, ?Hbid; by repeat case_match.
    + destruct (yes_ask c) as [ask|] eqn:Hask,
               (yes_bid c) as [bid|] eqn:Hbid;
        simpl; rewrite ?Hask, ?Hbid; by repeat case_match.
Qed.

Lemma transformCandlestickData_idempotent_witness :
  transformCandlestickData [sampleCandle 1 50; sampleCandle 2 25] !! 1
  = Some (sampleCandle 2 25).
Proof.
  apply (proj1 (proj2 (proj2 (transformCandlestickData_idempotent
           [sampleCandle 1 50; sampleCandle 2 25])))
           1 (sampleCandle 2 25)
           {| open := 25; high := 25; low := 25; close := 25 |});
    reflexivity.
Defined.

(** ** Invariants of the batch engine *)

Lemma gauss_pairs (a k : nat) :
  2 * sum_list ((λ i, a + k - (i + 1)) <$> seq a k) + k = k * k.
Proof.
  revert a. induction k as [|k IH]; intros a; [done|].
  cbn [seq fmap list_fmap sum_list].
  replace ((λ i, a + S k - (i + 1)) <$> seq (S a) k)
    with ((λ i, S a + k - (i + 1)) <$> seq (S a) k).
  - specialize (IH (S a)). revert IH.
    generalize (sum_list ((λ i, S a + k - (i + 1)) <$> seq (S a) k)) as s.
    intros s IH. change (id ?x) with x. nia.
  - apply list_fmap_ext. intros _ i _. lia.
Qed.

Lemma length_bind_sum {A B : Type} (f : A → list B) (l : list A) :
  length (l ≫= f) = sum_list ((λ x, length (f x)) <$> l).
Proof.
  induction l as [|x l IH]; [done|].
  rewrite bind_cons, length_app, IH. done.
Qed.

Lemma indexPairs_length (n : nat) : 2 * length (indexPairs n) = n * (n - 1).
Proof.
  unfold indexPairs. rewrite length_bind_sum, Nat.sub_0_r.
  pose proof (gauss_pairs 0 n) as Hg.
  replace ((λ i, length (pair i <$> seq (i + 1) (n - (i + 1)))) <$> seq 0 n)
    with ((λ i, 0 + n - (i + 1)) <$> seq 0 n).
  - revert Hg.
    generalize (sum_list ((λ i, 0 + n - (i + 1)) <$> seq 0 n)) as s.
    intros s Hg. destruct n as [|n]; [simpl in *; lia|].
    replace (S n - 1) with n by lia. nia.
  - apply list_fmap_ext. intros _ i _. rewrite length_fmap, length_seq. lia.
Qed.

Lemma emitted_or_skipped (series1 series2 : TimeSeriesData) :
  length (emitted series1 series2) + skipped series1 series2 ≤ 1.
Proof.
  rewrite emitted_unfold, skipped_unfold.
  destruct (String.eqb _ _); [simpl; lia|].
  destruct (alignTimeSeries _ _) as [a|]; [|simpl; lia].
  destruct (_ <? 10)%nat; [simpl; lia|].
  destruct (_ && _); simpl; lia.
Qed.

Lemma emittedAt_or_skippedAt (tsd : list TimeSeriesData) (ij : nat * nat) :
  length (emittedAt tsd ij) + skippedAt tsd ij ≤ 1.
Proof.
  unfold emittedAt, skippedAt.
  destruct (tsd !! ij.1), (tsd !! ij.2); simpl; try lia.
  apply emitted_or_skipped.
Qed.

Lemma pairs_total (tsd : list TimeSeriesData) (pairs : list (nat * nat)) :
  length (pairs ≫= emittedAt tsd) + sum_list (skippedAt tsd <$> pairs)
  ≤ length pairs.
Proof.
  induction pairs as [|ij pairs IH]; [done|].
  rewrite bind_cons, length_app, fmap_cons. cbn [sum_list length].
  pose proof (emittedAt_or_skippedAt tsd ij).
  change (id (skippedAt tsd ij)) with (skippedAt tsd ij). lia.
Qed.

Lemma pairwiseCorrelations_value (tsd : list TimeSeriesData) :
  pairwiseCorrelations tsd
  = (indexPairs (length tsd) ≫= emittedAt tsd,
     sum_list (skippedAt tsd <$> indexPairs (length tsd))).
Proof. by rewrite pairwiseCorrelations_pairs, fold_pairAt. Qed.

(** X8. Every record of a batch pairs the tickers of two series at
    positions [i < j] of the fetched list whose event tickers differ; it
    carries their event titles, no p-value, and a sample count of at
    least 10 that does not exceed the length of the second series. The
    records and the counted same-event pairs together are at most the
    [n(n − 1)/2] pairs of the [n] series. *)
Theorem pairwiseCorrelations_records (tsd : list TimeSeriesData) :
  (∀ r, r ∈ fst (pairwiseCorrelations tsd) →
     ∃ i j series1 series2,
       i < j ∧ tsd !! i = Some series1 ∧ tsd !! j = Some series2
       ∧ eventTicker series1 ≠ eventTicker series2
       ∧ market1 r = marketTicker series1
       ∧ market2 r = marketTicker series2
       ∧ event1Title r = eventTitle series1
       ∧ event2Title r = eventTitle series2
       ∧ pValue r = None
       ∧ 10 ≤ dataPoints r ≤ length (timestamps series2))
  ∧ 2 * (length (fst (pairwiseCorrelations tsd))
         + snd (pairwiseCorrelations tsd))
    ≤ length tsd * (length tsd - 1).
Proof.
  rewrite pairwiseCorrelations_value. simpl. split.
  - intros r Hr. apply list_elem_of_bind in Hr as ([i j] & Hr & Hij).
    apply elem_of_indexPairs in Hij. unfold emittedAt in Hr. simpl in Hr.
    destruct (tsd !! i) as [series1|] eqn:Hi; [|by apply elem_of_nil in Hr].
    destruct (tsd !! j) as [series2|] eqn:Hj; [|by apply elem_of_nil in Hr].
    exists i, j, series1, series2.
    split; [lia|]. split; [done|]. split; [done|].
    rewrite emitted_unfold in Hr.
    destruct (String.eqb_spec (eventTicker series1) (eventTicker series2));
      [by apply elem_of_nil in Hr|].
    split; [done|].
    destruct (alignTimeSeries series1 series2) as [a|] eqn:Ha;
      [|by apply elem_of_nil in Hr].
    destruct (Nat.ltb_spec (length (aligned_timestamps a)) 10);
      [by apply elem_of_nil in Hr|].
    destruct (_ && _); [|by apply elem_of_nil in Hr].
    apply list_elem_of_singleton in Hr as ->. simpl.
    repeat (split; [done|]).
    rewrite alignTimeSeries_rows in Ha. simpl in Ha.
    destruct (_ <? 3)%nat; [done|]. injection Ha as <-. simpl.
    rewrite alignedRows_timestamps. apply length_filter.
  - pose proof (pairs_total tsd (indexPairs (length tsd))).
    pose proof (indexPairs_length (length tsd)). lia.
Qed.

Lemma sum_list_const {A : Type} (f : A → nat) (c : nat) (l : list A) :
  (∀ x, x ∈ l → f x = c) → sum_list (f <$> l) = c * length l.
Proof.
  induction l as [|x l IH]; intros Hc; [simpl; lia|].
  rewrite fmap_cons. cbn [sum_list length].
  rewrite IH by (intros y Hy; apply Hc, elem_of_cons; by right).
  change (id (f x)) with (f x).
  rewrite (Hc x) by (apply elem_of_cons; by left). lia.
Qed.

Lemma bind_all_nil {A B : Type} (f : A → list B) (l : list A) :
  (∀ x, x ∈ l → f x = []) → l ≫= f = [].
Proof.
  induction l as [|x l IH]; intros Hnil; [done|].
  rewrite bind_cons, IH by (intros y Hy; apply Hnil, elem_of_cons; by right).
  rewrite (Hnil x) by (apply elem_of_cons; by left). done.
Qed.

Lemma no_same_event (tsd : list TimeSeriesData) :
  NoDup (eventTicker <$> tsd) →
  sum_list (skippedAt tsd <$> indexPairs (length tsd)) = 0.
Proof.
  intros Hnd. rewrite (sum_list_const _ 0); [done|].
  intros [i j] Hij. apply elem_of_indexPairs in Hij.
  unfold skippedAt. simpl.
  destruct (tsd !! i) as [series1|] eqn:Hi; [|done].
  destruct (tsd !! j) as [series2|] eqn:Hj; [|done].
  rewrite skipped_unfold.
  destruct (String.eqb_spec (eventTicker series1) (eventTicker series2))
    as [Heq|]; [|done].
  assert (i = j); [|lia].
  apply (NoDup_lookup _ _ _ (eventTicker series1) Hnd).
  - by rewrite list_lookup_fmap, Hi.
  - by rewrite list_lookup_fmap, Hj, Heq.
Qed.

(** X9. The same-event counter. When every series of the batch belongs to
    one event, no record is produced and all [n(n − 1)/2] pairs are
    counted; when the event tickers are pairwise distinct, no pair is
    counted. *)
Theorem pairwiseCorrelations_same_event (tsd : list TimeSeriesData) :
  (∀ event, (∀ series, series ∈ tsd → eventTicker series = event) →
     fst (pairwiseCorrelations tsd) = []
     ∧ 2 * snd (pairwiseCorrelations tsd) = length tsd * (length tsd - 1))
  ∧ (NoDup (eventTicker <$> tsd) → snd (pairwiseCorrelations tsd) = 0).
Proof.
  rewrite pairwiseCorrelations_value. simpl. split.
  - intros event Hsame.
    assert (∀ ij, ij ∈ indexPairs (length tsd) →
              emittedAt tsd ij = [] ∧ skippedAt tsd ij = 1) as Hpair.
    { intros [i j] Hij. apply elem_of_indexPairs in Hij.
      unfold emittedAt, skippedAt. simpl.
      destruct (lookup_lt_is_Some_2 tsd i) as [series1 Hi]; [lia|].
      destruct (lookup_lt_is_Some_2 tsd j) as [series2 Hj]; [lia|].
      rewrite Hi, Hj, emitted_unfold, skipped_unfold.
      rewrite (Hsame series1), (Hsame series2)
        by (apply list_elem_of_lookup; eauto).
      by rewrite String.eqb_refl. }
    split.
    + apply bind_all_nil. intros ij Hij. by apply Hpair.
    + rewrite (sum_list_const _ 1) by (intros ij Hij; by apply Hpair).
      pose proof (indexPairs_length (length tsd)). lia.
  - intros Hnd. by apply no_same_event.
Qed.

Lemma pairwiseCorrelations_same_event_witness :
  snd (pairwiseCorrelations [series_ten_a; series_ten_b]) = 0
  ∧ fst (pairwiseCorrelations [series_123; series_1234; series_1223]) = [].
Proof.
  split.
  - apply (proj2 (pairwiseCorrelations_same_event
                    [series_ten_a; series_ten_b])).
    apply (bool_decide_unpack _). vm_compute. exact I.
  - apply (proj1 (pairwiseCorrelations_same_event
                    [series_123; series_1234; series_1223]) "EVT-A").
    intros series Hin.
    repeat (apply elem_of_cons in Hin as [->|Hin]; [reflexivity|]).
    by apply elem_of_nil in Hin.
Defined.

Lemma pairwiseCorrelations_records_witness :
  2 * (length (fst (pairwiseCorrelations [series_ten_a; series_ten_b]))
       + snd (pairwiseCorrelations [series_ten_a; series_ten_b]))
  ≤ 2.
Proof.
  apply (proj2 (pairwiseCorrelations_records [series_ten_a; series_ten_b])).
Defined.

(** ** The analysis of one pair *)

Lemma analyzeMarketPair_value (kalshi : KalshiClient)
    (e1 m1 t1 e2 m2 t2 : string) (startTs endTs : Z)
    (periodInterval : string) :
  analyzeMarketPair kalshi e1 m1 t1 e2 m2 t2 startTs endTs periodInterval
  = Returned
      match pairSeries kalshi e1 m1 t1 startTs endTs periodInterval,
            pairSeries kalshi e2 m2 t2 startTs endTs periodInterval with
      | Some series1, Some series2 =>
          (λ a, {| market1 := m1; market2 := m2;
                   event1Title := None; event2Title := None;
                   correlation :=
                     calculateCorrelation (calculateReturns (prices1 a))
                                          (calculateReturns (prices2 a));
                   pValue := None;
                   dataPoints := length (aligned_timestamps a) |})
          <$> alignTimeSeries series1 series2
      | _, _ => None
      end.
Proof.
  unfold analyzeMarketPair, pairSeries.
  pose proof (fetchMarketTimeSeries_fetched kalshi startTs endTs
                periodInterval
                {| m_eventTicker := e1; m_marketTicker := m1; m_title := t1;
                   m_eventTitle := None |}) as H1.
  pose proof (fetchMarketTimeSeries_fetched kalshi startTs endTs
                periodInterval
                {| m_eventTicker := e2; m_marketTicker := m2; m_title := t2;
                   m_eventTitle := None |}) as H2.
  cbn [m_eventTicker m_marketTicker m_title m_eventTitle] in H1, H2.
  rewrite H1, bind_Returned, H2, bind_Returned. clear H1 H2.
  destruct (fetchedSeries _ _ _ _ _) as [series1|]; [|done].
  destruct (fetchedSeries _ _ _ _ _) as [series2|]; [|done].
  destruct (alignTimeSeries series1 series2) as [a|] eqn:Ha; [|done].
  apply alignTimeSeries_lengths in Ha as (H1 & _ & H3). simpl.
  rewrite calculateReturns_length, H1.
  by rewrite (proj2 (Nat.ltb_lt 0 _)) by lia.
Qed.


Lemma fetch_eventTitle (kalshi : KalshiClient)
    (startTs endTs : Z) (periodInterval : string) (market : MarketRef) :
  fetchedSeries kalshi startTs endTs periodInterval market
  = withEventTitle (m_eventTitle market)
    <$> pairSeries kalshi (m_eventTicker market) (m_marketTicker market)
          (m_title market) startTs endTs periodInterval.
Proof.
  unfold pairSeries, fetchedSeries, fetchMarketTimeSeries. simpl.
  destruct (kalshi _) as [[response|]|e]; simpl; [|done..].
  destruct (candlesticks response) as [raw|]; simpl; [|done].
  destruct (length raw =? 0)%nat; simpl; [done|].
  destruct (fold_left _ _ _) as [[tss cps] vols].
  by destruct (length cps =? 0)%nat.
Qed.

Lemma pairwiseCorrelations_two (series1 series2 : TimeSeriesData) :
  fst (pairwiseCorrelations [series1; series2]) = emitted series1 series2.
Proof.
  rewrite pairwiseCorrelations_value. cbn [fst length].
  change (indexPairs 2) with [(0, 1)].
  rewrite bind_singleton. done.
Qed.

Lemma pairwiseCorrelations_few (tsd : list TimeSeriesData) :
  length tsd ≤ 1 → fst (pairwiseCorrelations tsd) = [].
Proof.
  intros Hlen. rewrite pairwiseCorrelations_value. simpl.
  pose proof (pairs_total tsd (indexPairs (length tsd))) as Htot.
  pose proof (indexPairs_length (length tsd)) as Hn.
  apply length_zero_iff_nil.
  assert (length tsd * (length tsd - 1) = 0) as Hz by nia. lia.
Qed.

Lemma pairSeries_tickers (kalshi : KalshiClient) (e m t : string)
    (startTs endTs : Z) (periodInterval : string) (series : TimeSeriesData) :
  pairSeries kalshi e m t startTs endTs periodInterval = Some series →
  marketTicker series = m ∧ eventTicker series = e.
Proof.
  unfold pairSeries, fetchedSeries, fetchMarketTimeSeries. simpl.
  destruct (kalshi _) as [[response|]|err]; simpl; [|done..].
  destruct (candlesticks response) as [raw|]; simpl; [|done].
  destruct (length raw =? 0)%nat; simpl; [done|].
  destruct (fold_left _ _ _) as [[tss cps] vols].
  destruct (length cps =? 0)%nat; [done|]. by intros [= <-].
Qed.

(** X11. The batch and the pair analysis agree: when a batch of two
    markets yields a record, [analyzeMarketPair] on the same two markets
    returns a record with the same two tickers, the same correlation and
    the same number of data points. *)
Theorem analyzeMarketPair_agrees_with_batch (kalshi : KalshiClient)
    (ma mb : MarketRef) (startTs endTs : Z) (periodInterval : string)
    (r : CorrelationResult) :
  analyzeMultipleMarkets kalshi [ma; mb] startTs endTs periodInterval
  = Returned [r] →
  ∃ r',
    analyzeMarketPair kalshi
      (m_eventTicker ma) (m_marketTicker ma) (m_title ma)
      (m_eventTicker mb) (m_marketTicker mb) (m_title mb)
      startTs endTs periodInterval
    = Returned (Some r')
    ∧ market1 r' = market1 r ∧ market2 r' = market2 r
    ∧ correlation r' = correlation r ∧ dataPoints r' = dataPoints r.
Proof.
  intros Hbatch. rewrite analyzeMultipleMarkets_returns in Hbatch.
  injection Hbatch as Hbatch. cbn [omap list_omap] in Hbatch.
  rewrite !(fetch_eventTitle kalshi startTs endTs periodInterval) in Hbatch.
  rewrite analyzeMarketPair_value.
  destruct (pairSeries kalshi (m_eventTicker ma) _ _ _ _ _)
    as [series1|] eqn:H1;
    destruct (pairSeries kalshi (m_eventTicker mb) _ _ _ _ _)
      as [series2|] eqn:H2;
    cbn [fmap option_fmap option_map] in Hbatch;
    try (rewrite pairwiseCorrelations_few in Hbatch by (simpl; lia);
         discriminate Hbatch).
  apply pairSeries_tickers in H1 as [Hm1 _].
  apply pairSeries_tickers in H2 as [Hm2 _].
  rewrite pairwiseCorrelations_two, emitted_unfold in Hbatch.
  change (alignTimeSeries (withEventTitle (m_eventTitle ma) series1)
            (withEventTitle (m_eventTitle mb) series2))
    with (alignTimeSeries series1 series2) in Hbatch.
  destruct (String.eqb _ _); [discriminate Hbatch|].
  destruct (alignTimeSeries series1 series2) as [a|]; [|discriminate Hbatch].
  destruct (_ <? 10)%nat; [discriminate Hbatch|].
  destruct (_ && _); [|discriminate Hbatch].
  injection Hbatch as <-. eexists. split; [reflexivity|]. simpl. done.
Qed.

Lemma analyzeMarketPair_agrees_with_batch_witness :
  ∃ r',
    analyzeMarketPair flakyClient "EVT-A" "MKT-A" "MKT-A"
                      "EVT-B" "MKT-B" "MKT-B" 0 100 "60"
    = Returned (Some r')
    ∧ dataPoints r' = 10.
Proof.
  destruct (analyzeMultipleMarkets flakyClient
              [sampleMarket "EVT-A" "MKT-A"; sampleMarket "EVT-B" "MKT-B"]
              0 100 "60") as [[|r [|]]|] eqn:Hbatch;
    try (vm_compute in Hbatch; discriminate Hbatch).
  destruct (analyzeMarketPair_agrees_with_batch flakyClient
              (sampleMarket "EVT-A" "MKT-A") (sampleMarket "EVT-B" "MKT-B")
              0 100 "60" r Hbatch) as (r' & Hpair & _ & _ & _ & Hdp).
  exists r'. split; [exact Hpair|]. rewrite Hdp.
  vm_compute in Hbatch. injection Hbatch as <-. reflexivity.
Defined.

(** X12. When both fetched series have strictly increasing timestamps,
    analysing the pair in the other order returns the same record with
    the two markets exchanged (and [null] when the first order returns
    [null]). *)
Theorem analyzeMarketPair_swap (kalshi : KalshiClient)
    (e1 m1 t1 e2 m2 t2 : string) (startTs endTs : Z)
    (periodInterval : string) :
  (∀ series,
     pairSeries kalshi e1 m1 t1 startTs endTs periodInterval = Some series →
     increasing (timestamps series)) →
  (∀ series,
     pairSeries kalshi e2 m2 t2 startTs endTs periodInterval = Some series →
     increasing (timestamps series)) →
  ∃ result,
    analyzeMarketPair kalshi e1 m1 t1 e2 m2 t2 startTs endTs periodInterval
    = Returned result
    ∧ analyzeMarketPair kalshi e2 m2 t2 e1 m1 t1 startTs endTs
                        periodInterval
      = Returned (swapMarkets <$> result).
Proof.
  intros Hinc1 Hinc2. rewrite !analyzeMarketPair_value.
  eexists. split; [reflexivity|]. f_equal.
  destruct (pairSeries kalshi e1 m1 t1 _ _ _) as [series1|];
    [|by destruct (pairSeries kalshi e2 m2 t2 _ _ _)].
  destruct (pairSeries kalshi e2 m2 t2 _ _ _) as [series2|]; [|done].
  rewrite (align_swap series1 series2) by eauto.
  destruct (alignTimeSeries series1 series2) as [a|]; [|done].
  simpl. unfold swapMarkets. simpl. do 2 f_equal.
  apply pearson_comm.
Qed.

Lemma analyzeMarketPair_swap_witness :
  ∃ result,
    analyzeMarketPair flakyClient "EVT-A" "MKT-A" "MKT-A"
                      "EVT-B" "MKT-B" "MKT-B" 0 100 "60"
    = Returned result
    ∧ analyzeMarketPair flakyClient "EVT-B" "MKT-B" "MKT-B"
                        "EVT-A" "MKT-A" "MKT-A" 0 100 "60"
      = Returned (swapMarkets <$> result).
Proof.
  apply (analyzeMarketPair_swap flakyClient "EVT-A" "MKT-A" "MKT-A"
           "EVT-B" "MKT-B" "MKT-B" 0 100 "60");
    intros series Hs; vm_compute in Hs; injection Hs as <-;
    repeat constructor.
Defined.

(** ** More on the deduplication *)

Lemma set_fresh {K V : Type} `{EqDecision K} (m : list (K * V)) (k : K)
    (v : V) :
  k ∉ m.*1 → JsMap.set m k v = m ++ [(k, v)].
Proof.
  induction m as [|[k' v'] m IH]; intros Hnin; [done|].
  cbn [fmap list_fmap fst] in Hnin.
  apply not_elem_of_cons in Hnin as [Hne Hnin].
  cbn [JsMap.set]. rewrite decide_False by done.
  by rewrite IH.
Qed.

Lemma dedup_fold_values (m1 m2 : list (string * CorrelationResult)) :
  NoDup (m1 ++ m2).*1 →
  (∀ k v, (k, v) ∈ m2 → pairKey v = k) →
  fold_left dedupStep m2.*2 m1 = m1 ++ m2.
Proof.
  revert m1. induction m2 as [|[k v] m2 IH]; intros m1 Hnd Hkey.
  - by rewrite app_nil_r.
  - cbn [fmap list_fmap snd fold_left].
    assert (pairKey v = k) as Hk by (apply Hkey, elem_of_cons; by left).
    assert (k ∉ m1.*1) as Hnin.
    { rewrite fmap_app in Hnd. apply NoDup_app in Hnd as (_ & Hdisj & _).
      intros Hin. apply (Hdisj k Hin). apply elem_of_cons. by left. }
    unfold dedupStep at 2. rewrite Hk.
    rewrite (proj2 (get_None m1 k)) by done.
    rewrite set_fresh by done.
    rewrite IH.
    + by rewrite <- app_assoc.
    + by rewrite <- app_assoc.
    + intros k' v' Hin. apply Hkey, elem_of_cons. by right.
Qed.

Lemma dedup_state_consistent (l : list CorrelationResult) (k : string)
    (v : CorrelationResult) :
  (k, v) ∈ fold_left dedupStep l [] → pairKey v = k.
Proof.
  destruct (dedupInv_fold l) as [Hnd _ Hwin]. intros Hin.
  by apply (Hwin k v), elem_of_get.
Qed.

Lemma dedup_refold (l : list CorrelationResult) :
  fold_left dedupStep (deduplicateCorrelations l) []
  = fold_left dedupStep l [].
Proof.
  unfold deduplicateCorrelations, JsMap.values.
  rewrite (dedup_fold_values [] (fold_left dedupStep l [])); [done| |].
  - apply (dedupInv_fold l).
  - apply dedup_state_consistent.
Qed.

(** X13. Merging can be done window by window: deduplicating the already
    deduplicated records of earlier windows together with new records
    gives the same result as deduplicating everything at once. In
    particular deduplicating twice changes nothing. *)
Theorem deduplicateCorrelations_incremental
    (earlier later : list CorrelationResult) :
  deduplicateCorrelations (deduplicateCorrelations earlier ++ later)
  = deduplicateCorrelations (earlier ++ later)
  ∧ deduplicateCorrelations (deduplicateCorrelations earlier)
    = deduplicateCorrelations earlier.
Proof.
  split.
  - unfold deduplicateCorrelations at 1 3.
    rewrite !fold_left_app. by rewrite dedup_refold.
  - unfold deduplicateCorrelations at 1. by rewrite dedup_refold.
Qed.

Lemma dedup_identity (correlations : list CorrelationResult) :
  NoDup (pairKey <$> correlations) →
  deduplicateCorrelations correlations = correlations.
Proof.
  intros Hnd. unfold deduplicateCorrelations, JsMap.values.
  assert (((λ r, (pairKey r, r)) <$> correlations).*2 = correlations) as Hv.
  { induction correlations as [|r l IH]; [done|].
    cbn [fmap list_fmap snd]. f_equal. apply IH.
    by apply NoDup_cons in Hnd as [_ ?]. }
  assert (((λ r, (pairKey r, r)) <$> correlations).*1
          = pairKey <$> correlations) as Hk.
  { clear. induction correlations as [|r l IH]; [done|].
    cbn [fmap list_fmap fst]. f_equal. apply IH. }
  rewrite <- Hv at 1.
  rewrite (dedup_fold_values [] ((λ r, (pairKey r, r)) <$> correlations)).
  - exact Hv.
  - simpl. by rewrite Hk.
  - intros k v Hin. apply list_elem_of_fmap in Hin as (r & [= -> ->] & _).
    done.
Qed.

(** X14. Records without a repeated pair key pass through unchanged, in
    their order. *)
Theorem deduplicateCorrelations_no_repeat
    (correlations : list CorrelationResult) :
  NoDup (pairKey <$> correlations) →
  deduplicateCorrelations correlations = correlations.
Proof. apply dedup_identity. Qed.

Lemma deduplicateCorrelations_no_repeat_witness :
  deduplicateCorrelations
    [result_12; sampleResult "MKT-A" "MKT-C" None 0.5%float 12]
  = [result_12; sampleResult "MKT-A" "MKT-C" None 0.5%float 12].
Proof.
  apply deduplicateCorrelations_no_repeat.
  apply (bool_decide_unpack _). vm_compute. exact I.
Defined.

(** X15. The output keeps the order in which the pair keys first occur: a
    further record with a new key adds one record at the end, and a
    further record with a known key leaves every key where it was. *)
Theorem deduplicateCorrelations_order (correlations : list CorrelationResult)
    (corr : CorrelationResult) :
  pairKey <$> deduplicateCorrelations (correlations ++ [corr])
  = if decide (pairKey corr ∈ pairKey <$> correlations)
    then pairKey <$> deduplicateCorrelations correlations
    else (pairKey <$> deduplicateCorrelations correlations) ++ [pairKey corr].
Proof.
  rewrite !dedup_keys, fold_left_app. cbn [fold_left].
  destruct (dedupInv_fold correlations) as [Hnd Hkeys Hwin].
  set (m := fold_left dedupStep correlations []) in *. clearbody m.
  unfold dedupStep.
  destruct (JsMap.get m (pairKey corr)) as [e|] eqn:Hget.
  - assert (pairKey corr ∈ m.*1) as Hin.
    { apply dec_stable. intros Hnin. apply get_None in Hnin. congruence. }
    rewrite decide_True by (by apply Hkeys).
    destruct (replaces corr e); [|done].
    by rewrite keys_set, decide_True.
  - apply get_None in Hget.
    rewrite decide_False by (by rewrite <- Hkeys).
    by rewrite keys_set, decide_False.
Qed.

(** ** The collection of the markets *)

Lemma collectMarkets_take (events : list ApiEvent) (acc : list MarketRef) :
  length acc ≤ MAX_MARKETS →
  collectMarkets events acc
  = acc ++ take (MAX_MARKETS - length acc) (omap selectMarket events).
Proof.
  revert acc. induction events as [|event events IH]; intros acc Hacc.
  - cbn [collectMarkets omap list_omap]. by rewrite take_nil, app_nil_r.
  - cbn [collectMarkets].
    destruct (Nat.leb_spec MAX_MARKETS (length acc)) as [Hfull|Hroom].
    { replace (MAX_MARKETS - length acc) with 0 by lia.
      by rewrite take_0, app_nil_r. }
    cbn [omap list_omap]. unfold selectMarket at 1.
    destruct (api_markets event) as [[|m ms]|]; try by apply IH.
    destruct (List.find _ _) as [selected|]; [|by apply IH].
    rewrite IH by (unfold push; rewrite length_app; cbn [length]; lia).
    unfold push. rewrite length_app. cbn [length].
    replace (MAX_MARKETS - length acc)
      with (S (MAX_MARKETS - (length acc + 1))) by lia.
    by rewrite <- app_assoc.
Qed.

Lemma omap_sublist_keys {A B K : Type} (f : A → option B) (ka : A → K)
    (kb : B → K) (l : list A) :
  (∀ a b, f a = Some b → kb b = ka a) →
  (kb <$> omap f l) `sublist_of` (ka <$> l).
Proof.
  intros Hk. induction l as [|a l IH]; [done|].
  cbn [omap list_omap fmap list_fmap].
  destruct (f a) as [b|] eqn:Hfa.
  - cbn [fmap list_fmap]. rewrite (Hk a b Hfa). by apply sublist_skip.
  - by apply sublist_cons.
Qed.

Lemma selectMarket_event (event : ApiEvent) (market : MarketRef) :
  selectMarket event = Some market →
  m_eventTicker market = or_string (api_event_ticker event) "".
Proof.
  unfold selectMarket.
  destruct (api_markets event) as [[|m ms]|]; [done| |done].
  destruct (List.find _ _); [|done]. by intros [= <-].
Qed.

(** X16. The collection loop of [main] gathers, in the order of the
    events, the first market above the volume threshold of each event
    that has one, and stops after [MAX_MARKETS] of them. So at most one
    market per event is collected, the event tickers of the collected
    markets follow the order of the events, and an event whose markets
    all have a volume of at most 10000 contributes nothing. *)
Theorem collectMarkets_spec (events : list ApiEvent) :
  collectMarkets events [] = take MAX_MARKETS (omap selectMarket events)
  ∧ (m_eventTicker <$> collectMarkets events [])
    `sublist_of` ((λ event, or_string (api_event_ticker event) "")
                    <$> events)
  ∧ (∀ event markets,
       api_markets event = Some markets →
       Forall (λ market, (default 0 (api_volume market)
                          ≤ VOLUME_THRESHOLD)%Z) markets →
       selectMarket event = None)
  ∧ ∀ market, market ∈ collectMarkets events [] →
      ∃ event selected markets,
        event ∈ events ∧ api_markets event = Some markets
        ∧ selected ∈ markets
        ∧ (VOLUME_THRESHOLD < default 0 (api_volume selected))%Z
        ∧ m_marketTicker market = or_string (api_ticker selected) ""
        ∧ m_eventTicker market = or_string (api_event_ticker event) "".
Proof.
  assert (collectMarkets events []
          = take MAX_MARKETS (omap selectMarket events)) as Hcollect.
  { rewrite collectMarkets_take by (simpl; lia). cbn [length app].
    by rewrite Nat.sub_0_r. }
  split; [exact Hcollect|]. rewrite Hcollect. split; [|split].
  - etrans; [apply fmap_sublist, sublist_take|].
    apply omap_sublist_keys. apply selectMarket_event.
  - intros event markets Hm Hall. unfold selectMarket. rewrite Hm.
    destruct markets as [|m ms]; [done|].
    destruct (List.find _ (m :: ms)) as [selected|] eqn:Hfind; [|done].
    apply find_some in Hfind as [Hin Hvol].
    rewrite Forall_forall in Hall.
    apply list_elem_of_In, Hall in Hin. apply Z.ltb_lt in Hvol. lia.
  - intros market Hin. apply elem_of_take in Hin as (i & Hin & _).
    apply list_elem_of_lookup_2 in Hin.
    apply list_elem_of_omap in Hin as (event & Hev & Hsel).
    unfold selectMarket in Hsel.
    destruct (api_markets event) as [[|m ms]|] eqn:Hm; [done| |done].
    destruct (List.find _ (m :: ms)) as [selected|] eqn:Hfind; [|done].
    apply find_some in Hfind as [Hsin Hvol].
    injection Hsel as <-. exists event, selected, (m :: ms).
    apply list_elem_of_In in Hsin. apply Z.ltb_lt in Hvol. done.
Qed.

Lemma collectMarkets_spec_witness :
  selectMarket
    {| api_event_ticker := Some "EVT-Q"; api_event_title := None;
       api_markets := Some [ {| api_ticker := Some "MKT-Q";
                                api_title := None;
                                api_volume := Some 9000%Z |} ] |}
  = None.
Proof.
  apply (proj1 (proj2 (proj2 (collectMarkets_spec [])))
           _ [ {| api_ticker := Some "MKT-Q"; api_title := None;
                  api_volume := Some 9000%Z |} ]).
  - reflexivity.
  - apply Forall_singleton. vm_compute. discriminate.
Defined.

Lemma fetchedSeries_eventTicker (kalshi : KalshiClient) (startTs endTs : Z)
    (periodInterval : string) (market : MarketRef)
    (series : TimeSeriesData) :
  fetchedSeries kalshi startTs endTs periodInterval market = Some series →
  eventTicker series = m_eventTicker market
  ∧ marketTicker series = m_marketTicker market.
Proof.
  rewrite fetch_eventTitle.
  destruct (pairSeries _ _ _ _ _ _ _) as [series0|] eqn:Hp; [|done].
  intros [= <-]. apply pairSeries_tickers in Hp as [? ?]. done.
Qed.

Lemma submittedWindows_sublist (allMarkets w : list MarketRef) :
  w ∈ submittedWindows allMarkets → w `sublist_of` allMarkets.
Proof.
  rewrite submittedWindows_unfold. intros Hw.
  apply elem_of_app in Hw as [Hw|Hw].
  - apply list_elem_of_singleton in Hw as ->. apply sublist_take.
  - destruct (_ <=? _)%nat; [|by apply elem_of_nil in Hw].
    apply list_elem_of_singleton in Hw as ->.
    etrans; [apply sublist_take | apply sublist_drop].
Qed.

(** X17. When the events listed by the API have pairwise distinct
    tickers, no window of the run contains two markets of one event: the
    same-event counter of every batch call stays at [0]. *)
Theorem run_skips_no_pair (kalshi : KalshiClient) (events : list ApiEvent)
    (startTs endTs : Z) (periodInterval : string) (w : list MarketRef) :
  NoDup ((λ event, or_string (api_event_ticker event) "") <$> events) →
  w ∈ submittedWindows (collectMarkets events []) →
  snd (pairwiseCorrelations
         (omap (fetchedSeries kalshi startTs endTs periodInterval) w))
  = 0.
Proof.
  intros Hnd Hw. rewrite pairwiseCorrelations_value. cbn [snd].
  apply no_same_event.
  eapply sublist_NoDup; [exact Hnd|].
  etrans; [apply (omap_sublist_keys _ m_eventTicker)|].
  { intros market series Hf.
    by apply fetchedSeries_eventTicker in Hf as [? _]. }
  etrans; [apply fmap_sublist, submittedWindows_sublist, Hw|].
  rewrite collectMarkets_take by (simpl; lia). cbn [length app].
  etrans; [apply fmap_sublist, sublist_take|].
  apply omap_sublist_keys. apply selectMarket_event.
Qed.

Lemma run_skips_no_pair_witness :
  snd (pairwiseCorrelations
         (omap (fetchedSeries flakyClient 0 100 "60")
               (take WINDOW_SIZE
                  (collectMarkets (numberedEvent <$> seq 0 3) []))))
  = 0.
Proof.
  apply (run_skips_no_pair flakyClient (numberedEvent <$> seq 0 3)).
  - apply (bool_decide_unpack _). vm_compute. exact I.
  - rewrite submittedWindows_unfold. apply elem_of_app. left.
    apply list_elem_of_singleton. reflexivity.
Defined.

(** ** Strength labels and colours *)

Lemma SFleb_trans (a b c : spec_float) :
  SFleb a b = true → SFleb b c = true → SFleb a c = true.
Proof.
  unfold SFleb, SFcompare.
  destruct a as [sa|sa| |sa ma ea], b as [sb|sb| |sb mb eb],
           c as [sc|sc| |sc mc ec];
    try destruct sa; try destruct sb; try destruct sc;
    simpl; try congruence; intros H1 H2; sf_compare.
Qed.

Lemma ge_trans (a b c : number) :
  ge a b = true → ge b c = true → ge a c = true.
Proof.
  unfold ge. rewrite !leb_spec. intros Hab Hbc.
  by apply (SFleb_trans _ (Prim2SF b)).
Qed.

Lemma abs_opp (a : number) : PrimFloat.abs (- a) = PrimFloat.abs a.
Proof.
  apply Prim2SF_inj. rewrite !abs_spec, opp_spec. by destruct (Prim2SF a).
Qed.

Lemma SF_sign (t c : spec_float) :
  SFltb (S754_zero false) t = true → SFleb t (SFabs c) = true →
  SFltb (S754_zero false) c = true ∨ SFltb c (S754_zero false) = true.
Proof.
  unfold SFltb, SFleb, SFcompare.
  destruct t as [st|st| |st mt et], c as [sc|sc| |sc mc ec];
    try destruct st; try destruct sc; simpl; try congruence; auto.
Qed.

Lemma SF_not_both (c : spec_float) :
  SFltb (S754_zero false) c = true → SFltb c (S754_zero false) = false.
Proof.
  unfold SFltb, SFcompare.
  destruct c as [sc|sc| |sc mc ec]; try destruct sc; simpl; congruence.
Qed.

#[local] Set Warnings "-inexact-float".

Lemma getCorrelationStrength_rank (c : number) :
  ge (PrimFloat.abs c) 0.3 = true →
  0 < strengthRank (getCorrelationStrength c).
Proof.
  intros H3. unfold getCorrelationStrength. rewrite H3.
  destruct (ge (PrimFloat.abs c) 0.9), (ge (PrimFloat.abs c) 0.7),
           (ge (PrimFloat.abs c) 0.5); vm_compute; lia.
Qed.

(** X18. The strength label depends on the absolute value only, so a
    correlation and its opposite get the same label; a larger absolute
    value never gets a weaker label; and the label is above ["Very Weak"]
    exactly from an absolute value of 0.3 on (never for [NaN]). *)
Theorem getCorrelationStrength_spec (c : number) :
  getCorrelationStrength (- c) = getCorrelationStrength c
  ∧ (∀ d, ge (PrimFloat.abs d) (PrimFloat.abs c) = true →
       strengthRank (getCorrelationStrength c)
       ≤ strengthRank (getCorrelationStrength d))
  ∧ (0 < strengthRank (getCorrelationStrength c)
     ↔ ge (PrimFloat.abs c) 0.3 = true).
Proof.
  split; [|split].
  - unfold getCorrelationStrength. by rewrite abs_opp.
  - intros d Hd. unfold getCorrelationStrength.
    assert (∀ t, ge (PrimFloat.abs c) t = true
                 → ge (PrimFloat.abs d) t = true) as Hup
      by (intros t Ht; by apply (ge_trans _ (PrimFloat.abs c))).
    destruct (ge (PrimFloat.abs c) 0.9) eqn:H9;
      [rewrite (Hup _ H9); reflexivity|].
    destruct (ge (PrimFloat.abs c) 0.7) eqn:H7;
      [rewrite (Hup _ H7); destruct (ge (PrimFloat.abs d) 0.9);
       vm_compute; lia|].
    destruct (ge (PrimFloat.abs c) 0.5) eqn:H5;
      [rewrite (Hup _ H5);
       destruct (ge (PrimFloat.abs d) 0.9), (ge (PrimFloat.abs d) 0.7);
       vm_compute; lia|].
    destruct (ge (PrimFloat.abs c) 0.3) eqn:H3;
      [rewrite (Hup _ H3);
       destruct (ge (PrimFloat.abs d) 0.9), (ge (PrimFloat.abs d) 0.7),
                (ge (PrimFloat.abs d) 0.5);
       vm_compute; lia|].
    vm_compute. lia.
  - unfold getCorrelationStrength.
    assert (∀ t, ge t 0.3 = true → ge (PrimFloat.abs c) t = true
                 → ge (PrimFloat.abs c) 0.3 = true) as Hdown
      by (intros t Ht Hc; by apply (ge_trans _ t)).
    destruct (ge (PrimFloat.abs c) 0.9) eqn:H9;
      [split; [intros _; by apply (Hdown 0.9%float) | intros _; vm_compute; lia]|].
    destruct (ge (PrimFloat.abs c) 0.7) eqn:H7;
      [split; [intros _; by apply (Hdown 0.7%float) | intros _; vm_compute; lia]|].
    destruct (ge (PrimFloat.abs c) 0.5) eqn:H5;
      [split; [intros _; by apply (Hdown 0.5%float) | intros _; vm_compute; lia]|].
    destruct (ge (PrimFloat.abs c) 0.3) eqn:H3;
      [split; [done | intros _; vm_compute; lia]|].
    split; [vm_compute; lia | done].
Qed.

Lemma getCorrelationStrength_spec_witness :
  strengthRank (getCorrelationStrength 0.5)
  ≤ strengthRank (getCorrelationStrength (-0.75)).
Proof.
  apply (proj1 (proj2 (getCorrelationStrength_spec 0.5)) (-0.75)%float).
  reflexivity.
Defined.

(** X19. The colour is of the green family exactly for a correlation above
    [0] (so [0] and [NaN] are red), and it is bold exactly when the
    strength label is ["Strong"] or ["Very Strong"]. *)
Theorem getCorrelationColor_spec (c : number) :
  isGreen (getCorrelationColor c) = gt c 0
  ∧ isBold (getCorrelationColor c)
    = (3 <=? strengthRank (getCorrelationStrength c))%nat.
Proof.
  unfold getCorrelationColor, getCorrelationStrength.
  assert (ge (PrimFloat.abs c) 0.9 = true → ge (PrimFloat.abs c) 0.7 = true)
    as H97 by (intros H; by apply (ge_trans _ 0.9%float)).
  destruct (gt c 0), (ge (PrimFloat.abs c) 0.9) eqn:H9;
    rewrite ?H97 by done; try done;
    by destruct (ge (PrimFloat.abs c) 0.7), (ge (PrimFloat.abs c) 0.5),
               (ge (PrimFloat.abs c) 0.3).
Qed.

(** ** Sorting and selecting records *)

Lemma insertBy_perm {A : Type} (compare : A → A → number) (x : A)
    (l : list A) :
  insertBy compare x l ≡ₚ x :: l.
Proof.
  induction l as [|y l IH]; [done|]. simpl.
  destruct (gt (compare x y) 0); [|done].
  rewrite IH. apply perm_swap.
Qed.

Lemma insertionSort_perm (A : Type) (compare : A → A → number) (l : list A) :
  insertionSort A compare l ≡ₚ l.
Proof.
  unfold insertionSort. induction l as [|x l IH]; [done|]. simpl.
  by rewrite insertBy_perm, IH.
Qed.

(** X20. Whatever order the sorting procedure chooses,
    [findCorrelatedWith] returns exactly the records of the input in
    which the target is one of the two markets and whose absolute
    correlation reaches the threshold, each as often as it occurs; a
    record with a [NaN] correlation is never returned. *)
Theorem findCorrelatedWith_spec (sort : SortFn) (targetMarket : string)
    (correlations : list CorrelationResult) (threshold : number) :
  (∀ A compare l, sort A compare l ≡ₚ l) →
  findCorrelatedWith sort targetMarket correlations threshold
  ≡ₚ filter (λ c, (market1 c = targetMarket ∨ market2 c = targetMarket)
                  ∧ ge (PrimFloat.abs (correlation c)) threshold = true)
            correlations
  ∧ ∀ r, r ∈ findCorrelatedWith sort targetMarket correlations threshold →
      r ∈ correlations
      ∧ (market1 r = targetMarket ∨ market2 r = targetMarket)
      ∧ ge (PrimFloat.abs (correlation r)) threshold = true
      ∧ PrimFloat.eqb (correlation r) (correlation r) = true.
Proof.
  intros Hperm.
  assert (findCorrelatedWith sort targetMarket correlations threshold
          ≡ₚ filter (λ c, (market1 c = targetMarket
                           ∨ market2 c = targetMarket)
                          ∧ ge (PrimFloat.abs (correlation c)) threshold
                            = true) correlations) as Hres.
  { unfold findCorrelatedWith. rewrite Hperm.
    erewrite list_filter_iff; [done|]. intros c. simpl.
    rewrite andb_True, orb_True, !Is_true_true, !String.eqb_eq. done. }
  split; [exact Hres|]. intros r Hr. rewrite Hres in Hr.
  apply list_elem_of_filter in Hr as [[Hm Hge] Hin].
  repeat (split; [done|]).
  revert Hge. unfold ge. rewrite leb_spec, FloatAxioms.eqb_spec, abs_spec.
  unfold SFleb, SFeqb, SFcompare.
  destruct (Prim2SF threshold) as [st|st| |st mt et],
           (Prim2SF (correlation r)) as [sc|sc| |sc mc ec];
    try destruct st; try destruct sc; simpl; try congruence;
    intros _; sf_compare.
Qed.

Lemma findCorrelatedWith_spec_witness :
  findCorrelatedWith insertionSort "MKT-A" [result_12; result_20] 0.3
  ≡ₚ filter (λ c, (market1 c = "MKT-A" ∨ market2 c = "MKT-A")
                  ∧ ge (PrimFloat.abs (correlation c)) 0.3 = true)
            [result_12; result_20].
Proof.
  apply (findCorrelatedWith_spec insertionSort "MKT-A"
           [result_12; result_20] 0.3).
  apply insertionSort_perm.
Defined.

(** X21. [findTopCorrelations] returns [min(top, n)] of the [n] records of
    its argument, namely the first [top] of the array as the sort leaves
    it: the argument array itself is reordered by the call, keeping its
    records. *)
Theorem findTopCorrelations_spec (sort : SortFn)
    (correlations : list CorrelationResult) (top : nat) :
  (∀ A compare l, sort A compare l ≡ₚ l) →
  snd (findTopCorrelations sort correlations top) ≡ₚ correlations
  ∧ fst (findTopCorrelations sort correlations top)
    = take top (snd (findTopCorrelations sort correlations top))
  ∧ length (fst (findTopCorrelations sort correlations top))
    = Nat.min top (length correlations)
  ∧ fst (findTopCorrelations sort correlations top)
    ++ drop top (snd (findTopCorrelations sort correlations top))
    ≡ₚ correlations.
Proof.
  intros Hperm. unfold findTopCorrelations, slice. simpl.
  rewrite Nat.sub_0_r, drop_0.
  split; [apply Hperm|]. split; [done|]. split.
  - rewrite length_take, (Permutation_length (Hperm _ _ _)). done.
  - rewrite take_drop. apply Hperm.
Qed.

Lemma findTopCorrelations_spec_witness :
  length (fst (findTopCorrelations insertionSort
                 [result_12; result_20; result_weak] 2)) = 2.
Proof.
  apply (proj1 (proj2 (proj2 (findTopCorrelations_spec insertionSort
           [result_12; result_20; result_weak] 2 insertionSort_perm)))).
Defined.

Lemma sign_counts (l : list CorrelationResult) :
  Forall (λ c, gt (correlation c) 0 = true
               ∨ PrimFloat.ltb (correlation c) 0 = true) l →
  length (filter (λ c, gt (correlation c) 0%float) l)
  + length (filter (λ c, PrimFloat.ltb (correlation c) 0%float) l)
  = length l.
Proof.
  induction 1 as [|c l Hc Hall IH]; [done|].
  rewrite !filter_cons.
  assert (gt (correlation c) 0 = true →
          PrimFloat.ltb (correlation c) 0 = false) as Hexcl.
  { unfold gt. rewrite !ltb_spec. apply SF_not_both. }
  destruct (gt (correlation c) 0) eqn:Hpos.
  - rewrite (Hexcl eq_refl). simpl. lia.
  - destruct Hc as [Hc|Hc]; [done|]. rewrite Hc. simpl. lia.
Qed.

(** X22. [displayCorrelationMatrix] returns early exactly when no record
    reaches the threshold. Otherwise the total it reports is the number
    of records given, the rows shown are the records reaching the
    threshold, and, for a threshold above [0], every shown record is
    counted as positive or as negative: the two counts add up to the
    number of rows. With a threshold of at least 0.3 no row is labelled
    ["Very Weak"]. *)
Theorem displayCorrelationMatrix_spec (sort : SortFn)
    (correlations : list CorrelationResult) (threshold : number) :
  (∀ A compare l, sort A compare l ≡ₚ l) →
  snd (displayCorrelationMatrix sort correlations threshold) ≡ₚ correlations
  ∧ (fst (displayCorrelationMatrix sort correlations threshold) = None
     ↔ Forall (λ c, ge (PrimFloat.abs (correlation c)) threshold = false)
              correlations)
  ∧ ∀ report,
      fst (displayCorrelationMatrix sort correlations threshold)
      = Some report →
      totalPairs report = length correlations
      ∧ significantCount report = length (shown report)
      ∧ 0 < significantCount report ≤ totalPairs report
      ∧ (shown report).*1.*1
        ≡ₚ filter (λ c, ge (PrimFloat.abs (correlation c)) threshold = true)
                  correlations
      ∧ (gt threshold 0 = true →
         positiveCorrelations report + negativeCorrelations report
         = significantCount report)
      ∧ (ge threshold 0.3 = true →
         Forall (λ row, 0 < strengthRank row.1.2) (shown report)).
Proof.
  intros Hperm. unfold displayCorrelationMatrix.
  set (sorted := sort _ byAbsCorrelation correlations).
  assert (sorted ≡ₚ correlations) as Hsorted by apply Hperm.
  set (significant :=
         filter (λ c, ge (PrimFloat.abs (correlation c)) threshold) sorted).
  assert (significant
          ≡ₚ filter (λ c, ge (PrimFloat.abs (correlation c)) threshold
                          = true) correlations) as Hsig.
  { unfold significant. rewrite Hsorted.
    erewrite list_filter_iff; [done|]. intros c. apply Is_true_true. }
  assert (∀ c, c ∈ significant →
               ge (PrimFloat.abs (correlation c)) threshold = true) as Hin.
  { intros c Hc. rewrite Hsig in Hc.
    by apply list_elem_of_filter in Hc as [? _]. }
  split; [by destruct (length significant =? 0)%nat|].
  destruct (Nat.eqb_spec (length significant) 0) as [Hz|Hnz]; simpl.
  - split; [|done]. split; [|done]. intros _.
    apply length_zero_iff_nil in Hz. rewrite Hz in Hsig.
    apply Permutation_nil in Hsig.
    apply Forall_forall. intros c Hc.
    destruct (ge (PrimFloat.abs (correlation c)) threshold) eqn:Hge; [|done].
    assert (c ∈ filter (λ c, ge (PrimFloat.abs (correlation c)) threshold
                             = true) correlations) as Hc'
      by (by apply list_elem_of_filter).
    rewrite Hsig in Hc'. by apply elem_of_nil in Hc'.
  - split.
    { split; [done|]. intros Hall. exfalso.
      destruct significant as [|c rest] eqn:Hs; [done|].
      assert (c ∈ c :: rest) as Hc by (apply elem_of_cons; by left).
      pose proof (Hin c Hc) as Hge. rewrite Hsig in Hc.
      apply list_elem_of_filter in Hc as [_ Hc].
      rewrite Forall_forall in Hall. by rewrite (Hall c Hc) in Hge. }
    intros report [= <-]. simpl.
    rewrite length_map.
    split; [by rewrite Hsorted|]. split; [done|].
    split.
    { split; [lia|]. unfold significant. apply length_filter. }
    split.
    { rewrite <- Hsig. clear. induction significant as [|c l IH]; [done|].
      simpl. by rewrite IH. }
    split.
    + intros Hpos. apply sign_counts. apply Forall_forall. intros c Hc.
      specialize (Hin c Hc). revert Hpos Hin. unfold gt, ge.
      rewrite !ltb_spec, leb_spec, abs_spec. apply SF_sign.
    + intros H3. apply Forall_forall. intros row Hrow.
      apply list_elem_of_In, in_map_iff in Hrow as (c & <- & Hc).
      apply list_elem_of_In in Hc. simpl.
      apply getCorrelationStrength_rank.
      by apply (ge_trans _ threshold); [apply Hin|].
Qed.

Lemma displayCorrelationMatrix_spec_witness :
  ∃ report,
    fst (displayCorrelationMatrix insertionSort
           [result_12; result_strong; result_weak] 0.3)
    = Some report
    ∧ positiveCorrelations report + negativeCorrelations report
      = significantCount report.
Proof.
  destruct (fst (displayCorrelationMatrix insertionSort
                   [result_12; result_strong; result_weak] 0.3))
    as [report|] eqn:Hrep; [|vm_compute in Hrep; discriminate Hrep].
  exists report. split; [reflexivity|].
  destruct (displayCorrelationMatrix_spec insertionSort
              [result_12; result_strong; result_weak] 0.3
              insertionSort_perm) as (_ & _ & Hreport).
  destruct (Hreport report Hrep) as (_ & _ & _ & _ & Hcount & _).
  apply Hcount. reflexivity.
Defined.

(** ** Configuration *)

(** X23. [createKalshiConfig] returns a configuration exactly when the API
    key is set and not empty and a key path or a PEM string is set and
    not empty; otherwise it throws. The configuration carries exactly one
    of the two key sources, the path when both are given, and its base
    path is never empty (the default replaces a missing or empty
    [KALSHI_BASE_PATH]). *)
Theorem createKalshiConfig_spec (env : Env) :
  ((∃ c, createKalshiConfig env = Returned c)
   ↔ truthy_string (KALSHI_API_KEY env) = true
     ∧ (truthy_string (KALSHI_PRIVATE_KEY_PATH env) = true
        ∨ truthy_string (KALSHI_PRIVATE_KEY_PEM env) = true))
  ∧ ∀ c, createKalshiConfig env = Returned c →
      conf_apiKey c = KALSHI_API_KEY env
      ∧ (truthy_string (KALSHI_PRIVATE_KEY_PATH env) = true →
         conf_privateKeyPath c = KALSHI_PRIVATE_KEY_PATH env
         ∧ conf_privateKeyPem c = None)
      ∧ (truthy_string (KALSHI_PRIVATE_KEY_PATH env) = false →
         conf_privateKeyPath c = None
         ∧ conf_privateKeyPem c = KALSHI_PRIVATE_KEY_PEM env)
      ∧ (is_Some (conf_privateKeyPath c) ↔ conf_privateKeyPem c = None)
      ∧ conf_basePath c ≠ "".
Proof.
  unfold createKalshiConfig.
  assert (or_string (KALSHI_BASE_PATH env)
            "https://api.elections.kalshi.com/trade-api/v2" ≠ "") as Hbase.
  { unfold or_string. destruct (KALSHI_BASE_PATH env) as [s|]; [|done].
    destruct (String.eqb_spec s ""); done. }
  destruct (truthy_string (KALSHI_API_KEY env)) eqn:Hkey; simpl.
  2:{ split; [|done]. split; [intros [c [=]] | intros [[=] _]]. }
  destruct (KALSHI_PRIVATE_KEY_PATH env) as [path|] eqn:Hpath;
    destruct (KALSHI_PRIVATE_KEY_PEM env) as [pem|] eqn:Hpem; simpl;
    repeat match goal with
           | |- context [String.eqb ?s ""] =>
               destruct (String.eqb_spec s ""); simpl
           end;
    (split;
      [ split; [intros [c Hc]; first [discriminate Hc | tauto]
               | intros [_ [H|H]]; first [discriminate H | by eexists]]
      | intros c Hc; try discriminate Hc; injection Hc as <-; simpl;
        repeat split; try done; try (by intros [? [=]]); eauto ]).
Qed.

Lemma createKalshiConfig_spec_witness :
  ∃ c, createKalshiConfig
         {| KALSHI_API_KEY := Some "key-id";
            KALSHI_PRIVATE_KEY_PATH := Some "key.pem";
            KALSHI_PRIVATE_KEY_PEM := Some "PEM";
            KALSHI_BASE_PATH := Some "" |}
       = Returned c
       ∧ conf_privateKeyPath c = Some "key.pem"
       ∧ conf_privateKeyPem c = None.
Proof.
  destruct (createKalshiConfig_spec
              {| KALSHI_API_KEY := Some "key-id";
                 KALSHI_PRIVATE_KEY_PATH := Some "key.pem";
                 KALSHI_PRIVATE_KEY_PEM := Some "PEM";
                 KALSHI_BASE_PATH := Some "" |}) as [Hiff Hconf].
  destruct (proj2 Hiff) as [c Hc]; [split; [reflexivity | by left]|].
  exists c. split; [exact Hc|].
  apply (proj1 (proj2 (Hconf c Hc))). reflexivity.
Defined.

(** ** Paging through the events *)

Lemma getEventsLoop_more_fuel (fuel extra : nat) (eventsApi : EventsApi)
    (limit : nat) (allEvents : list ApiEvent) (cursor : option string)
    (r : outcome (list ApiEvent)) :
  getEventsLoop fuel eventsApi limit allEvents cursor = Some r →
  getEventsLoop (fuel + extra) eventsApi limit allEvents cursor = Some r.
Proof.
  revert allEvents cursor.
  induction fuel as [|fuel IH]; intros allEvents cursor; simpl.
  - destruct (negb _) eqn:Hdone; [|done].
    intros <-. destruct extra as [|n]; simpl; by rewrite Hdone.
  - destruct (negb _); [done|].
    destruct (eventsApi cursor) as [data|e]; [|done].
    destruct (_ || _); [done|]. apply IH.
Qed.

Lemma getEventsLoop_length (fuel : nat) (eventsApi : EventsApi)
    (limit : nat) (allEvents : list ApiEvent) (cursor : option string)
    (evs : list ApiEvent) :
  getEventsLoop fuel eventsApi limit allEvents cursor = Some (Returned evs) →
  length allEvents ≤ length evs.
Proof.
  revert allEvents cursor.
  induction fuel as [|fuel IH]; intros allEvents cursor; simpl.
  - destruct (negb _); [|done]. by intros [= <-].
  - destruct (negb _); [by intros [= <-]|].
    destruct (eventsApi cursor) as [data|e]; [|done].
    destruct (data ≫= page_events) as [[|e es]|];
      (destruct (_ || _);
        [intros [= <-] | intros H; apply IH in H; revert H];
        rewrite ?length_app; simpl; lia).
Qed.

(** X24. Whenever [getEvents] returns, it returns at most [limit] events,
    and with more iterations allowed it returns the same events. With a
    limit of [0] it returns the empty list without calling the API. *)
Theorem getEvents_bounded (fuel : nat) (eventsApi : EventsApi) (limit : nat)
    (evs : list ApiEvent) :
  getEvents fuel eventsApi limit = Some (Returned evs) →
  length evs ≤ limit
  ∧ (∀ extra, getEvents (fuel + extra) eventsApi limit
              = Some (Returned evs))
  ∧ ∀ api, getEvents 0 api 0 = Some (Returned []).
Proof.
  unfold getEvents. intros Hret.
  destruct (getEventsLoop fuel eventsApi limit [] None) as [[all|e]|] eqn:Hl;
    [|done..].
  injection Hret as <-. split; [|split].
  - unfold slice. rewrite length_take. lia.
  - intros extra. by rewrite (getEventsLoop_more_fuel _ _ _ _ _ _ _ Hl).
  - done.
Qed.

Lemma getEvents_bounded_witness :
  getEvents 7 endlessApi 5
  = Some (Returned (take 5 (numberedEvent <$> [0; 1; 2; 0; 1; 2]))).
Proof.
  apply (proj1 (proj2 (getEvents_bounded 2 endlessApi 5 _ eq_refl)) 5).
Defined.

Lemma getEventsLoop_terminates (eventsApi : EventsApi) (limit : nat) :
  (∀ cursor page,
     eventsApi cursor = Returned (Some page) →
     truthy_string (page_cursor page) = true →
     ∃ e es, page_events page = Some (e :: es)) →
  ∀ fuel allEvents cursor,
    limit ≤ length allEvents + fuel →
    ∃ r, getEventsLoop fuel eventsApi limit allEvents cursor = Some r.
Proof.
  intros Hpages fuel.
  induction fuel as [|fuel IH]; intros allEvents cursor Hfuel; simpl.
  - rewrite (proj2 (Nat.ltb_ge _ _)) by lia. simpl. by eexists.
  - destruct (negb _); [by eexists|].
    destruct (eventsApi cursor) as [[page|]|e] eqn:Hpage;
      [| by eexists..].
    simpl. destruct (truthy_string (page_cursor page)) eqn:Hcur; simpl;
      [|by eexists].
    destruct (Hpages _ _ Hpage Hcur) as (e & es & ->).
    destruct (limit <=? _)%nat; [by eexists|].
    apply IH. rewrite length_app. simpl. lia.
Qed.

(** X25. [getEvents] terminates, within [limit] requests, against an API
    each of whose pages either carries at least one event or carries no
    cursor. *)
Theorem getEvents_terminates (eventsApi : EventsApi) (limit : nat) :
  (∀ cursor page,
     eventsApi cursor = Returned (Some page) →
     truthy_string (page_cursor page) = true →
     ∃ e es, page_events page = Some (e :: es)) →
  ∃ r, getEvents limit eventsApi limit = Some r.
Proof.
  intros Hpages. unfold getEvents.
  destruct (getEventsLoop_terminates eventsApi limit Hpages limit [] None)
    as [r ->]; [simpl; lia|].
  destruct r; by eexists.
Qed.

Lemma getEvents_terminates_witness :
  ∃ r, getEvents 5 endlessApi 5 = Some r.
Proof.
  apply (getEvents_terminates endlessApi 5).
  intros cursor page [= <-] _. by eexists _, _.
Defined.

(** X26. Against an API that keeps answering with an empty page and a
    cursor, [getEvents] with a limit above [0] never returns: the loop
    is still running after any number of requests. *)
Theorem getEvents_diverges (eventsApi : EventsApi) (limit : nat) :
  0 < limit →
  (∀ cursor, ∃ page,
     eventsApi cursor = Returned (Some page)
     ∧ truthy_string (page_cursor page) = true
     ∧ (page_events page = None ∨ page_events page = Some [])) →
  ∀ fuel, getEvents fuel eventsApi limit = None.
Proof.
  intros Hlimit Hpages fuel. unfold getEvents.
  assert (∀ cursor, getEventsLoop fuel eventsApi limit [] cursor = None)
    as ->; [|done].
  induction fuel as [|fuel IH]; intros cursor; simpl.
  - by rewrite (proj2 (Nat.ltb_lt _ _)) by done.
  - rewrite (proj2 (Nat.ltb_lt _ _)) by done. simpl.
    destruct (Hpages cursor) as (page & -> & Hcur & Hev). simpl.
    rewrite Hcur. simpl.
    destruct Hev as [-> | ->]; simpl;
      rewrite (proj2 (Nat.leb_gt _ _)) by done; apply IH.
Qed.

Lemma getEvents_diverges_witness :
  getEvents 1000 emptyPagesApi 500 = None.
Proof.
  apply (getEvents_diverges emptyPagesApi 500).
  - lia.
  - intros cursor. eexists. split; [reflexivity|]. split; [reflexivity|].
    by right.
Defined.

(** ** The records of one run *)

Lemma fmap_bind_list {A B C : Type} (f : B → C) (g : A → list B)
    (l : list A) :
  f <$> (l ≫= g) = l ≫= λ x, f <$> g x.
Proof.
  induction l as [|x l IH]; [done|].
  by rewrite !bind_cons, fmap_app, IH.
Qed.

Lemma emitted_markets (series1 series2 : TimeSeriesData)
    (r : CorrelationResult) :
  r ∈ emitted series1 series2 →
  market1 r = marketTicker series1 ∧ market2 r = marketTicker series2.
Proof.
  rewrite emitted_unfold.
  destruct (String.eqb _ _); [by intros ?%elem_of_nil|].
  destruct (alignTimeSeries _ _) as [a|]; [|by intros ?%elem_of_nil].
  destruct (_ <? 10)%nat; [by intros ?%elem_of_nil|].
  destruct (_ && _); [|by intros ?%elem_of_nil].
  by intros ->%list_elem_of_singleton.
Qed.

Lemma emittedAt_markets (tsd : list TimeSeriesData) (i j : nat)
    (r : CorrelationResult) :
  r ∈ emittedAt tsd (i, j) →
  (marketTicker <$> tsd) !! i = Some (market1 r)
  ∧ (marketTicker <$> tsd) !! j = Some (market2 r).
Proof.
  unfold emittedAt. cbn [fst snd]. rewrite !list_lookup_fmap.
  destruct (tsd !! i) as [series1|]; [|by intros ?%elem_of_nil].
  destruct (tsd !! j) as [series2|]; [|by intros ?%elem_of_nil].
  intros [-> ->]%emitted_markets. done.
Qed.

Lemma batch_keys_distinct (tsd : list TimeSeriesData) :
  NoDup (marketTicker <$> tsd) →
  Forall (λ t, bar_free t = true) (marketTicker <$> tsd) →
  NoDup (pairKey <$> (pairwiseCorrelations tsd).1).
Proof.
  intros Hnd Hbar. rewrite pairwiseCorrelations_value. cbn [fst].
  rewrite fmap_bind_list. apply NoDup_bind.
  - intros [i1 j1] [i2 j2] k H1 H2 Hk1 Hk2.
    apply elem_of_indexPairs in H1. apply elem_of_indexPairs in H2.
    apply list_elem_of_fmap in Hk1 as (r1 & -> & Hr1).
    apply list_elem_of_fmap in Hk2 as (r2 & Hk & Hr2).
    apply emittedAt_markets in Hr1 as [Hi1 Hj1].
    apply emittedAt_markets in Hr2 as [Hi2 Hj2].
    rewrite Forall_lookup in Hbar.
    destruct (pairKey_inj r1 r2) as [[Ha Hb]|[Ha Hb]]; eauto.
    + rewrite Ha in Hi1. rewrite Hb in Hj1.
      by rewrite (NoDup_lookup _ _ _ _ Hnd Hi1 Hi2),
                 (NoDup_lookup _ _ _ _ Hnd Hj1 Hj2).
    + rewrite Ha in Hi1. rewrite Hb in Hj1.
      pose proof (NoDup_lookup _ _ _ _ Hnd Hi1 Hj2).
      pose proof (NoDup_lookup _ _ _ _ Hnd Hj1 Hi2). lia.
  - intros [i j] _. pose proof (emittedAt_or_skippedAt tsd (i, j)) as Hlen.
    destruct (emittedAt tsd (i, j)) as [|r [|r' rest]]; cbn in *;
      [constructor | | lia].
    apply NoDup_singleton.
  - apply NoDup_indexPairs.
Qed.

Lemma batch_markets (tsd : list TimeSeriesData) (r : CorrelationResult) :
  r ∈ (pairwiseCorrelations tsd).1 →
  market1 r ∈ marketTicker <$> tsd ∧ market2 r ∈ marketTicker <$> tsd.
Proof.
  rewrite pairwiseCorrelations_value. cbn [fst].
  intros ([i j] & Hr & _)%list_elem_of_bind.
  apply emittedAt_markets in Hr as [Hi Hj].
  split; eapply list_elem_of_lookup_2; eassumption.
Qed.

Lemma elem_of_concat_fmap {A B : Type} (f : A → B) (x : B) (w : list A)
    (windows : list (list A)) :
  x ∈ f <$> w → w ∈ windows → x ∈ f <$> concat windows.
Proof.
  intros Hx. induction windows as [|w' windows IH]; intros Hw.
  - by apply elem_of_nil in Hw.
  - cbn [concat]. rewrite fmap_app. apply elem_of_app.
    apply elem_of_cons in Hw as [<- | Hw]; [by left | right; by apply IH].
Qed.

Lemma windows_keys_distinct (fetch : MarketRef → option TimeSeriesData)
    (windows : list (list MarketRef)) :
  (∀ market series,
     fetch market = Some series →
     marketTicker series = m_marketTicker market) →
  NoDup (m_marketTicker <$> concat windows) →
  Forall (λ t, bar_free t = true) (m_marketTicker <$> concat windows) →
  NoDup (pairKey
           <$> (windows ≫= λ w, (pairwiseCorrelations (omap fetch w)).1)).
Proof.
  intros Hfetch.
  assert (∀ w, (marketTicker <$> omap fetch w)
               `sublist_of` (m_marketTicker <$> w)) as Hsub.
  { intros w. by apply omap_sublist_keys. }
  assert (∀ w r, r ∈ (pairwiseCorrelations (omap fetch w)).1 →
                 market1 r ∈ m_marketTicker <$> w
                 ∧ market2 r ∈ m_marketTicker <$> w) as Hin.
  { intros w r [H1 H2]%batch_markets.
    split; eapply elem_of_sublist; eauto. }
  induction windows as [|w windows IH]; intros Hnd Hbar; [constructor|].
  cbn [concat] in Hnd, Hbar. rewrite fmap_app in Hnd, Hbar.
  apply NoDup_app in Hnd as (Hw & Hdisj & Hrest).
  apply Forall_app in Hbar as [Hbw Hbrest].
  rewrite bind_cons, fmap_app. apply NoDup_app. split; [|split].
  - apply batch_keys_distinct.
    + eapply sublist_NoDup; [exact Hw | apply Hsub].
    + rewrite Forall_forall in Hbw. apply Forall_forall. intros t Ht.
      apply Hbw. eapply elem_of_sublist; [exact Ht | apply Hsub].
  - intros k Hk1 Hk2.
    apply list_elem_of_fmap in Hk1 as (r1 & -> & Hr1).
    apply list_elem_of_fmap in Hk2 as (r2 & Hk & Hr2).
    apply Hin in Hr1 as [Hr1a Hr1b].
    apply list_elem_of_bind in Hr2 as (w' & Hr2 & Hw').
    apply Hin in Hr2 as [Hr2a Hr2b].
    pose proof (elem_of_concat_fmap _ _ _ _ Hr2a Hw') as Hc1.
    pose proof (elem_of_concat_fmap _ _ _ _ Hr2b Hw') as Hc2.
    rewrite Forall_forall in Hbw, Hbrest.
    destruct (pairKey_inj r1 r2) as [[Ha Hb]|[Ha Hb]]; auto.
    + apply (Hdisj (market1 r1)); [done | by rewrite Ha].
    + apply (Hdisj (market1 r1)); [done | by rewrite Ha].
  - by apply IH.
Qed.

Lemma concat_submittedWindows (allMarkets : list MarketRef) :
  concat (submittedWindows allMarkets) `sublist_of` allMarkets.
Proof.
  rewrite submittedWindows_unfold.
  generalize (take_drop WINDOW_SIZE allMarkets).
  generalize (drop WINDOW_SIZE allMarkets) as rest.
  generalize (take WINDOW_SIZE allMarkets) as w1.
  intros w1 rest <-.
  destruct (_ <=? _)%nat; cbn [concat app]; rewrite !app_nil_r.
  - apply sublist_app; [done | apply sublist_take].
  - by apply sublist_inserts_r.
Qed.

(** X27. In a run whose collected markets have pairwise distinct tickers
    without a bar, every record has a pair key of its own: the
    deduplication at the end of [main] drops nothing, and the run returns
    the records of its windows as the engine produced them, in order. *)
Theorem run_keys_distinct (kalshi : KalshiClient) (events : list ApiEvent)
    (startTs endTs : Z) :
  NoDup (m_marketTicker <$> collectMarkets events []) →
  Forall (λ market, bar_free (m_marketTicker market) = true)
         (collectMarkets events []) →
  2 ≤ length (collectMarkets events []) →
  ∃ records,
    mainAnalysis kalshi events startTs endTs = Returned (Some records)
    ∧ records
      = (submittedWindows (collectMarkets events [])
         ≫= λ w, (pairwiseCorrelations
                    (omap (fetchedSeries kalshi startTs endTs "60") w)).1)
    ∧ NoDup (pairKey <$> records).
Proof.
  intros Hnd Hbar Hlen. eexists. rewrite mainAnalysis_returns.
  rewrite (proj2 (Nat.ltb_ge _ _)) by exact Hlen.
  assert (NoDup (pairKey
            <$> (submittedWindows (collectMarkets events [])
                 ≫= λ w, (pairwiseCorrelations
                            (omap (fetchedSeries kalshi startTs endTs "60")
                                  w)).1))) as Hkeys.
  { apply windows_keys_distinct.
    - intros market series Hf.
      by apply fetchedSeries_eventTicker in Hf as [_ ?].
    - eapply sublist_NoDup; [exact Hnd|].
      apply fmap_sublist, concat_submittedWindows.
    - apply Forall_fmap.
      eapply Forall_forall. intros market Hin.
      rewrite Forall_forall in Hbar. apply Hbar.
      eapply elem_of_sublist; [exact Hin | apply concat_submittedWindows]. }
  rewrite (dedup_identity _ Hkeys). done.
Qed.

Lemma run_keys_distinct_witness :
  ∃ records,
    mainAnalysis flakyClient (numberedEvent <$> seq 0 3) 0 100
    = Returned (Some records)
    ∧ NoDup (pairKey <$> records).
Proof.
  destruct (run_keys_distinct flakyClient (numberedEvent <$> seq 0 3) 0 100)
    as (records & Hrun & _ & Hkeys).
  - apply (bool_decide_unpack _). vm_compute. exact I.
  - apply (bool_decide_unpack _). vm_compute. exact I.
  - vm_compute. lia.
  - exists records. split; [exact Hrun | exact Hkeys].
Defined.

(** X28. The window count that [main] reports is [1] for at most 50
    collected markets and [2] for more, whatever the engine answers. It
    is the number of windows submitted to the engine except for exactly
    51 markets, where the second window holds a single market and is
    counted but not analysed. *)
Theorem windowCount_spec {R : Type}
    (analyze : list MarketRef → outcome (list R))
    (allMarkets : list MarketRef) (allCorrelations : list R)
    (windowCount : nat) :
  windowedAnalysis analyze allMarkets
  = Returned (allCorrelations, windowCount) →
  windowCount = (if (WINDOW_SIZE <? length allMarkets)%nat then 2 else 1)
  ∧ (windowCount = length (submittedWindows allMarkets)
     ↔ length allMarkets ≠ WINDOW_SIZE + 1).
Proof.
  intros Hret.
  assert (windowCount
          = if (WINDOW_SIZE <? length allMarkets)%nat then 2 else 1) as ->.
  { revert Hret. unfold windowedAnalysis.
    generalize (slice allMarkets WINDOW_SIZE
                  (Nat.min (WINDOW_SIZE * 2) (length allMarkets))) as w2.
    generalize (slice allMarkets 0 WINDOW_SIZE) as w1.
    intros w1 w2.
    destruct (WINDOW_SIZE <=? length allMarkets)%nat,
             (WINDOW_SIZE <? length allMarkets)%nat,
             (2 <=? length w2)%nat;
      repeat match goal with
             | |- context [analyze ?w] => destruct (analyze w); cbn
             end;
      cbn; intros Hret; by inversion Hret. }
  split; [done|].
  rewrite submittedWindows_unfold, length_app.
  pose proof (eq_refl : WINDOW_SIZE = 50) as HW.
  destruct (Nat.ltb_spec WINDOW_SIZE (length allMarkets));
    destruct (Nat.leb_spec (WINDOW_SIZE + 2) (length allMarkets));
    cbn [length]; lia.
Qed.

Lemma windowCount_spec_witness :
  (∃ records,
     windowedAnalysis (λ w, Returned [w]) (numberedMarket <$> seq 0 51)
     = Returned (records, 2))
  ∧ length (submittedWindows (numberedMarket <$> seq 0 51)) = 1.
Proof.
  split; [|by vm_compute].
  destruct (windowedAnalysis (λ w, Returned [w])
              (numberedMarket <$> seq 0 51)) as [[rs n]|e] eqn:Hrun.
  - destruct (windowCount_spec _ _ _ _ Hrun) as [-> _]. by exists rs.
  - vm_compute in Hrun. discriminate Hrun.
Defined.
